(** * Flattening of Janes JSON-LD records into objects and connections

    A shallow embedding of [load_janes_data.py]: the predicate-name
    normaliser, the identifier codec, the location extractor, the type
    classifier, the mutually recursive pair [parse_props] / [traverse] and
    the assembling part of [main].

    Conventions of the embedding.
    - A Python [str] is a [string]; a character is an [ascii].  The case
      mappings [str.upper] and [str.lower] are the ones Python has on the
      ASCII range (they move the 26 Latin letters and nothing else).
    - A value produced by [json.load] is a [json] tree; a JSON object keeps
      its items in document order, as a Python [dict] does.
    - A Python exception is a [Fault]; the accumulators [objects] and
      [connections] are threaded through the calls as a [store]. *)

From Stdlib Require Import ZArith NArith Bool Ascii String DecimalString Lia.
From stdpp Require Import gmap strings list fin_maps.

Local Open Scope string_scope.
Local Open Scope list_scope.

Set Warnings "-register-all".

(** ** Characters and strings *)

Module PyStr.

Definition is_upper_letter (c : ascii) : bool :=
  let n := nat_of_ascii c in (65 <=? n)%nat && (n <=? 90)%nat.

Definition is_lower_letter (c : ascii) : bool :=
  let n := nat_of_ascii c in (97 <=? n)%nat && (n <=? 122)%nat.

Definition is_letter (c : ascii) : bool := is_upper_letter c || is_lower_letter c.

(** [c.upper()] and [c.lower()] for one character.  Strings are sequences
    of bytes, and the two maps are those of Python on ASCII characters; a byte
    of 128 or more is left as it is. *)
Definition char_upper (c : ascii) : ascii :=
  if is_lower_letter c then ascii_of_nat (nat_of_ascii c - 32) else c.

Definition char_lower (c : ascii) : ascii :=
  if is_upper_letter c then ascii_of_nat (nat_of_ascii c + 32) else c.

(** [s.lower()] *)
Fixpoint lower (s : string) : string :=
  match s with
  | EmptyString => EmptyString
  | String c r => String (char_lower c) (lower r)
  end.

Fixpoint forallb_str (f : ascii -> bool) (s : string) : bool :=
  match s with
  | EmptyString => true
  | String c r => f c && forallb_str f r
  end.

Fixpoint existsb_str (f : ascii -> bool) (s : string) : bool :=
  match s with
  | EmptyString => false
  | String c r => f c || existsb_str f r
  end.

(** [c in s] for a one-character [c]. *)
Definition contains_char (c : ascii) (s : string) : bool :=
  existsb_str (Ascii.eqb c) s.

(** [s.rfind(c)]: the highest index of [c] in [s], or [-1]. *)
Fixpoint rfind_from (i : Z) (c : ascii) (s : string) (found : Z) : Z :=
  match s with
  | EmptyString => found
  | String x r => rfind_from (i + 1) c r (if Ascii.eqb x c then i else found)
  end.

Definition rfind (c : ascii) (s : string) : Z := rfind_from 0 c s (-1).

(** The slices [s[:i]] and [s[i:]] for [0 <= i]. *)
Fixpoint take_str (n : nat) (s : string) : string :=
  match n, s with
  | S k, String c r => String c (take_str k r)
  | _, _ => EmptyString
  end.

Fixpoint drop_str (n : nat) (s : string) : string :=
  match n, s with
  | S k, String _ r => drop_str k r
  | _, _ => s
  end.

(** [c * n] *)
Fixpoint repeat_char (c : ascii) (n : nat) : string :=
  match n with
  | O => EmptyString
  | S k => String c (repeat_char c k)
  end.

(** [s.rstrip(c)] for a one-character [c]. *)
Fixpoint rstrip (c : ascii) (s : string) : string :=
  match s with
  | EmptyString => EmptyString
  | String x r =>
      match rstrip c r with
      | EmptyString => if Ascii.eqb x c then EmptyString else String x EmptyString
      | r' => String x r'
      end
  end.

(** [s.split(c)]: the pieces between the occurrences of [c]; never empty. *)
Fixpoint split (c : ascii) (s : string) : list string :=
  match s with
  | EmptyString => [EmptyString]
  | String x r =>
      if Ascii.eqb x c then EmptyString :: split c r
      else match split c r with
           | p :: ps => String x p :: ps
           | [] => [String x EmptyString]
           end
  end.

(** [l[-1]] on a list of strings that is known not to be empty. *)
Definition last_piece (l : list string) : string := List.last l EmptyString.

(** [sub in s] for strings: [sub] occurs in [s] as a substring. *)
Fixpoint is_infix (sub s : string) : bool :=
  String.prefix sub s ||
  match s with
  | EmptyString => false
  | String _ r => is_infix sub r
  end.

End PyStr.

(** ** The predicate-name normaliser *)

(** The loop of [convert_predicate_name], at index [i] of [enumerate(p)]. *)
Fixpoint convert_chars (i : nat) (p : string) : string :=
  match p with
  | EmptyString => EmptyString
  | String char rest =>
      if Ascii.eqb char (PyStr.char_upper char) then
        (if (0 <? i)%nat then "-" else "") +:+
        String (PyStr.char_lower char) (convert_chars (S i) rest)
      else String char (convert_chars (S i) rest)
  end.

Definition convert_predicate_name (p : string) : string := convert_chars 0 p.

(** The loop of [unconvert_predicate_name], with its flag [to_upper]. *)
Fixpoint unconvert_chars (to_upper : bool) (p : string) : string :=
  match p with
  | EmptyString => EmptyString
  | String char rest =>
      if Ascii.eqb char "-" then unconvert_chars true rest
      else String (if to_upper then PyStr.char_upper char else char)
                  (unconvert_chars false rest)
  end.

Definition unconvert_predicate_name (p : string) : string := unconvert_chars false p.

(** The normaliser as the specification words it: an uppercase letter other
    than the first character gets a hyphen in front and is lowercased, every
    other character passes through, lowercased. *)
Fixpoint toHyphenated_spec_from (i : nat) (name : string) : string :=
  match name with
  | EmptyString => EmptyString
  | String c rest =>
      if PyStr.is_upper_letter c then
        (if (0 <? i)%nat then "-" else "") +:+
        String (PyStr.char_lower c) (toHyphenated_spec_from (S i) rest)
      else String (PyStr.char_lower c) (toHyphenated_spec_from (S i) rest)
  end.

Definition toHyphenated_spec (name : string) : string := toHyphenated_spec_from 0 name.

(** ** SHA-1, as [hashlib.sha1(...).hexdigest()] computes it *)

Module Sha1.

Definition mask32 : N := 0xFFFFFFFF%N.

Definition add32 (a b : N) : N := N.land (a + b) mask32.

Definition rotl32 (n x : N) : N :=
  N.land (N.lor (N.shiftl x n) (N.shiftr x (32 - n))) mask32.

Definition not32 (x : N) : N := N.lxor x mask32.

(** The big-endian bytes of the low [8 * n] bits of [x]. *)
Fixpoint be_bytes (n : nat) (x : N) : list N :=
  match n with
  | O => []
  | S k => be_bytes k (N.shiftr x 8) ++ [N.land x 0xFF%N]
  end.

(** Message padding: a one bit, zeros, then the bit length on 64 bits. *)
Definition pad (msg : list N) : list N :=
  let len := List.length msg in
  let zeros := ((119 - len mod 64) mod 64)%nat in
  msg ++ [0x80%N] ++ List.repeat 0%N zeros ++ be_bytes 8 (8 * N.of_nat len)%N.

Definition word_of_bytes (bs : list N) : N :=
  List.fold_left (fun acc b => N.lor (N.shiftl acc 8) b) bs 0%N.

(** [n] consecutive groups of [k] items of [l]. *)
Fixpoint chunks {A} (n k : nat) (l : list A) : list (list A) :=
  match n with
  | O => []
  | S n' => List.firstn k l :: chunks n' k (List.skipn k l)
  end.

(** The message schedule, newest word first. *)
Fixpoint extend (n : nat) (w : list N) : list N :=
  match n with
  | O => w
  | S n' =>
      let x := N.lxor (N.lxor (List.nth 2 w 0%N) (List.nth 7 w 0%N))
                      (N.lxor (List.nth 13 w 0%N) (List.nth 15 w 0%N)) in
      extend n' (rotl32 1 x :: w)
  end.

Definition schedule (block : list N) : list N :=
  List.rev (extend 64 (List.rev (List.map word_of_bytes (chunks 16 4 block)))).

Record regs := Regs { ra : N; rb : N; rc : N; rd : N; re : N }.

Definition round_f (t : nat) (b c d : N) : N :=
  if (t <? 20)%nat then N.lor (N.land b c) (N.land (not32 b) d)
  else if (t <? 40)%nat then N.lxor (N.lxor b c) d
  else if (t <? 60)%nat then N.lor (N.lor (N.land b c) (N.land b d)) (N.land c d)
  else N.lxor (N.lxor b c) d.

Definition round_k (t : nat) : N :=
  if (t <? 20)%nat then 0x5A827999%N
  else if (t <? 40)%nat then 0x6ED9EBA1%N
  else if (t <? 60)%nat then 0x8F1BBCDC%N
  else 0xCA62C1D6%N.

Definition round (t : nat) (w : N) (r : regs) : regs :=
  let temp :=
    add32 (add32 (add32 (add32 (rotl32 5 (ra r)) (round_f t (rb r) (rc r) (rd r)))
                        (re r)) (round_k t)) w in
  Regs temp (ra r) (rotl32 30 (rb r)) (rc r) (rd r).

Fixpoint rounds (t : nat) (ws : list N) (r : regs) : regs :=
  match ws with
  | [] => r
  | w :: ws' => rounds (S t) ws' (round t w r)
  end.

Definition compress (h : regs) (block : list N) : regs :=
  let r := rounds 0 (schedule block) h in
  Regs (add32 (ra h) (ra r)) (add32 (rb h) (rb r)) (add32 (rc h) (rc r))
       (add32 (rd h) (rd r)) (add32 (re h) (re r)).

Definition init : regs :=
  Regs 0x67452301%N 0xEFCDAB89%N 0x98BADCFE%N 0x10325476%N 0xC3D2E1F0%N.

Definition digest (msg : list N) : regs :=
  let padded := pad msg in
  List.fold_left compress (chunks (List.length padded / 64) 64 padded) init.

Definition hex_digit (n : N) : ascii :=
  if (n <? 10)%N then ascii_of_N (48 + n) else ascii_of_N (87 + n).

(** [n] lowercase hexadecimal digits of [x], most significant first. *)
Fixpoint hex (n : nat) (x : N) : string :=
  match n with
  | O => EmptyString
  | S k => hex k (N.shiftr x 4) +:+ String (hex_digit (N.land x 0xF%N)) EmptyString
  end.

(** [s.encode()] on the characters of the model: one byte each. *)
Definition encode (s : string) : list N :=
  List.map N_of_ascii (list_ascii_of_string s).

Definition hexdigest (s : string) : string :=
  let r := digest (encode s) in
  hex 8 (ra r) +:+ hex 8 (rb r) +:+ hex 8 (rc r) +:+ hex 8 (rd r) +:+ hex 8 (re r).

End Sha1.

(** ** Values, faults and dictionaries *)

(** What [json.load] returns.  [JNull] is Python's [None]; a float is kept as
    the text [repr] prints for it, which is also what [str] and an f-string
    print. *)
Inductive json : Type :=
| JNull
| JBool (b : bool)
| JInt (n : Z)
| JFloat (repr : string)
| JStr (s : string)
| JList (l : list json)
| JDict (items : list (string * json)).

Inductive exn : Type := KeyError | TypeError | AttributeError.

(** The outcome of running a piece of the program: a value, an exception, or
    the recursion budget of the model used up. *)
Inductive result (A : Type) : Type :=
| Ok (a : A)
| Fault (e : exn)
| OutOfFuel.
Arguments Ok {A} a.
Arguments Fault {A} e.
Arguments OutOfFuel {A}.

#[global] Instance result_ret : MRet result := fun A a => Ok a.
#[global] Instance result_bind : MBind result := fun A B f m =>
  match m with
  | Ok a => f a
  | Fault e => Fault e
  | OutOfFuel => OutOfFuel
  end.

(** A loop [for x in l: acc = body(x, acc)] that stops at the first fault. *)
Fixpoint for_each {A B} (body : A -> B -> result B) (l : list A) (acc : B) : result B :=
  match l with
  | [] => Ok acc
  | x :: l' => acc' ← body x acc; for_each body l' acc'
  end.

Definition is_not_none (v : json) : bool :=
  match v with JNull => false | _ => true end.

Module Dict.

Abbreviation dict := (list (string * json)).

(** [d.get(k)] as an option: the value of the first item with key [k]. *)
Fixpoint get (k : string) (d : dict) : option json :=
  match d with
  | [] => None
  | (k', v) :: d' => if String.eqb k k' then Some v else get k d'
  end.

(** [k in d] *)
Definition has (k : string) (d : dict) : bool :=
  match get k d with Some _ => true | None => false end.

(** [d[k] = v]: replaces the value in place, or adds the item at the end. *)
Fixpoint set (k : string) (v : json) (d : dict) : dict :=
  match d with
  | [] => [(k, v)]
  | (k', v') :: d' => if String.eqb k k' then (k', v) :: d' else (k', v') :: set k v d'
  end.

(** [d.get(k)], with Python's [None] when the key is absent. *)
Definition get_or_none (k : string) (d : dict) : json :=
  match get k d with Some v => v | None => JNull end.

End Dict.

(** [k in v], for a string [k] and any value [v]. *)
Definition py_contains (k : string) (v : json) : result bool :=
  match v with
  | JDict d => Ok (Dict.has k d)
  | JStr s => Ok (PyStr.is_infix k s)
  | JList l => Ok (existsb (fun e => match e with JStr s => String.eqb s k | _ => false end) l)
  | _ => Fault TypeError
  end.

(** [v[k]], for a string [k] and any value [v]. *)
Definition py_getitem (k : string) (v : json) : result json :=
  match v with
  | JDict d => match Dict.get k d with Some x => Ok x | None => Fault KeyError end
  | _ => Fault TypeError
  end.

(** [v.get(k)], for any value [v]. *)
Definition py_get (k : string) (v : json) : result json :=
  match v with
  | JDict d => Ok (Dict.get_or_none k d)
  | _ => Fault AttributeError
  end.

(** ** Printing values: [str] and [repr] *)

Module PyFmt.

Definition dquote : ascii := ascii_of_nat 34.
Definition squote : ascii := ascii_of_nat 39.
Definition backslash : ascii := ascii_of_nat 92.

Definition str_of_Z (n : Z) : string := NilZero.string_of_int (Z.to_int n).

Definition escape_char (quote c : ascii) : string :=
  let n := nat_of_ascii c in
  if Ascii.eqb c backslash then String backslash (String backslash EmptyString)
  else if Ascii.eqb c quote then String backslash (String quote EmptyString)
  else if (n =? 10)%nat then String backslash "n"
  else if (n =? 13)%nat then String backslash "r"
  else if (n =? 9)%nat then String backslash "t"
  else if (n <? 32)%nat || (n =? 127)%nat then
    String backslash ("x" +:+ Sha1.hex 2 (N.of_nat n))
  else String c EmptyString.

Fixpoint escape (quote : ascii) (s : string) : string :=
  match s with
  | EmptyString => EmptyString
  | String c r => escape_char quote c +:+ escape quote r
  end.

(** [repr(s)] for a string: single quotes, unless the text has a single
    quote and no double quote. *)
Definition repr_str (s : string) : string :=
  let quote :=
    if PyStr.contains_char squote s && negb (PyStr.contains_char dquote s)
    then dquote else squote in
  String quote (escape quote s) +:+ String quote EmptyString.

Definition join (sep : string) (l : list string) : string :=
  match l with
  | [] => EmptyString
  | x :: l' => List.fold_left (fun acc y => acc +:+ sep +:+ y) l' x
  end.

Fixpoint repr (v : json) : string :=
  match v with
  | JNull => "None"
  | JBool true => "True"
  | JBool false => "False"
  | JInt n => str_of_Z n
  | JFloat r => r
  | JStr s => repr_str s
  | JList l => "[" +:+ join ", " (List.map repr l) +:+ "]"
  | JDict d =>
      "{" +:+ join ", " (List.map (fun kv => repr_str (fst kv) +:+ ": " +:+ repr (snd kv)) d)
          +:+ "}"
  end.

(** [str(v)], which is also how an f-string prints [{v}]. *)
Definition str (v : json) : string :=
  match v with
  | JStr s => s
  | _ => repr v
  end.

End PyFmt.

(** ** The identifier codec *)

(** [os.path.split] of [posixpath]. *)
Definition os_path_split (p : string) : string * string :=
  let i := Z.to_nat (PyStr.rfind "/" p + 1) in
  let head := PyStr.take_str i p in
  let tail := PyStr.drop_str i p in
  let head :=
    if negb (String.eqb head "") &&
       negb (String.eqb head (PyStr.repeat_char "/" (String.length head)))
    then PyStr.rstrip "/" head else head in
  (head, tail).

Definition convert_id (id : string) : string :=
  let '(iri, uid) := os_path_split id in
  let prefix := PyStr.last_piece (PyStr.split "/" iri) in
  let h := Sha1.hexdigest id in
  "janes-" +:+ prefix +:+ "-" +:+ PyStr.lower uid +:+ "-" +:+ PyStr.take_str 8 h.

Definition convert_type (id : string) : string :=
  let '(_, uid) := os_path_split id in
  let uid := convert_predicate_name uid in
  PyStr.lower uid.

(** A call [convert_id(v)] on a value of any type: [os.path.split] raises
    [TypeError] on what is not a string. *)
Definition call_convert_id (v : json) : result string :=
  match v with
  | JStr id => Ok (convert_id id)
  | _ => Fault TypeError
  end.

(** ** The type classifier *)

(** The items of the literal [type_class_map], in source order. *)
Definition type_class_items : list (string * string) :=
  [ ("https://data.janes.com/ontologies/equipment/Equipment", "Entity");
    ("https://data.janes.com/ontologies/orbat/MilitaryGroup", "Entity");
    ("https://data.janes.com/ontologies/geo/Country", "Entity");
    ("https://data.janes.com/ontologies/equipment/EquipmentFamily", "Property");
    ("https://data.janes.com/ontologies/organization/Organization", "Entity");
    ("https://data.janes.com/ontologies/classification/Classification", "Property");
    ("https://data.janes.com/ontologies/specifications/Condition", "Property");
    ("https://data.janes.com/ontologies/equipment/EquipmentVariant", "Property");
    ("https://data.janes.com/ontologies/specifications/Specification", "Property");
    ("https://data.janes.com/ontologies/installation/Installation", "Entity");
    ("https://data.janes.com/ontologies/inventory/InServiceInventory", "Entity");
    ("https://data.janes.com/ontologies/agent/Organization", "Entity");
    ("https://data.janes.com/ontologies/inventory/AcquisitionInventory", "Entity");
    ("https://data.janes.com/ontologies/installation/Runway", "Entity");
    ("https://data.janes.com/ontologies/geo/Country", "Entity");
    ("https://data.janes.com/ontologies/agent/JointVenture", "Concept");
    ("https://data.janes.com/ontologies/unit/Unit", "Concept") ].

(** A dictionary literal: a later item with the same key replaces the
    earlier one. *)
Definition type_class_map : gmap string string :=
  List.fold_left (fun m kv => <[fst kv := snd kv]> m) type_class_items ∅.

(** [type_class_map.get(_type, 'Entity')] *)
Definition object_class_of (_type : string) : string :=
  match type_class_map !! _type with
  | Some c => c
  | None => "Entity"
  end.

(** ** The location extractor *)

Definition extract_location_info (obj : Dict.dict) : result Dict.dict :=
  match Dict.get "locatedAt" obj with
  | None => Ok []
  | Some la =>
      lat ← py_get "lat" la;
      lon ← py_get "long" la;
      let geom :=
        if is_not_none lat && is_not_none lon
        then JStr ("POINT(" +:+ PyFmt.str lon +:+ " " +:+ PyFmt.str lat +:+ ")")
        else JNull in
      location_country ← py_get "locationCountry" la;
      geoprecision ← py_get "geoprecision" la;
      Ok (List.filter (fun kv => is_not_none (snd kv))
            [ ("geometry", geom);
              ("location_country", location_country);
              ("geoprecision", geoprecision) ])
  end.

(** ** The accumulators *)

(** The keyword arguments of one [Object]: the dictionary that [traverse]
    stores under [objects[name]]; [geometry] is the key added afterwards. *)
Record object : Type := Object {
  alias : json;
  domain : string;
  object_class : string;
  name : string;
  xid : json;
  type : string;
  item : Dict.dict;
  project : string;
  geometry : option json
}.

Definition connection : Type := string * string * string.

Record store : Type := Store {
  objects : gmap string object;
  connections : list connection
}.

Definition empty_store : store := Store ∅ [].

Definition set_object (k : string) (o : object) (st : store) : store :=
  Store (<[k := o]> (objects st)) (connections st).

Definition append_connection (c : connection) (st : store) : store :=
  Store (objects st) (connections st ++ [c]).

(** ** The flattening engine *)

Fixpoint json_depth (v : json) : nat :=
  match v with
  | JList l => S (List.fold_right (fun e m => Nat.max (json_depth e) m) 0 l)
  | JDict d => S (List.fold_right (fun kv m => Nat.max (json_depth (snd kv)) m) 0 d)
  | _ => 0
  end.

Section Flatten.

(** [project.uid], fixed when the script starts. *)
Variable project_uid : string.

Section Body.

(** The recursive calls [traverse(...)] made by the two function bodies. *)
Variable trav : json -> store -> result (json * store).

(** Lines 168-175 and 177-183: one nested value under the key [key]. *)
Definition parse_sub (name key : string) (sub_obj : json)
    (acc : Dict.dict * store) : result (Dict.dict * store) :=
  let '(props, st) := acc in
  '(prop, st') ← trav sub_obj st;
  if is_not_none prop then Ok (Dict.set key prop props, st')
  else
    sub_id ← py_getitem "id" sub_obj;
    obj_name ← call_convert_id sub_id;
    let predicate := convert_predicate_name key in
    Ok (props, append_connection (name, predicate, obj_name) st').

(** One turn of the loop over [subj.items()]. *)
Definition parse_item (name : string) (kv : string * json)
    (acc : Dict.dict * store) : result (Dict.dict * store) :=
  let '(predicate_or_key, obj_or_list) := kv in
  if String.eqb predicate_or_key "id" then Ok acc
  else
    match obj_or_list with
    | JList l => for_each (parse_sub name predicate_or_key) l acc
    | JDict _ => parse_sub name predicate_or_key obj_or_list acc
    | scalar => Ok (Dict.set predicate_or_key scalar (fst acc), snd acc)
    end.

Definition parse_props_with (name : string) (subj : Dict.dict) (st : store)
    : result (Dict.dict * store) :=
  for_each (parse_item name) subj ([], st).

(** Lines 235-240 and 242-247: the edge to a location record. *)
Definition location_edge (subj : json) (label : string) (target : json)
    (st : store) : result store :=
  if is_not_none target then
    '(_, st') ← trav target st;
    subj_id ← py_getitem "id" subj;
    name ← call_convert_id subj_id;
    target_id ← py_getitem "id" target;
    obj_name ← call_convert_id target_id;
    Ok (append_connection (name, label, obj_name) st')
  else Ok st.

(** Lines 207-212: the [try] block around the type. *)
Definition type_of (subj : Dict.dict) : string * string :=
  match Dict.get "type" subj with
  | Some (JStr _type) => (_type, convert_type _type)
  | _ => ("", "*")
  end.

(** [o['geometry'] = geom] *)
Definition with_geometry (geom : json) (o : object) : object :=
  Object (alias o) (domain o) (object_class o) (name o) (xid o) (type o)
         (item o) (project o) (Some geom).

(** The body of [traverse].  The last two lines of the source rebuild
    [objects[name]] from its own contents and leave the store as it is. *)
Definition traverse_body (subj : json) (st : store) : result (json * store) :=
  has_id ← py_contains "id" subj;
  if negb has_id then Ok (subj, st)
  else
    xid ← py_getitem "id" subj;
    name ← call_convert_id xid;
    match subj with
    | JDict d =>
        let '(_type, janesType) := type_of d in
        loc_info ← extract_location_info d;
        let object_class := object_class_of _type in
        '(props, st1) ← parse_props_with name d st;
        let o :=
          Object (match Dict.get "label" d with Some l => l | None => JStr name end)
                 "military" object_class name xid janesType props project_uid None in
        let st2 := set_object name o st1 in
        let geom := Dict.get_or_none "geometry" loc_info in
        let st3 :=
          if is_not_none geom
          then Store (alter (with_geometry geom) name (objects st2)) (connections st2)
          else st2 in
        st4 ← location_edge subj "location-country"
                (Dict.get_or_none "location_country" loc_info) st3;
        st5 ← location_edge subj "geoprecision"
                (Dict.get_or_none "geoprecision" loc_info) st4;
        Ok (JNull, st5)
    | _ => Fault TypeError
    end.

End Body.

(** [traverse] with a bound on the depth of the recursion. *)
Fixpoint traverse_fuel (fuel : nat) (subj : json) (st : store) : result (json * store) :=
  match fuel with
  | O => OutOfFuel
  | S n => traverse_body (traverse_fuel n) subj st
  end.

(** The recursion of [traverse] follows the nesting of [subj]: a budget
    above its depth is never used up ([traverse_fuel_enough] below). *)
Definition traverse (subj : json) (st : store) : result (json * store) :=
  traverse_fuel (S (json_depth subj)) subj st.

Definition parse_props (name : string) (subj : Dict.dict) (st : store)
    : result (Dict.dict * store) :=
  parse_props_with (traverse_fuel (json_depth (JDict subj))) name subj st.

(** ** The assembler in [main] *)

(** What the script asks of its collaborators. *)
Inductive event : Type :=
| AddPredicates (trait : string) (predicates : list string)
| Save (o : object)
| AddConnections (batch : list (object * string * object)) (overwrite : bool).

(** How a run ends: at the end of [main], at [exit()], or with an exception. *)
Inductive ending : Type := Returned | Exited | Raised (e : exn).

(** The loops [for x in coll: traverse(x, objects, connections)]. *)
Definition traverse_all (coll : list json) (st : store) : result store :=
  for_each (fun x st => '(_, st') ← traverse x st; Ok st') coll st.

(** [list(set(p for _, p, _ in connections))] *)
Definition unique_predicates (conns : list connection) : list string :=
  elements (list_to_set (List.map (fun c => snd (fst c)) conns) : gset string).

(** The comprehension of lines 313-320; [objects[sub]] raises on a missing key. *)
Fixpoint conn_objects (objs : gmap string object) (conns : list connection)
    : result (list (object * string * object)) :=
  match conns with
  | [] => Ok []
  | (sub, predicate, obj) :: rest =>
      if negb (String.eqb sub obj) then
        s ← match objs !! sub with Some o => Ok o | None => Fault KeyError end;
        o ← match objs !! obj with Some o => Ok o | None => Fault KeyError end;
        tl ← conn_objects objs rest;
        Ok ((s, predicate, o) :: tl)
      else conn_objects objs rest
  end.

(** The loop of [write_connections]: [fuel] bounds the number of turns. *)
Fixpoint write_loop (fuel i j : nat) (l : list (object * string * object)) : list event :=
  match fuel with
  | O => []
  | S fuel' =>
      if (j <=? List.length l)%nat && negb (i =? j)%nat then
        AddConnections (List.firstn (j - i) (List.skipn i l)) true
        :: write_loop fuel' j (Nat.min (j + 100) (List.length l)) l
      else []
  end.

Definition write_connections (l : list (object * string * object)) : list event :=
  write_loop (S (List.length l)) 0 (Nat.min (0 + 100) (List.length l)) l.

(** Statements in sequence: the second part runs if the first returns. *)
Definition and_then (first rest : list event * ending) : list event * ending :=
  match first with
  | (evs, Returned) => (evs ++ fst rest, snd rest)
  | _ => first
  end.

(** [exit()] *)
Definition exit : list event * ending := ([], Exited).

(** The statements of [main] that follow [exit()]: the objects are saved (in
    the order of the map), then the connections are written. *)
Definition persist (st : store) : list event * ending :=
  let saves := List.map (fun kv => Save (snd kv)) (map_to_list (objects st)) in
  match conn_objects (objects st) (connections st) with
  | Ok l => (saves ++ write_connections l, Returned)
  | Fault e => (saves, Raised e)
  | OutOfFuel => (saves, Returned)
  end.

(** [main], from the six loaded collections on: the requests it makes, in
    order, and how it ends.  Line 305 is [exit()], between the registration
    of the predicates and the rest. *)
Definition main (equip installations inventory military_groups organizations units : list json)
    : list event * ending :=
  let traversed :=
    st ← traverse_all equip empty_store;
    st ← traverse_all installations st;
    st ← traverse_all inventory st;
    st ← traverse_all military_groups st;
    st ← traverse_all organizations st;
    traverse_all units st in
  match traversed with
  | Ok st =>
      let unique_predicates := unique_predicates (connections st) in
      and_then ([AddPredicates "JanesOntology" unique_predicates], Returned)
        (and_then exit (persist st))
  | Fault e => ([], Raised e)
  | OutOfFuel => ([], Returned)
  end.

End Flatten.

(** ** Shapes of records *)

Definition is_dict (v : json) : bool :=
  match v with JDict _ => true | _ => false end.

(** The [id] of a record, when it has one, is a string. *)
Definition id_ok (d : Dict.dict) : bool :=
  match Dict.get "id" d with
  | None | Some (JStr _) => true
  | Some _ => false
  end.

(** A reference from a location: none, or a record that has an [id]. *)
Definition reference_ok (v : json) : bool :=
  match v with
  | JNull => true
  | JDict t => Dict.has "id" t
  | _ => false
  end.

(** The location of a record, when it has one, is a mapping, and its country
    and precision are references. *)
Definition location_ok (d : Dict.dict) : bool :=
  match Dict.get "locatedAt" d with
  | None => true
  | Some (JDict la) =>
      reference_ok (Dict.get_or_none "locationCountry" la) &&
      reference_ok (Dict.get_or_none "geoprecision" la)
  | Some _ => false
  end.

(** The records of the data model: an attribute holds a scalar, a record or
    a sequence of records, and [id] and the location are as above, at every
    level of nesting. *)
Fixpoint well_formed (v : json) : bool :=
  match v with
  | JDict d => id_ok d && location_ok d && forallb (fun kv => well_formed (snd kv)) d
  | JList l => forallb (fun e => is_dict e && well_formed e) l
  | _ => true
  end.

(** What [traverse] returns on a record when it returns. *)
Definition node_or_inline (v : json) : json :=
  match v with
  | JDict d => if Dict.has "id" d then JNull else v
  | _ => v
  end.

(** The identities of the records with a string [id] anywhere in [v]. *)
Fixpoint identities (v : json) : list string :=
  match v with
  | JDict d =>
      match Dict.get "id" d with
      | Some (JStr rawId) => [convert_id rawId]
      | _ => []
      end ++ List.flat_map (fun kv => identities (snd kv)) d
  | JList l => List.flat_map identities l
  | _ => []
  end.

(** From [st] to [st'] the objects outside [ids] are untouched and the
    connections have only grown. *)
Definition extends (ids : list string) (st st' : store) : Prop :=
  (forall k, ~ In k ids -> objects st' !! k = objects st !! k) /\
  (exists new, connections st' = connections st ++ new).

(** ** Auxiliary notions of the properties *)

(** Does the name begin with an uppercase letter? *)
Definition starts_with_upper (s : string) : bool :=
  match s with
  | String c _ => PyStr.is_upper_letter c
  | EmptyString => false
  end.

(** The index of the last [c] in [s], counted from the start. *)
Fixpoint last_index (c : ascii) (s : string) : option nat :=
  match s with
  | EmptyString => None
  | String x r =>
      match last_index c r with
      | Some k => Some (S k)
      | None => if Ascii.eqb x c then Some 0%nat else None
      end
  end.

(** Where [os.path.split] cuts: just after the last separator. *)
Definition cut (s : string) : nat :=
  match last_index "/" s with
  | Some k => S k
  | None => 0%nat
  end.

(** The final path segment of [rawId]. *)
Definition local_id (rawId : string) : string := PyStr.last_piece (PyStr.split "/" rawId).

(** The container path of [rawId]: what stands before the final segment,
    without the separators at its end unless it consists of separators. *)
Definition container_path (rawId : string) : string :=
  let before := PyStr.take_str (String.length rawId - String.length (local_id rawId)) rawId in
  if PyStr.forallb_str (Ascii.eqb "/") before then before else PyStr.rstrip "/" before.

(** The geometry that [extract_location_info] builds from the location [la]. *)
Definition geometry_of (la : Dict.dict) : json :=
  let lat := Dict.get_or_none "lat" la in
  let lon := Dict.get_or_none "long" la in
  if is_not_none lat && is_not_none lon
  then JStr ("POINT(" +:+ PyFmt.str lon +:+ " " +:+ PyFmt.str lat +:+ ")")
  else JNull.

Abbreviation traversal := (json -> store -> result (json * store)).

(** [t2] answers as [t1] wherever [t1] has budget enough to answer. *)
Definition refines (t1 t2 : traversal) : Prop :=
  forall j st, t1 j st <> OutOfFuel -> t2 j st = t1 j st.

(** [trav] has budget enough for every value less deep than [n]. *)
Definition covers (n : nat) (trav : traversal) : Prop :=
  forall j st, (json_depth j < n)%nat -> trav j st <> OutOfFuel.

Definition location_key_label (key : string) : string :=
  if String.eqb key "locationCountry" then "location-country" else "geoprecision".

(** The entry [key] of the location of a record ([None] when there is
    none). *)
Definition location_entry (key : string) (obj : Dict.dict) : json :=
  match Dict.get "locatedAt" obj with
  | Some (JDict la) => Dict.get_or_none key la
  | _ => JNull
  end.

(** What remains of the connections once the self-loops are dropped. *)
Definition is_self_loop (c : connection) : bool :=
  String.eqb (fst (fst c)) (snd c).

Definition is_registration (ev : event) : bool :=
  match ev with AddPredicates _ _ => true | _ => false end.

Definition is_write (ev : event) : bool :=
  match ev with AddConnections _ _ => true | _ => false end.

(** The six loops of [main] as one pass. *)
Definition traverse_collections (uid : string)
    (equip installations inventory military_groups organizations units : list json)
    : result store :=
  st ← traverse_all uid equip empty_store;
  st ← traverse_all uid installations st;
  st ← traverse_all uid inventory st;
  st ← traverse_all uid military_groups st;
  st ← traverse_all uid organizations st;
  traverse_all uid units st.

(** ** Records used as examples *)

Definition example_equipment : json :=
  JDict [ ("id", JStr "https://x/equipment/Equipment/123");
          ("type", JStr "https://x/ontologies/equipment/Equipment");
          ("label", JStr "Tank X");
          ("partOf", JDict [ ("id", JStr "https://x/organization/Organization/9");
                             ("label", JStr "Org") ]) ].

(** A record with [id] whose location names a country without [id]. *)
Definition orphan_country_record : Dict.dict :=
  [ ("id", JStr "a");
    ("locatedAt", JDict [ ("locationCountry", JDict [ ("label", JStr "X") ]) ]) ].

(** A record that names itself as its own part. *)
Definition self_part_record : json :=
  JDict [ ("id", JStr "x/a"); ("partOf", JDict [ ("id", JStr "x/a") ]) ].


(** A record with [id] whose own location names a precision record without
    [id]. *)
Definition orphan_precision_record : Dict.dict :=
  [ ("id", JStr "x/c");
    ("locatedAt", JDict [ ("geoprecision", JDict [ ("label", JStr "X") ]) ]) ].

Definition id_equipment_123 : string := convert_id "https://x/equipment/Equipment/123".
Definition id_organization_9 : string := convert_id "https://x/organization/Organization/9".

(** ** Auxiliary notions of the further properties *)

(** Every character of [s] is an ASCII character (a byte below 128). *)
Definition ascii_only (s : string) : bool :=
  PyStr.forallb_str
    (fun c => match c with Ascii.Ascii _ _ _ _ _ _ _ b7 => negb b7 end) s.

(** No uppercase letter occurs in [s]. *)
Definition no_upper (s : string) : bool :=
  PyStr.forallb_str (fun c => negb (PyStr.is_upper_letter c)) s.

(** What may follow the first letter of a hyphenated name: lowercase letters,
    and hyphens each followed by a lowercase letter. *)
Fixpoint hyphen_tail (s : string) : bool :=
  match s with
  | EmptyString => true
  | String c r =>
      if Ascii.eqb c "-" then
        match r with
        | String d r' => PyStr.is_lower_letter d && hyphen_tail r'
        | EmptyString => false
        end
      else PyStr.is_lower_letter c && hyphen_tail r
  end.

(** A hyphenated name, as [located-at]: words of lowercase letters, one
    hyphen between two words. *)
Definition hyphen_name (s : string) : bool :=
  match s with
  | EmptyString => true
  | String c r => PyStr.is_lower_letter c && hyphen_tail r
  end.

(** The three classes of objects. *)
Definition roles : list string := ["Entity"; "Property"; "Concept"].

(** Is [e] the string [id]?  (The test of [ 'id' in l ] on one element.) *)
Definition is_id_string (e : json) : bool :=
  match e with JStr s => String.eqb s "id" | _ => false end.

(** The values that [traverse] gives back as they are: a record without
    [id], a string in which [id] does not occur, a list without the string
    [id]. *)
Definition inline_value (v : json) : bool :=
  match v with
  | JDict d => negb (Dict.has "id" d)
  | JStr s => negb (PyStr.is_infix "id" s)
  | JList l => negb (existsb is_id_string l)
  | _ => false
  end.

(** The values on which [traverse] raises [TypeError] at once: [None], a
    boolean, a number, a string in which [id] occurs, a list with the string
    [id]. *)
Definition rejected_value (v : json) : bool :=
  match v with
  | JDict _ => false
  | JStr s => PyStr.is_infix "id" s
  | JList l => existsb is_id_string l
  | _ => true
  end.

(** The property that a list leaves under its key: its last inline element. *)
Definition last_inline (l : list json) (prev : option json) : option json :=
  List.fold_left (fun acc e => if inline_value e then Some e else acc) l prev.

(** The property that the item [(key, v)] leaves under [key], [prev] being
    there before. *)
Definition property_of (v : json) (prev : option json) : option json :=
  match v with
  | JList l => last_inline l prev
  | JDict t => if Dict.has "id" t then prev else Some v
  | _ => Some v
  end.


(** One write into the accumulators: [objects[k] = o] or
    [connections.append(c)]. *)
Inductive write : Type :=
| WObj (k : string) (o : object)
| WConn (c : connection).

Definition apply_write (st : store) (w : write) : store :=
  match w with
  | WObj k o => set_object k o st
  | WConn c => append_connection c st
  end.

Definition apply_writes (ws : list write) (st : store) : store :=
  List.fold_left apply_write ws st.

Definition written_keys (ws : list write) : list string :=
  List.flat_map (fun w => match w with WObj k _ => [k] | WConn _ => [] end) ws.

Definition written_connections (ws : list write) : list connection :=
  List.flat_map (fun w => match w with WObj _ _ => [] | WConn c => [c] end) ws.

(** What [delta] adds to [st]: its objects, replacing those of the same name,
    and its connections, after those of [st]. *)
Definition merge (st delta : store) : store :=
  Store (objects delta ∪ objects st) (connections st ++ connections delta).

(** The labels that [traverse] gives to connections. *)
Definition built_label (p : string) : Prop :=
  p = "location-country" \/ p = "geoprecision" \/ exists k, p = convert_predicate_name k.

(** The objects that [traverse] stores under [k] when the project is [uid]. *)
Definition built_object (uid k : string) (o : object) : Prop :=
  name o = k /\ domain o = "military" /\ project o = uid /\
  (exists rawId, xid o = JStr rawId /\ k = convert_id rawId) /\
  In (object_class o) roles /\ Dict.get "id" (item o) = None.

(** A write of a visit: an object as above, under an identity of [ids]; or
    a connection with such a label, to an object written by the visit and from
    an object written by it (or from [pending], still to be written). *)
Definition good_write (uid : string) (pending : option string) (ids keys : list string)
    (w : write) : Prop :=
  match w with
  | WObj k o => built_object uid k o /\ In k ids
  | WConn (s, p, o) => built_label p /\ In o keys /\ (In s keys \/ pending = Some s)
  end.

Definition good_log (uid : string) (pending : option string) (ids : list string)
    (ws : list write) : Prop :=
  List.Forall (good_write uid pending ids (written_keys ws)) ws.

(** [F] does the same to every store: it raises the same exception, or it
    returns the same value after the same writes. *)
Definition uniform {A} (F : store -> result (A * store)) (Q : A -> list write -> Prop) : Prop :=
  (exists e, forall st, F st = Fault e) \/
  (exists a ws, Q a ws /\ forall st, F st = Ok (a, apply_writes ws st)).

Definition uniform_store (F : store -> result store) (Q : list write -> Prop) : Prop :=
  (exists e, forall st, F st = Fault e) \/
  (exists ws, Q ws /\ forall st, F st = Ok (apply_writes ws st)).

(** The log of a visit of [j]. *)
Definition value_log (uid : string) (j : json) (ws : list write) : Prop :=
  good_log uid None (identities j) ws /\
  (inline_value j = true -> ws = []) /\
  (forall d rawId, j = JDict d -> Dict.get "id" d = Some (JStr rawId) ->
     In (convert_id rawId) (written_keys ws)).

(** The object that [traverse] builds for a record, and its writes. *)
Definition node_object (uid : string) (d : Dict.dict) (rawId : string) (props : Dict.dict)
    : object :=
  Object (match Dict.get "label" d with Some l => l | None => JStr (convert_id rawId) end)
         "military" (object_class_of (fst (type_of d))) (convert_id rawId) (JStr rawId)
         (snd (type_of d)) props uid None.

Definition node_writes (uid : string) (d : Dict.dict) (rawId : string) (props loc_info : Dict.dict)
    : list write :=
  let geom := Dict.get_or_none "geometry" loc_info in
  WObj (convert_id rawId) (node_object uid d rawId props)
  :: (if is_not_none geom
      then [WObj (convert_id rawId) (with_geometry geom (node_object uid d rawId props))]
      else []).

(** The accumulators that a run may start from or end with: every object is
    stored under its own name and is one that [traverse] builds, and every
    connection has a label of [traverse] and joins two stored objects. *)
Definition store_ok (uid : string) (st : store) : Prop :=
  (forall k o, objects st !! k = Some o -> built_object uid k o) /\
  (forall s p o, In (s, p, o) (connections st) ->
     built_label p /\ is_Some (objects st !! s) /\ is_Some (objects st !! o)).

(** The connections handed over by a sequence of requests, in order. *)
Definition batches (evs : list event) : list (object * string * object) :=
  List.flat_map (fun ev => match ev with AddConnections b _ => b | _ => [] end) evs.

(** * Properties *)

(** ** The predicate-name normaliser *)

Section Normaliser.

Import PyStr.

Example convert_located_at : convert_predicate_name "locatedAt" = "located-at".
Proof. reflexivity. Qed.

Ltac each_char c := destruct c as [[] [] [] [] [] [] [] []].

Lemma app_nil_l (s : string) : "" +:+ s = s.
Proof. reflexivity. Qed.

Lemma app_cons (c : ascii) (s t : string) : String c s +:+ t = String c (s +:+ t).
Proof. reflexivity. Qed.

Ltac step_chars := rewrite ?app_cons, ?app_nil_l; cbn [unconvert_chars Ascii.eqb Bool.eqb].

(** The test [char == char.upper()] holds of an uppercase letter and fails on
    a lowercase one. *)
Lemma letter_cases (c : ascii) :
  is_letter c = true ->
  (is_upper_letter c = true /\ Ascii.eqb c (char_upper c) = true /\
   Ascii.eqb (char_lower c) "-" = false /\ char_upper (char_lower c) = c)
  \/
  (is_upper_letter c = false /\ Ascii.eqb c (char_upper c) = false /\
   Ascii.eqb c "-" = false /\ char_lower c = c).
Proof.
  each_char c; vm_compute; intros H; try discriminate H;
    first [ left; repeat split; reflexivity | right; repeat split; reflexivity ].
Qed.

Lemma roundtrip_inner (s : string) :
  forallb_str is_letter s = true ->
  forall i, (0 < i)%nat -> unconvert_chars false (convert_chars i s) = s.
Proof.
  induction s as [|c r IH]; intros Hs i Hi; [reflexivity|].
  cbn [forallb_str] in Hs. apply andb_prop in Hs as [Hc Hr].
  cbn [convert_chars].
  destruct (letter_cases c Hc) as [(_ & Hup & Hdash & Hback) | (_ & Hup & Hdash & _)];
    rewrite Hup.
  - apply Nat.ltb_lt in Hi. rewrite Hi.
    step_chars. fold (Ascii.eqb (char_lower c) "-"). rewrite Hdash, Hback.
    f_equal. apply IH; [assumption | lia].
  - cbn [unconvert_chars]. rewrite Hdash. f_equal. apply IH; [assumption | lia].
Qed.

(** What the round trip does to a name made of letters: only the case of the
    first letter is lost. *)
Lemma roundtrip_letters (c : ascii) (r : string) :
  forallb_str is_letter (String c r) = true ->
  unconvert_predicate_name (convert_predicate_name (String c r)) = String (char_lower c) r.
Proof.
  intros Hs. cbn [forallb_str] in Hs. apply andb_prop in Hs as [Hc Hr].
  unfold unconvert_predicate_name, convert_predicate_name. cbn [convert_chars].
  destruct (letter_cases c Hc) as [(_ & Hup & Hdash & _) | (_ & Hup & Hdash & Hlow)];
    rewrite Hup; cbn [Nat.ltb Nat.leb]; rewrite ?app_nil_l; cbn [unconvert_chars].
  - rewrite Hdash. f_equal. apply roundtrip_inner; [assumption | lia].
  - rewrite Hdash, Hlow. f_equal. apply roundtrip_inner; [assumption | lia].
Qed.

(** C4, as the code has it: on a name made of ASCII letters that does not begin
    with an uppercase letter, [unconvert_predicate_name] undoes
    [convert_predicate_name]. *)
Theorem unconvert_convert_roundtrip (s : string) :
  forallb_str is_letter s = true ->
  starts_with_upper s = false ->
  unconvert_predicate_name (convert_predicate_name s) = s.
Proof.
  destruct s as [|c r]; intros Hs Hfirst; [reflexivity|].
  rewrite roundtrip_letters by assumption.
  cbn in Hfirst. unfold char_lower. rewrite Hfirst. reflexivity.
Qed.

Lemma unconvert_convert_roundtrip_witness :
  unconvert_predicate_name (convert_predicate_name "locatedAt") = "locatedAt".
Proof. apply (unconvert_convert_roundtrip "locatedAt"); reflexivity. Defined.

(** C4, as stated, fails: a name of letters that begins with an uppercase
    letter does not come back. *)
Lemma roundtrip_fails_on_leading_capital :
  ~ (forall s : string,
       forallb_str is_letter s = true ->
       unconvert_predicate_name (convert_predicate_name s) = s).
Proof.
  intros H. specialize (H "EquipmentFamily" eq_refl). vm_compute in H. discriminate H.
Qed.

(** On names made of letters the code and the specification's wording of the
    normaliser agree. *)
Lemma convert_chars_letters (s : string) :
  forallb_str is_letter s = true ->
  forall i, convert_chars i s = toHyphenated_spec_from i s.
Proof.
  induction s as [|c r IH]; intros Hs i; [reflexivity|].
  cbn [forallb_str] in Hs. apply andb_prop in Hs as [Hc Hr].
  cbn [convert_chars toHyphenated_spec_from].
  destruct (letter_cases c Hc) as [(Hu & Hup & _ & _) | (Hu & Hup & _ & Hlow)];
    rewrite Hu, Hup, ?Hlow, IH by assumption; reflexivity.
Qed.

(** The two examples of the documentation. *)
Lemma convert_predicate_name_examples :
  convert_predicate_name "locatedAt" = "located-at" /\
  convert_predicate_name "EquipmentFamily" = "equipment-family".
Proof. split; reflexivity. Qed.

(** C5 fails on the code: the test [char == char.upper()] also holds of a
    digit, which therefore gets a hyphen although it is no uppercase letter. *)
Theorem convert_predicate_name_hyphenates_digit :
  convert_predicate_name "a1" = "a-1" /\
  toHyphenated_spec "a1" = "a1" /\
  is_upper_letter "1" = false /\
  convert_predicate_name "a1" <> toHyphenated_spec "a1".
Proof. repeat split; try reflexivity. vm_compute. discriminate. Qed.

End Normaliser.

(** ** The identifier codec *)

Section Codec.

Import PyStr.

Lemma rfind_from_spec (c : ascii) (s : string) :
  forall i found,
    rfind_from i c s found =
    match last_index c s with
    | Some k => (i + Z.of_nat k)%Z
    | None => found
    end.
Proof.
  induction s as [|x r IH]; intros i found; [reflexivity|].
  cbn [rfind_from last_index]. rewrite IH.
  destruct (last_index c r) as [k|]; [lia|].
  destruct (Ascii.eqb x c); [lia | reflexivity].
Qed.

Lemma rfind_cut (s : string) : Z.to_nat (rfind "/" s + 1) = cut s.
Proof.
  unfold rfind, cut. rewrite rfind_from_spec.
  destruct (last_index "/" s); [lia | reflexivity].
Qed.

Lemma last_index_none (c : ascii) (s : string) :
  last_index c s = None <-> contains_char c s = false.
Proof.
  unfold contains_char.
  induction s as [|x r IH]; [tauto|].
  cbn [last_index existsb_str]. rewrite (Ascii.eqb_sym c x).
  destruct (last_index c r) as [k|].
  - split; [discriminate|]. intros H. apply orb_false_elim in H as [_ H].
    apply IH in H. discriminate H.
  - destruct IH as [IH _]. rewrite (IH eq_refl), orb_false_r.
    destruct (Ascii.eqb x c); split; congruence.
Qed.

Lemma last_index_lt (c : ascii) (s : string) (k : nat) :
  last_index c s = Some k -> (k < String.length s)%nat.
Proof.
  revert k. induction s as [|x r IH]; intros k; [discriminate|].
  cbn [last_index String.length].
  destruct (last_index c r) as [j|].
  - intros [= <-]. specialize (IH j eq_refl). lia.
  - destruct (Ascii.eqb x c); [intros [= <-]; lia | discriminate].
Qed.

(** The pieces of [s.split(c)] against the last separator: the last piece is
    what follows it. *)
Lemma split_last_index (c : ascii) (s : string) :
  match last_index c s with
  | None => split c s = [s]
  | Some k =>
      (exists p q ps, split c s = p :: q :: ps) /\
      last_piece (split c s) = drop_str (S k) s
  end.
Proof.
  unfold last_piece.
  induction s as [|x r IH]; [reflexivity|].
  cbn [last_index split].
  destruct (last_index c r) as [k|].
  - destruct IH as [(p & q & ps & Hsp) Hlast].
    rewrite Hsp in *. destruct (Ascii.eqb x c).
    + split; [eauto|]. exact Hlast.
    + split; [eauto|]. exact Hlast.
  - rewrite IH. destruct (Ascii.eqb x c).
    + split; [eauto|]. reflexivity.
    + reflexivity.
Qed.

Lemma drop_cut_local_id (s : string) : drop_str (cut s) s = local_id s.
Proof.
  unfold cut, local_id. pose proof (split_last_index "/" s) as H.
  destruct (last_index "/" s) as [k|].
  - symmetry. apply H.
  - rewrite H. reflexivity.
Qed.

Lemma length_drop_str (n : nat) (s : string) :
  String.length (drop_str n s) = (String.length s - n)%nat.
Proof.
  revert s. induction n as [|n IH]; intros s.
  - cbn. lia.
  - destruct s as [|x r]; [reflexivity|]. cbn [drop_str String.length]. apply IH.
Qed.

Lemma cut_le (s : string) : (cut s <= String.length s)%nat.
Proof.
  unfold cut. destruct (last_index "/" s) as [k|] eqn:E; [|lia].
  apply last_index_lt in E. lia.
Qed.

Lemma eqb_repeat_char (c : ascii) (s : string) :
  String.eqb s (repeat_char c (String.length s)) = forallb_str (Ascii.eqb c) s.
Proof.
  induction s as [|x r IH]; [reflexivity|].
  cbn [String.length repeat_char String.eqb forallb_str].
  rewrite (Ascii.eqb_sym c x). destruct (Ascii.eqb x c); [exact IH | reflexivity].
Qed.

Lemma os_path_split_spec (rawId : string) :
  os_path_split rawId = (container_path rawId, local_id rawId).
Proof.
  unfold os_path_split, container_path.
  rewrite rfind_cut, drop_cut_local_id, <- (drop_cut_local_id rawId), length_drop_str.
  replace (String.length rawId - (String.length rawId - cut rawId))%nat with (cut rawId)
    by (pose proof (cut_le rawId); lia).
  rewrite eqb_repeat_char. f_equal.
  destruct (take_str (cut rawId) rawId) as [|x r]; [reflexivity|].
  change (String.eqb (String x r) "") with false. cbn [negb andb].
  destruct (forallb_str (Ascii.eqb "/") (String x r)); reflexivity.
Qed.

Lemma local_id_no_separator (rawId : string) :
  contains_char "/" (local_id rawId) = false.
Proof.
  unfold local_id. pose proof (split_last_index "/" rawId) as H.
  destruct (last_index "/" rawId) as [k|] eqn:E.
  - destruct H as [_ ->]. revert k E.
    induction rawId as [|x r IH]; intros k E; [discriminate|].
    cbn [last_index] in E. cbn [drop_str].
    destruct (last_index "/" r) as [j|] eqn:Er.
    + injection E as <-. apply (IH j eq_refl).
    + destruct (Ascii.eqb x "/"); [|discriminate]. injection E as <-.
      cbn [drop_str]. apply last_index_none. exact Er.
  - rewrite H. apply last_index_none. exact E.
Qed.

Lemma no_separator_split (rawId : string) :
  contains_char "/" rawId = false ->
  container_path rawId = "" /\ local_id rawId = rawId.
Proof.
  intros H. apply last_index_none in H.
  assert (Hs : os_path_split rawId = ("", rawId)).
  { unfold os_path_split. rewrite rfind_cut. unfold cut. rewrite H.
    destruct rawId; reflexivity. }
  rewrite os_path_split_spec in Hs. injection Hs as Hc Hl. split; assumption.
Qed.

Lemma length_hex (n : nat) (x : N) : String.length (Sha1.hex n x) = n.
Proof.
  revert x. induction n as [|n IH]; intros x; [reflexivity|].
  cbn [Sha1.hex].
  assert (Happ : forall a b, String.length (a +:+ b) = (String.length a + String.length b)%nat).
  { intros a b. induction a as [|y a IHa]; [reflexivity|].
    change (String y a +:+ b) with (String y (a +:+ b)). cbn [String.length]. now rewrite IHa. }
  rewrite Happ, IH. cbn. lia.
Qed.

(** *** An identifier with at least two segments *)

Lemma last_index_app_sep (c : ascii) (a l : string) :
  contains_char c l = false ->
  last_index c (a +:+ String c l) = Some (String.length a).
Proof.
  intros Hl. apply last_index_none in Hl.
  induction a as [|x a IH].
  - rewrite app_nil_l. cbn [last_index String.length]. rewrite Hl, Ascii.eqb_refl. reflexivity.
  - rewrite app_cons. cbn [last_index String.length]. rewrite IH. reflexivity.
Qed.

Lemma take_app_sep (c : ascii) (a l : string) :
  take_str (S (String.length a)) (a +:+ String c l) = a +:+ String c "".
Proof.
  induction a as [|x a IH]; [reflexivity|].
  rewrite !app_cons. cbn [String.length take_str]. f_equal. exact IH.
Qed.

Lemma drop_app_sep (c : ascii) (a l : string) :
  drop_str (S (String.length a)) (a +:+ String c l) = l.
Proof.
  induction a as [|x a IH]; [destruct l; reflexivity|].
  rewrite app_cons. cbn [String.length drop_str]. exact IH.
Qed.

Lemma forallb_str_app (f : ascii -> bool) (a b : string) :
  forallb_str f (a +:+ b) = forallb_str f a && forallb_str f b.
Proof.
  induction a as [|x a IH]; [reflexivity|].
  rewrite app_cons. cbn [forallb_str]. rewrite IH. apply andb_assoc.
Qed.

Lemma rstrip_app_sep (c : ascii) (a : string) :
  rstrip c (a +:+ String c "") = rstrip c a.
Proof.
  induction a as [|x a IH].
  - rewrite app_nil_l. cbn [rstrip]. rewrite Ascii.eqb_refl. reflexivity.
  - rewrite app_cons. cbn [rstrip]. rewrite IH. reflexivity.
Qed.

Lemma rstrip_no_sep (c : ascii) (p : string) :
  contains_char c p = false -> rstrip c p = p.
Proof.
  unfold contains_char. induction p as [|x p IH]; intros H; [reflexivity|].
  cbn [existsb_str] in H. apply orb_false_elim in H as [Hx Hp].
  cbn [rstrip]. rewrite (IH Hp). rewrite Ascii.eqb_sym in Hx.
  destruct p; [rewrite Hx|]; reflexivity.
Qed.

Lemma rstrip_keeps_segment (c : ascii) (a p : string) :
  p <> "" -> contains_char c p = false -> rstrip c (a +:+ p) = a +:+ p.
Proof.
  intros Hne Hp. induction a as [|x a IH].
  - rewrite app_nil_l. apply rstrip_no_sep. exact Hp.
  - rewrite app_cons. cbn [rstrip]. rewrite IH.
    destruct (a +:+ p) as [|y r] eqn:E; [|reflexivity].
    destruct a; [rewrite app_nil_l in E; contradiction | rewrite app_cons in E; discriminate E].
Qed.

Lemma app_assoc_str (a b c : string) : (a +:+ b) +:+ c = a +:+ (b +:+ c).
Proof.
  induction a as [|x a IH]; [reflexivity|]. rewrite !app_cons. f_equal. exact IH.
Qed.

(** On [container/prefix/local] the split is as one reads it. *)
Lemma os_path_split_two_segments (c p l : string) :
  p <> "" -> contains_char "/" p = false -> contains_char "/" l = false ->
  os_path_split (c +:+ "/" +:+ p +:+ "/" +:+ l) = (c +:+ "/" +:+ p, l) /\
  last_piece (split "/" (c +:+ "/" +:+ p)) = p.
Proof.
  intros Hne Hp Hl. split.
  - unfold os_path_split. rewrite rfind_cut. unfold cut.
    replace (c +:+ "/" +:+ p +:+ "/" +:+ l) with ((c +:+ "/" +:+ p) +:+ String "/" l)
      by (rewrite !app_assoc_str, !app_cons, !app_nil_l; reflexivity).
    rewrite (last_index_app_sep "/" _ l Hl), take_app_sep, drop_app_sep.
    rewrite eqb_repeat_char, !forallb_str_app.
    assert (Hnot : forallb_str (Ascii.eqb "/") p = false).
    { destruct p as [|x p']; [contradiction|]. cbn [forallb_str].
      unfold contains_char in Hp. cbn [existsb_str] in Hp.
      apply orb_false_elim in Hp as [-> _]. reflexivity. }
    rewrite Hnot, !andb_false_r, andb_false_l.
    assert (Hr : rstrip "/" (c +:+ "/" +:+ p) = c +:+ "/" +:+ p)
      by (rewrite <- app_assoc_str; apply rstrip_keeps_segment; assumption).
    rewrite rstrip_app_sep, Hr.
    destruct ((c +:+ "/" +:+ p) +:+ String "/" "") eqn:E; [|reflexivity].
    destruct c; rewrite ?app_cons, ?app_nil_l in E; discriminate E.
  - pose proof (split_last_index "/" (c +:+ "/" +:+ p)) as H.
    replace (c +:+ "/" +:+ p) with (c +:+ String "/" p) in *
      by (rewrite app_cons, app_nil_l; reflexivity).
    rewrite (last_index_app_sep "/" c p Hp) in H. destruct H as [_ ->].
    apply drop_app_sep.
Qed.

(** C3: [convert_id] is a function of [rawId] alone and returns
    [janes-{prefix}-{localId.lower()}-{h}], where [localId] is the final path
    segment of [rawId], [prefix] the last component of its container path
    (empty when [rawId] has no slash, [p] on [c/p/l]) and [h] the first 8 hexadecimal digits of
    the SHA-1 digest of [rawId]; equal inputs give equal identities. *)
Theorem convert_id_format (rawId : string) :
  convert_id rawId =
    "janes-" +:+ last_piece (split "/" (container_path rawId)) +:+ "-" +:+
    lower (local_id rawId) +:+ "-" +:+ take_str 8 (Sha1.hexdigest rawId)
  /\ contains_char "/" (local_id rawId) = false
  /\ String.length (take_str 8 (Sha1.hexdigest rawId)) = 8%nat
  /\ (contains_char "/" rawId = false ->
      local_id rawId = rawId /\ last_piece (split "/" (container_path rawId)) = "")
  /\ (forall c p l,
        rawId = c +:+ "/" +:+ p +:+ "/" +:+ l ->
        p <> "" -> contains_char "/" p = false -> contains_char "/" l = false ->
        local_id rawId = l /\ last_piece (split "/" (container_path rawId)) = p)
  /\ (forall other, other = rawId -> convert_id other = convert_id rawId).
Proof.
  split; [|split; [|split; [|split; [|split]]]].
  - unfold convert_id. rewrite os_path_split_spec. reflexivity.
  - apply local_id_no_separator.
  - unfold Sha1.hexdigest.
    destruct (Sha1.hex 8 (Sha1.ra (Sha1.digest (Sha1.encode rawId)))) as [|c0 [|c1 [|c2 [|c3
      [|c4 [|c5 [|c6 [|c7 rest]]]]]]]] eqn:E;
      try (apply (f_equal String.length) in E; rewrite length_hex in E; discriminate E).
    reflexivity.
  - intros H. destruct (no_separator_split rawId H) as [-> ->]. split; reflexivity.
  - intros c p l -> Hne Hp Hl.
    destruct (os_path_split_two_segments c p l Hne Hp Hl) as [Hsplit Hlast].
    rewrite os_path_split_spec in Hsplit. injection Hsplit as -> ->.
    split; [reflexivity | exact Hlast].
  - intros other ->. reflexivity.
Qed.

Lemma convert_id_format_witness :
  convert_id "abc" = "janes--abc-a9993e36" /\
  last_piece (split "/" (container_path "abc")) = "".
Proof.
  destruct (convert_id_format "abc") as (Hfmt & _ & _ & Hnone & _ & _).
  destruct (Hnone eq_refl) as [Hl Hp].
  split; [|exact Hp].
  rewrite Hfmt, Hp, Hl. vm_compute. reflexivity.
Defined.

(** The model of SHA-1 on the standard test vectors. *)
Example sha1_test_vectors :
  Sha1.hexdigest "" = "da39a3ee5e6b4b0d3255bfef95601890afd80709" /\
  Sha1.hexdigest "abc" = "a9993e364706816aba3e25717850c26c9cd0d89d" /\
  Sha1.hexdigest "The quick brown fox jumps over the lazy dog"
    = "2fd4e1c67a2d28fced849ee1bb76e7391b93eb12".
Proof. split; [|split]; vm_compute; reflexivity. Qed.

Example convert_id_equipment :
  convert_id "https://x/equipment/Equipment/123" = "janes-Equipment-123-78cb116d".
Proof. vm_compute. reflexivity. Qed.

End Codec.

(** ** The location extractor *)

Section Location.

(** The three entries of the result, read back with [.get]. *)
Lemma extract_location_info_fields (obj la : Dict.dict) :
  Dict.get "locatedAt" obj = Some (JDict la) ->
  exists info,
    extract_location_info obj = Ok info /\
    Dict.get_or_none "geometry" info = geometry_of la /\
    Dict.get_or_none "location_country" info = Dict.get_or_none "locationCountry" la /\
    Dict.get_or_none "geoprecision" info = Dict.get_or_none "geoprecision" la.
Proof.
  intros Hla. unfold extract_location_info. rewrite Hla.
  cbn [py_get mbind result_bind]. fold (geometry_of la).
  eexists. split; [reflexivity|].
  destruct (geometry_of la), (Dict.get_or_none "locationCountry" la),
    (Dict.get_or_none "geoprecision" la); repeat split; reflexivity.
Qed.

Lemma extract_location_info_absent (obj : Dict.dict) :
  Dict.get "locatedAt" obj = None -> extract_location_info obj = Ok [].
Proof. intros H. unfold extract_location_info. rewrite H. reflexivity. Qed.

(** A location that is no mapping has no [.get]. *)
Lemma extract_location_info_not_mapping (obj : Dict.dict) (la : json) :
  Dict.get "locatedAt" obj = Some la ->
  (forall d, la <> JDict d) ->
  extract_location_info obj = Fault AttributeError.
Proof.
  intros H Hla. unfold extract_location_info. rewrite H.
  destruct la; try reflexivity. destruct (Hla _ eq_refl).
Qed.

(** C6, as the code has it: without a location the result is empty; with a
    location that is a mapping the result has a geometry exactly when latitude
    and longitude both have a value (other than [None]), and the geometry is
    [POINT(<lon> <lat>)], longitude first; with a location that is anything
    but a mapping ([None], a string, a number, a list) there is no result:
    [AttributeError] is raised. *)
Theorem extract_location_info_geometry (obj : Dict.dict) :
  (Dict.get "locatedAt" obj = None -> extract_location_info obj = Ok []) /\
  (forall la, Dict.get "locatedAt" obj = Some (JDict la) ->
     let lat := Dict.get_or_none "lat" la in
     let lon := Dict.get_or_none "long" la in
     exists info,
       extract_location_info obj = Ok info /\
       (Dict.has "geometry" info = true <->
        is_not_none lat = true /\ is_not_none lon = true) /\
       (forall g, Dict.get "geometry" info = Some g ->
          g = JStr ("POINT(" +:+ PyFmt.str lon +:+ " " +:+ PyFmt.str lat +:+ ")"))) /\
  extract_location_info
    [("locatedAt", JDict [("lat", JFloat "10.5"); ("long", JFloat "20.5")])]
  = Ok [("geometry", JStr "POINT(20.5 10.5)")] /\
  (forall la, Dict.get "locatedAt" obj = Some la -> is_dict la = false ->
     extract_location_info obj = Fault AttributeError).
Proof.
  split; [apply extract_location_info_absent|]. split; [|split; [reflexivity|]].
  2:{ intros la Hla Hnot. apply (extract_location_info_not_mapping obj la Hla).
      intros d ->. discriminate Hnot. }
  intros la Hla lat lon. unfold extract_location_info. rewrite Hla.
  cbn [py_get mbind result_bind]. fold lat lon.
  eexists. split; [reflexivity|].
  destruct (is_not_none lat), (is_not_none lon),
    (Dict.get_or_none "locationCountry" la), (Dict.get_or_none "geoprecision" la);
    cbn; (split; [split; [intros; try discriminate; auto | intros [? ?]; try discriminate; auto]
                 | intros g Hg; try discriminate; try (injection Hg as <-; reflexivity)]).
Qed.

Lemma extract_location_info_geometry_witness :
  exists info,
    extract_location_info
      [("id", JStr "a"); ("locatedAt", JDict [("lat", JInt 1); ("long", JInt 2)])] = Ok info /\
    Dict.get "geometry" info = Some (JStr "POINT(2 1)").
Proof.
  destruct (extract_location_info_geometry
              [("id", JStr "a"); ("locatedAt", JDict [("lat", JInt 1); ("long", JInt 2)])])
    as (_ & H & _).
  destruct (H [("lat", JInt 1); ("long", JInt 2)] eq_refl) as (info & Hinfo & Hgeo & Hfmt).
  exists info. split; [exact Hinfo|].
  destruct Hgeo as [_ Hgeo]. specialize (Hgeo (conj eq_refl eq_refl)).
  unfold Dict.has in Hgeo. destruct (Dict.get "geometry" info) as [g|] eqn:E; [|discriminate].
  rewrite (Hfmt g eq_refl). reflexivity.
Defined.

(** C6, as stated, fails: a record with a location does not always have a
    result; the location of this one is [None], and [AttributeError] is
    raised. *)
Lemma extract_location_info_faults_on_null_location :
  Dict.has "locatedAt" [("locatedAt", JNull)] = true /\
  extract_location_info [("locatedAt", JNull)] = Fault AttributeError /\
  extract_location_info [("locatedAt", JStr "Paris")] = Fault AttributeError /\
  ~ (forall obj : Dict.dict,
       (Dict.has "locatedAt" obj = false -> extract_location_info obj = Ok []) /\
       (Dict.has "locatedAt" obj = true ->
          let lat := location_entry "lat" obj in
          let lon := location_entry "long" obj in
          exists info,
            extract_location_info obj = Ok info /\
            (Dict.has "geometry" info = true <->
             is_not_none lat = true /\ is_not_none lon = true) /\
            (forall g, Dict.get "geometry" info = Some g ->
               g = JStr ("POINT(" +:+ PyFmt.str lon +:+ " " +:+ PyFmt.str lat +:+ ")")))).
Proof.
  split; [reflexivity|]. split; [reflexivity|]. split; [reflexivity|].
  intros Hall. destruct (Hall [("locatedAt", JNull)]) as [_ Hwith].
  destruct (Hwith eq_refl) as (info & Hinfo & _). discriminate Hinfo.
Qed.

End Location.

Ltac bind_step := cbn [mbind result_bind mret result_ret] in *.

(** ** The recursion budget *)

Section Engine.

Variable uid : string.

Lemma for_each_refines {A B} (b1 b2 : A -> B -> result B) (l : list A) :
  (forall x acc, b1 x acc <> OutOfFuel -> b2 x acc = b1 x acc) ->
  forall acc, for_each b1 l acc <> OutOfFuel -> for_each b2 l acc = for_each b1 l acc.
Proof.
  intros Hb. induction l as [|x l IH]; intros acc H; [reflexivity|].
  cbn [for_each] in *. destruct (b1 x acc) as [acc'| |] eqn:E.
  - rewrite (Hb x acc) by (rewrite E; discriminate). rewrite E. bind_step.
    apply IH. exact H.
  - rewrite (Hb x acc) by (rewrite E; discriminate). rewrite E. reflexivity.
  - exfalso. apply H. reflexivity.
Qed.

Lemma parse_sub_refines (t1 t2 : traversal) (name key : string) :
  refines t1 t2 ->
  forall x acc, parse_sub t1 name key x acc <> OutOfFuel ->
                parse_sub t2 name key x acc = parse_sub t1 name key x acc.
Proof.
  intros Href x [props st] H. unfold parse_sub in *.
  destruct (t1 x st) as [[prop st']| |] eqn:E.
  - rewrite (Href x st) by (rewrite E; discriminate). rewrite E. reflexivity.
  - rewrite (Href x st) by (rewrite E; discriminate). rewrite E. reflexivity.
  - exfalso. apply H. reflexivity.
Qed.

Lemma parse_item_refines (t1 t2 : traversal) (name : string) :
  refines t1 t2 ->
  forall kv acc, parse_item t1 name kv acc <> OutOfFuel ->
                 parse_item t2 name kv acc = parse_item t1 name kv acc.
Proof.
  intros Href [k v] acc H. unfold parse_item in *.
  destruct (String.eqb k "id"); [reflexivity|].
  destruct v; try reflexivity.
  - apply for_each_refines; [apply parse_sub_refines; exact Href | exact H].
  - apply parse_sub_refines; assumption.
Qed.

Lemma parse_props_with_refines (t1 t2 : traversal) (name : string) (d : Dict.dict) (st : store) :
  refines t1 t2 ->
  parse_props_with t1 name d st <> OutOfFuel ->
  parse_props_with t2 name d st = parse_props_with t1 name d st.
Proof.
  intros Href H. unfold parse_props_with in *.
  apply for_each_refines; [apply parse_item_refines; exact Href | exact H].
Qed.

Lemma location_edge_refines (t1 t2 : traversal) (subj : json) (label : string)
    (target : json) (st : store) :
  refines t1 t2 ->
  location_edge t1 subj label target st <> OutOfFuel ->
  location_edge t2 subj label target st = location_edge t1 subj label target st.
Proof.
  intros Href H. unfold location_edge in *.
  destruct (is_not_none target); [|reflexivity].
  destruct (t1 target st) as [[r st']| |] eqn:E.
  - rewrite (Href target st) by (rewrite E; discriminate). rewrite E. reflexivity.
  - rewrite (Href target st) by (rewrite E; discriminate). rewrite E. reflexivity.
  - exfalso. apply H. reflexivity.
Qed.

Lemma traverse_body_refines (t1 t2 : traversal) :
  refines t1 t2 -> refines (traverse_body uid t1) (traverse_body uid t2).
Proof.
  intros Href j st H. unfold traverse_body in *.
  destruct (py_contains "id" j) as [b| |]; try reflexivity. bind_step.
  destruct (negb b); [reflexivity|].
  destruct (py_getitem "id" j) as [xid| |]; try reflexivity. bind_step.
  destruct (call_convert_id xid) as [name| |]; try reflexivity. bind_step.
  destruct j; try reflexivity.
  destruct (type_of items) as [_type janesType].
  destruct (extract_location_info items) as [loc_info| |]; try reflexivity.
  bind_step.
  destruct (parse_props_with t1 name items st) as [[props st1]| |] eqn:E.
  - rewrite (parse_props_with_refines t1 t2) by (assumption || rewrite E; discriminate).
    rewrite E. bind_step.
    match goal with
    | |- context [location_edge t2 ?s ?l ?t ?st0] =>
        destruct (location_edge t1 s l t st0) as [st4| |] eqn:E4;
        [ rewrite (location_edge_refines t1 t2 s l t st0)
            by (assumption || rewrite E4; discriminate); rewrite E4
        | rewrite (location_edge_refines t1 t2 s l t st0)
            by (assumption || rewrite E4; discriminate); rewrite E4; reflexivity
        | exfalso; apply H; reflexivity ]
    end.
    bind_step.
    destruct (location_edge t1 (JDict items) "geoprecision"
                (Dict.get_or_none "geoprecision" loc_info) st4) as [st5| |] eqn:E5.
    + rewrite (location_edge_refines t1 t2) by (assumption || rewrite E5; discriminate).
      rewrite E5. reflexivity.
    + rewrite (location_edge_refines t1 t2) by (assumption || rewrite E5; discriminate).
      rewrite E5. reflexivity.
    + exfalso. apply H. reflexivity.
  - rewrite (parse_props_with_refines t1 t2) by (assumption || rewrite E; discriminate).
    rewrite E. reflexivity.
  - exfalso. apply H. reflexivity.
Qed.

Lemma traverse_fuel_mono (n m : nat) :
  (n <= m)%nat -> refines (traverse_fuel uid n) (traverse_fuel uid m).
Proof.
  revert m. induction n as [|n IH]; intros m Hle.
  - intros j st H. exfalso. apply H. reflexivity.
  - destruct m as [|m]; [lia|]. cbn [traverse_fuel].
    apply traverse_body_refines. apply IH. lia.
Qed.

(** Nested values are less deep than what holds them. *)
Lemma depth_in_list (e : json) (l : list json) :
  In e l -> (json_depth e < json_depth (JList l))%nat.
Proof.
  cbn [json_depth]. induction l as [|x l IH]; intros Hin; [destruct Hin|].
  cbn [List.fold_right]. destruct Hin as [-> | Hin]; [lia|].
  specialize (IH Hin). lia.
Qed.

Lemma depth_in_dict (kv : string * json) (d : Dict.dict) :
  In kv d -> (json_depth (snd kv) < json_depth (JDict d))%nat.
Proof.
  cbn [json_depth]. induction d as [|x d IH]; intros Hin; [destruct Hin|].
  cbn [List.fold_right]. destruct Hin as [-> | Hin]; [lia|].
  specialize (IH Hin). lia.
Qed.

Lemma get_In (k : string) (d : Dict.dict) (v : json) :
  Dict.get k d = Some v -> exists k', In (k', v) d.
Proof.
  induction d as [|[k' v'] d IH]; [discriminate|].
  cbn [Dict.get]. destruct (String.eqb k k').
  - intros [= ->]. exists k'. left. reflexivity.
  - intros H. destruct (IH H) as [k'' Hin]. exists k''. right. exact Hin.
Qed.

Lemma depth_get (k : string) (d : Dict.dict) (v : json) :
  Dict.get k d = Some v -> (json_depth v < json_depth (JDict d))%nat.
Proof.
  intros H. destruct (get_In k d v H) as [k' Hin].
  apply (depth_in_dict (k', v) d Hin).
Qed.

Lemma get_or_none_some (k : string) (d : Dict.dict) :
  is_not_none (Dict.get_or_none k d) = true ->
  Dict.get k d = Some (Dict.get_or_none k d).
Proof.
  unfold Dict.get_or_none. destruct (Dict.get k d); [reflexivity | discriminate].
Qed.

(** The location records that [traverse] visits lie inside [subj]. *)
Lemma location_target_inside (d : Dict.dict) (loc_info : Dict.dict) (key : string) :
  extract_location_info d = Ok loc_info ->
  key = "location_country" \/ key = "geoprecision" ->
  is_not_none (Dict.get_or_none key loc_info) = true ->
  exists la key',
    Dict.get "locatedAt" d = Some (JDict la) /\
    Dict.get key' la = Some (Dict.get_or_none key loc_info).
Proof.
  intros Hext Hkey Hsome.
  destruct (Dict.get "locatedAt" d) as [la|] eqn:Hla.
  - destruct la as [| | | | | |la];
      try (unfold extract_location_info in Hext; rewrite Hla in Hext; discriminate Hext).
    destruct (extract_location_info_fields d la Hla) as (info & Hinfo & _ & Hlc & Hgp).
    rewrite Hext in Hinfo. injection Hinfo as <-.
    exists la. destruct Hkey as [-> | ->].
    + exists "locationCountry". split; [reflexivity|].
      rewrite Hlc in *. apply get_or_none_some. exact Hsome.
    + exists "geoprecision". split; [reflexivity|].
      rewrite Hgp in *. apply get_or_none_some. exact Hsome.
  - rewrite (extract_location_info_absent d Hla) in Hext. injection Hext as <-.
    destruct Hkey as [-> | ->]; discriminate Hsome.
Qed.

Lemma location_target_depth (d : Dict.dict) (loc_info : Dict.dict) (key : string) :
  extract_location_info d = Ok loc_info ->
  key = "location_country" \/ key = "geoprecision" ->
  is_not_none (Dict.get_or_none key loc_info) = true ->
  (json_depth (Dict.get_or_none key loc_info) < json_depth (JDict d))%nat.
Proof.
  intros Hext Hkey Hsome.
  destruct (location_target_inside d loc_info key Hext Hkey Hsome) as (la & key' & Hla & Hget).
  apply depth_get in Hla. apply depth_get in Hget. lia.
Qed.

Lemma for_each_covered {A B} (body : A -> B -> result B) (l : list A) :
  (forall x, In x l -> forall acc, body x acc <> OutOfFuel) ->
  forall acc, for_each body l acc <> OutOfFuel.
Proof.
  induction l as [|x l IH]; intros Hb acc; [discriminate|].
  cbn [for_each]. pose proof (Hb x (or_introl eq_refl) acc) as Hx.
  destruct (body x acc) as [acc'| |]; bind_step; [|discriminate|congruence].
  apply IH. intros y Hy. apply Hb. right. exact Hy.
Qed.

Lemma call_convert_id_answers (v : json) : call_convert_id v <> OutOfFuel.
Proof. destruct v; discriminate. Qed.

Lemma py_getitem_answers (k : string) (v : json) : py_getitem k v <> OutOfFuel.
Proof. destruct v; try discriminate. cbn. destruct (Dict.get k items); discriminate. Qed.

Lemma parse_sub_covered (n : nat) (trav : traversal) (name key : string) (x : json)
    (acc : Dict.dict * store) :
  covers n trav -> (json_depth x < n)%nat -> parse_sub trav name key x acc <> OutOfFuel.
Proof.
  intros Hc Hx. destruct acc as [props st]. unfold parse_sub.
  pose proof (Hc x st Hx) as Ht.
  destruct (trav x st) as [[prop st']| |]; bind_step; [|discriminate|congruence].
  destruct (is_not_none prop); [discriminate|].
  pose proof (py_getitem_answers "id" x).
  destruct (py_getitem "id" x) as [i| |]; bind_step; [|discriminate|congruence].
  pose proof (call_convert_id_answers i).
  destruct (call_convert_id i); bind_step; [discriminate|discriminate|congruence].
Qed.

Lemma parse_item_covered (n : nat) (trav : traversal) (name : string)
    (kv : string * json) (acc : Dict.dict * store) :
  covers n trav -> (json_depth (snd kv) < n)%nat -> parse_item trav name kv acc <> OutOfFuel.
Proof.
  intros Hc Hd. destruct kv as [k v]. unfold parse_item.
  destruct (String.eqb k "id"); [discriminate|].
  destruct v; try discriminate.
  - apply for_each_covered. intros x Hx acc'. apply (parse_sub_covered n); [exact Hc|].
    apply depth_in_list in Hx. cbn [snd] in Hd. lia.
  - apply (parse_sub_covered n); assumption.
Qed.

Lemma location_edge_covered (n : nat) (trav : traversal) (subj : json) (label : string)
    (target : json) (st : store) :
  covers n trav ->
  (is_not_none target = true -> (json_depth target < n)%nat) ->
  location_edge trav subj label target st <> OutOfFuel.
Proof.
  intros Hc Hd. unfold location_edge.
  destruct (is_not_none target); [|discriminate].
  pose proof (Hc target st (Hd eq_refl)) as Ht.
  destruct (trav target st) as [[r st']| |]; bind_step; [|discriminate|congruence].
  pose proof (py_getitem_answers "id" subj).
  destruct (py_getitem "id" subj) as [i| |]; bind_step; [|discriminate|congruence].
  pose proof (call_convert_id_answers i).
  destruct (call_convert_id i); bind_step; [|discriminate|congruence].
  pose proof (py_getitem_answers "id" target).
  destruct (py_getitem "id" target) as [i'| |]; bind_step; [|discriminate|congruence].
  pose proof (call_convert_id_answers i').
  destruct (call_convert_id i'); bind_step; [discriminate|discriminate|congruence].
Qed.

Lemma traverse_body_covered (n : nat) (trav : traversal) :
  covers n trav -> covers (S n) (traverse_body uid trav).
Proof.
  intros Hc j st Hd. unfold traverse_body.
  destruct (py_contains "id" j) as [b| |] eqn:Eb; bind_step; try discriminate;
    [|destruct j; discriminate Eb].
  destruct (negb b); [discriminate|].
  pose proof (py_getitem_answers "id" j).
  destruct (py_getitem "id" j) as [xid| |]; bind_step; [|discriminate|congruence].
  pose proof (call_convert_id_answers xid).
  destruct (call_convert_id xid) as [name| |]; bind_step; [|discriminate|congruence].
  destruct j as [| | | | | |d]; try discriminate.
  destruct (type_of d) as [_type janesType].
  destruct (extract_location_info d) as [loc_info| |] eqn:Eloc; bind_step;
    [|discriminate|].
  2:{ unfold extract_location_info in Eloc.
      destruct (Dict.get "locatedAt" d) as [[]|]; discriminate Eloc. }
  assert (Hp : parse_props_with trav name d st <> OutOfFuel).
  { apply for_each_covered. intros kv Hin acc. apply (parse_item_covered n); [exact Hc|].
    apply depth_in_dict in Hin. lia. }
  destruct (parse_props_with trav name d st) as [[props st1]| |]; bind_step;
    [|discriminate|congruence].
  match goal with
  | |- context [location_edge trav ?s ?l ?t ?st0] =>
      assert (H4 : location_edge trav s l t st0 <> OutOfFuel);
      [ apply (location_edge_covered n); [exact Hc|]; intros Hsome;
        pose proof (location_target_depth d loc_info "location_country" Eloc
                      (or_introl eq_refl) Hsome); lia
      | destruct (location_edge trav s l t st0) as [st4| |]; bind_step;
        [|discriminate|congruence] ]
  end.
  assert (H5 : location_edge trav (JDict d) "geoprecision"
                 (Dict.get_or_none "geoprecision" loc_info) st4 <> OutOfFuel).
  { apply (location_edge_covered n); [exact Hc|]. intros Hsome.
    pose proof (location_target_depth d loc_info "geoprecision" Eloc
                  (or_intror eq_refl) Hsome). lia. }
  destruct (location_edge trav (JDict d) "geoprecision"
              (Dict.get_or_none "geoprecision" loc_info) st4); bind_step;
    [discriminate|discriminate|congruence].
Qed.

Lemma traverse_fuel_enough (fuel : nat) : covers fuel (traverse_fuel uid fuel).
Proof.
  induction fuel as [|n IH]; [intros j st H; lia|].
  cbn [traverse_fuel]. apply traverse_body_covered. exact IH.
Qed.

(** [traverse] always answers: with a value or with an exception. *)
Lemma traverse_answers (j : json) (st : store) : traverse uid j st <> OutOfFuel.
Proof. apply traverse_fuel_enough. lia. Qed.

(** Any budget above the depth of the value gives the answer of [traverse]. *)
Lemma traverse_fuel_stable (fuel : nat) (j : json) (st : store) :
  (json_depth j < fuel)%nat -> traverse_fuel uid fuel j st = traverse uid j st.
Proof.
  intros H. apply traverse_fuel_mono; [lia | apply traverse_answers].
Qed.

Lemma traverse_fuel_refines_traverse (n : nat) :
  refines (traverse_fuel uid n) (traverse uid).
Proof.
  intros j st H. unfold traverse.
  destruct (le_lt_dec n (S (json_depth j))) as [Hle | Hlt].
  - apply traverse_fuel_mono; assumption.
  - symmetry. apply traverse_fuel_mono; [lia | apply traverse_answers].
Qed.

(** The recursive equation of [traverse], as the source reads. *)
Lemma traverse_unfold (j : json) (st : store) :
  traverse uid j st = traverse_body uid (traverse uid) j st.
Proof.
  symmetry. change (traverse uid j st)
    with (traverse_body uid (traverse_fuel uid (json_depth j)) j st).
  apply traverse_body_refines.
  - apply traverse_fuel_refines_traverse.
  - apply (traverse_answers j st).
Qed.

Lemma parse_props_unfold (name : string) (d : Dict.dict) (st : store) :
  parse_props uid name d st = parse_props_with (traverse uid) name d st.
Proof.
  symmetry. unfold parse_props. apply parse_props_with_refines.
  - apply traverse_fuel_refines_traverse.
  - apply for_each_covered. intros kv Hin acc.
    apply (parse_item_covered (json_depth (JDict d))); [apply traverse_fuel_enough|].
    apply depth_in_dict. exact Hin.
Qed.

(** ** Inline values and nodes *)

Lemma depth_induction (P : json -> Prop) :
  (forall j, (forall j', (json_depth j' < json_depth j)%nat -> P j') -> P j) ->
  forall j, P j.
Proof.
  intros Hstep j. remember (json_depth j) as n eqn:Hn.
  revert j Hn. induction n as [n IH] using lt_wf_ind. intros j ->.
  apply Hstep. intros j' Hlt. apply (IH (json_depth j') Hlt j' eq_refl).
Qed.

(** A value without [id] comes back as it is, and so do the accumulators. *)
Lemma traverse_inline (d : Dict.dict) (st : store) :
  Dict.has "id" d = false -> traverse uid (JDict d) st = Ok (JDict d, st).
Proof.
  intros H. rewrite traverse_unfold. unfold traverse_body.
  cbn [py_contains]. bind_step. rewrite H. reflexivity.
Qed.

(** What a visit of a record with [id] has done when it returns. *)
Lemma traverse_node_inv (d : Dict.dict) (st : store) (v : json) (st' : store) :
  Dict.has "id" d = true ->
  traverse uid (JDict d) st = Ok (v, st') ->
  exists rawId loc_info props st1 st4,
    Dict.get "id" d = Some (JStr rawId) /\
    extract_location_info d = Ok loc_info /\
    parse_props_with (traverse uid) (convert_id rawId) d st = Ok (props, st1) /\
    location_edge (traverse uid) (JDict d) "location-country"
      (Dict.get_or_none "location_country" loc_info)
      (let nm := convert_id rawId in
       let o := Object (match Dict.get "label" d with Some l => l | None => JStr nm end)
                  "military" (object_class_of (fst (type_of d))) nm (JStr rawId)
                  (snd (type_of d)) props uid None in
       let st2 := set_object nm o st1 in
       let geom := Dict.get_or_none "geometry" loc_info in
       if is_not_none geom
       then Store (alter (with_geometry geom) nm (objects st2)) (connections st2)
       else st2) = Ok st4 /\
    location_edge (traverse uid) (JDict d) "geoprecision"
      (Dict.get_or_none "geoprecision" loc_info) st4 = Ok st' /\
    v = JNull.
Proof.
  intros Hid H. rewrite traverse_unfold in H. unfold traverse_body in H.
  cbn [py_contains py_getitem] in H. bind_step. rewrite Hid in H. cbn [negb] in H.
  unfold Dict.has in Hid.
  destruct (Dict.get "id" d) as [xid|]; [|discriminate Hid]. bind_step.
  destruct xid as [| | | |rawId| |]; try discriminate H.
  cbn [call_convert_id] in H. bind_step.
  destruct (type_of d) as [_type janesType].
  destruct (extract_location_info d) as [loc_info| |] eqn:Eloc; try discriminate H. bind_step.
  destruct (parse_props_with (traverse uid) (convert_id rawId) d st) as [[props st1]| |] eqn:Ep;
    try discriminate H. bind_step.
  match type of H with
  | context [location_edge ?t ?s "location-country" ?tg ?st0] =>
      destruct (location_edge t s "location-country" tg st0) as [st4| |] eqn:E4;
      try discriminate H
  end.
  bind_step.
  destruct (location_edge (traverse uid) (JDict d) "geoprecision"
              (Dict.get_or_none "geoprecision" loc_info) st4) as [st5| |] eqn:E5;
    try discriminate H.
  bind_step. injection H as <- <-.
  exists rawId, loc_info, props, st1, st4. cbn [fst snd].
  repeat split; try reflexivity; try assumption.
Qed.

(** Every value that a visit of a record with [id] returns is [None]. *)
Lemma traverse_node_returns_none (d : Dict.dict) (st : store) (v : json) (st' : store) :
  Dict.has "id" d = true -> traverse uid (JDict d) st = Ok (v, st') -> v = JNull.
Proof.
  intros Hid H.
  destruct (traverse_node_inv d st v st' Hid H) as (? & ? & ? & ? & ? & _ & _ & _ & _ & _ & Hv).
  exact Hv.
Qed.

(** *** Well-formed records are flattened without a fault *)

Lemma well_formed_get (k : string) (d : Dict.dict) (v : json) :
  well_formed (JDict d) = true -> Dict.get k d = Some v -> well_formed v = true.
Proof.
  intros Hwf Hget. cbn [well_formed] in Hwf. apply andb_prop in Hwf as [_ Hall].
  destruct (get_In k d v Hget) as [k' Hin].
  rewrite forallb_forall in Hall. apply (Hall (k', v) Hin).
Qed.

Lemma for_each_ok {A B} (body : A -> B -> result B) (l : list A) :
  (forall x, In x l -> forall acc, exists acc', body x acc = Ok acc') ->
  forall acc, exists acc', for_each body l acc = Ok acc'.
Proof.
  induction l as [|x l IH]; intros Hb acc; [eexists; reflexivity|].
  cbn [for_each]. destruct (Hb x (or_introl eq_refl) acc) as [acc1 ->]. bind_step.
  apply IH. intros y Hy. apply Hb. right. exact Hy.
Qed.

Lemma well_formed_id (d : Dict.dict) :
  well_formed (JDict d) = true -> Dict.has "id" d = true ->
  exists rawId, Dict.get "id" d = Some (JStr rawId).
Proof.
  intros Hwf Hid. cbn [well_formed] in Hwf.
  apply andb_prop in Hwf as [Hwf _]. apply andb_prop in Hwf as [Hok _].
  unfold id_ok in Hok. unfold Dict.has in Hid.
  destruct (Dict.get "id" d) as [[]|]; try discriminate. eexists; reflexivity.
Qed.

Section Clean.

Variable bound : json.

Hypothesis below :
  forall j, (json_depth j < json_depth bound)%nat ->
    is_dict j = true -> well_formed j = true ->
    forall st, exists st', traverse uid j st = Ok (node_or_inline j, st').

Lemma parse_sub_ok (name key : string) (x : json) (acc : Dict.dict * store) :
  (json_depth x < json_depth bound)%nat -> is_dict x = true -> well_formed x = true ->
  exists acc', parse_sub (traverse uid) name key x acc = Ok acc'.
Proof.
  intros Hd Hx Hwf. destruct acc as [props st]. unfold parse_sub.
  destruct (below x Hd Hx Hwf st) as [st' ->]. bind_step.
  destruct x as [| | | | | |t]; try discriminate Hx. cbn [node_or_inline].
  destruct (Dict.has "id" t) eqn:Hid; cbn [is_not_none]; [|eexists; reflexivity].
  destruct (well_formed_id t Hwf Hid) as [rawId Hget].
  cbn [py_getitem]. rewrite Hget. bind_step. cbn [call_convert_id]. bind_step.
  eexists; reflexivity.
Qed.

Lemma parse_item_ok (name : string) (kv : string * json) (acc : Dict.dict * store) :
  (json_depth (snd kv) < json_depth bound)%nat -> well_formed (snd kv) = true ->
  exists acc', parse_item (traverse uid) name kv acc = Ok acc'.
Proof.
  intros Hd Hwf. destruct kv as [k v]. cbn [snd] in *. unfold parse_item.
  destruct (String.eqb k "id"); [eexists; reflexivity|].
  destruct v as [| | | | |l|t]; try (eexists; reflexivity).
  - apply for_each_ok. intros x Hx acc0.
    cbn [well_formed] in Hwf. rewrite forallb_forall in Hwf.
    specialize (Hwf x Hx). apply andb_prop in Hwf as [Hdict Hwfx].
    apply parse_sub_ok; [|assumption|assumption].
    apply depth_in_list in Hx. lia.
  - apply parse_sub_ok; [assumption|reflexivity|assumption].
Qed.

Lemma location_edge_ok (rawId : string) (d : Dict.dict) (label : string) (target : json)
    (st : store) :
  Dict.get "id" d = Some (JStr rawId) ->
  reference_ok target = true ->
  (is_not_none target = true ->
     well_formed target = true /\ (json_depth target < json_depth bound)%nat) ->
  exists st', location_edge (traverse uid) (JDict d) label target st = Ok st'.
Proof.
  intros Hid Href Htarget. unfold location_edge.
  destruct target as [| | | | | |t]; try discriminate Href; [eexists; reflexivity|].
  cbn [is_not_none] in *. destruct (Htarget eq_refl) as [Hwf Hd].
  destruct (below (JDict t) Hd eq_refl Hwf st) as [st' ->]. bind_step.
  cbn [py_getitem]. rewrite Hid. bind_step. cbn [call_convert_id]. bind_step.
  destruct (well_formed_id t Hwf Href) as [tid ->]. bind_step.
  eexists; reflexivity.
Qed.

End Clean.

(** The references that [extract_location_info] hands on are well formed. *)
Lemma extract_location_info_ok (d : Dict.dict) :
  well_formed (JDict d) = true ->
  exists loc_info,
    extract_location_info d = Ok loc_info /\
    forall key, key = "location_country" \/ key = "geoprecision" ->
      reference_ok (Dict.get_or_none key loc_info) = true /\
      (is_not_none (Dict.get_or_none key loc_info) = true ->
         well_formed (Dict.get_or_none key loc_info) = true /\
         (json_depth (Dict.get_or_none key loc_info) < json_depth (JDict d))%nat).
Proof.
  intros Hwf. pose proof Hwf as Hwf0. cbn [well_formed] in Hwf.
  apply andb_prop in Hwf as [Hwf _]. apply andb_prop in Hwf as [_ Hloc].
  unfold location_ok in Hloc.
  destruct (Dict.get "locatedAt" d) as [la|] eqn:Hla.
  - destruct la as [| | | | | |la]; try discriminate Hloc.
    apply andb_prop in Hloc as [Hlc Hgp].
    destruct (extract_location_info_fields d la Hla) as (info & Hinfo & _ & Elc & Egp).
    exists info. split; [exact Hinfo|]. intros key Hkey.
    assert (Hwfla : well_formed (JDict la) = true) by (apply (well_formed_get _ _ _ Hwf0 Hla)).
    split.
    + destruct Hkey as [-> | ->]; [rewrite Elc | rewrite Egp]; assumption.
    + intros Hsome. split.
      * destruct Hkey as [-> | ->]; [rewrite Elc in * | rewrite Egp in *];
          apply get_or_none_some in Hsome; apply (well_formed_get _ _ _ Hwfla Hsome).
      * apply (location_target_depth d info key Hinfo Hkey Hsome).
  - exists []. split; [apply extract_location_info_absent; exact Hla|].
    intros key [-> | ->]; (split; [reflexivity | discriminate]).
Qed.

Lemma traverse_well_formed (j : json) :
  is_dict j = true -> well_formed j = true ->
  forall st, exists st', traverse uid j st = Ok (node_or_inline j, st').
Proof.
  induction j as [j IH] using depth_induction. intros Hdict Hwf st.
  destruct j as [| | | | | |d]; try discriminate Hdict. cbn [node_or_inline].
  destruct (Dict.has "id" d) eqn:Hid.
  2:{ exists st. apply traverse_inline. exact Hid. }
  destruct (well_formed_id d Hwf Hid) as [rawId Hget].
  destruct (extract_location_info_ok d Hwf) as (loc_info & Hloc & Hrefs).
  rewrite traverse_unfold. unfold traverse_body.
  cbn [py_contains py_getitem]. bind_step. rewrite Hid, Hget. cbn [negb]. bind_step.
  cbn [call_convert_id]. bind_step.
  destruct (type_of d) as [_type janesType]. rewrite Hloc. bind_step.
  assert (Hprops : exists acc', parse_props_with (traverse uid) (convert_id rawId) d st = Ok acc').
  { apply for_each_ok. intros kv Hin acc.
    apply (parse_item_ok (JDict d) IH).
    - apply depth_in_dict. exact Hin.
    - cbn [well_formed] in Hwf. apply andb_prop in Hwf as [_ Hall].
      rewrite forallb_forall in Hall. apply Hall. exact Hin. }
  destruct Hprops as [[props st1] ->]. bind_step.
  destruct (Hrefs "location_country" (or_introl eq_refl)) as [Hr1 Ht1].
  destruct (Hrefs "geoprecision" (or_intror eq_refl)) as [Hr2 Ht2].
  match goal with
  | |- context [location_edge ?t ?s "location-country" ?tg ?st0] =>
      destruct (location_edge_ok (JDict d) IH rawId d "location-country" tg st0 Hget Hr1 Ht1)
        as [st4 ->]
  end.
  bind_step.
  destruct (location_edge_ok (JDict d) IH rawId d "geoprecision"
              (Dict.get_or_none "geoprecision" loc_info) st4 Hget Hr2 Ht2) as [st5 ->].
  bind_step. exists st5. reflexivity.
Qed.

(** C1, as the code has it: a record without [id] is returned unchanged,
    with the accumulators untouched; a record with [id] is never returned as a
    value: every value the visit returns is [None], and on a well-formed
    record the visit does return [None]. *)
Theorem traverse_inline_or_node (d : Dict.dict) (st : store) :
  (Dict.has "id" d = false -> traverse uid (JDict d) st = Ok (JDict d, st)) /\
  (Dict.has "id" d = true ->
     forall v st', traverse uid (JDict d) st = Ok (v, st') -> v = JNull) /\
  (Dict.has "id" d = true -> well_formed (JDict d) = true ->
     exists st', traverse uid (JDict d) st = Ok (JNull, st')).
Proof.
  split; [apply traverse_inline|]. split.
  - intros Hid v st'. apply traverse_node_returns_none. exact Hid.
  - intros Hid Hwf. destruct (traverse_well_formed (JDict d) eq_refl Hwf st) as [st' H].
    cbn [node_or_inline] in H. rewrite Hid in H. exists st'. exact H.
Qed.

(** ** What a visit writes *)

Lemma extends_refl (ids : list string) (st : store) : extends ids st st.
Proof. split; [reflexivity|]. exists []. symmetry. apply app_nil_r. Qed.

Lemma extends_trans (ids : list string) (st1 st2 st3 : store) :
  extends ids st1 st2 -> extends ids st2 st3 -> extends ids st1 st3.
Proof.
  intros [Ho1 [n1 Hc1]] [Ho2 [n2 Hc2]]. split.
  - intros k Hk. rewrite (Ho2 k Hk). apply Ho1. exact Hk.
  - exists (n1 ++ n2). rewrite Hc2, Hc1. symmetry. apply app_assoc.
Qed.

Lemma extends_incl (ids ids' : list string) (st st' : store) :
  (forall k, In k ids -> In k ids') -> extends ids st st' -> extends ids' st st'.
Proof.
  intros Hincl [Ho Hc]. split; [|exact Hc].
  intros k Hk. apply Ho. intros Hin. apply Hk. apply Hincl. exact Hin.
Qed.

Lemma extends_append (ids : list string) (c : connection) (st st' : store) :
  extends ids st st' -> extends ids st (append_connection c st').
Proof.
  intros [Ho [n Hc]]. split; [exact Ho|].
  exists (n ++ [c]). cbn [append_connection connections]. rewrite Hc. symmetry. apply app_assoc.
Qed.

Lemma identities_get (k : string) (d : Dict.dict) (v : json) :
  Dict.get k d = Some v -> forall x, In x (identities v) -> In x (identities (JDict d)).
Proof.
  intros Hget x Hx. destruct (get_In k d v Hget) as [k' Hin].
  cbn [identities]. apply in_or_app. right. apply in_flat_map.
  exists (k', v). split; assumption.
Qed.

Section Frame.

Variable small : json -> Prop.

Hypothesis below :
  forall j, small j -> forall st r st',
    traverse uid j st = Ok (r, st') -> extends (identities j) st st'.

Lemma for_each_extends {A} (ids : A -> list string)
    (body : A -> Dict.dict * store -> result (Dict.dict * store)) (l : list A) :
  (forall x, In x l -> forall acc acc',
     body x acc = Ok acc' -> extends (ids x) (snd acc) (snd acc')) ->
  forall acc acc', for_each body l acc = Ok acc' ->
    extends (List.flat_map ids l) (snd acc) (snd acc').
Proof.
  induction l as [|x l IH]; intros Hb acc acc' H.
  - injection H as <-. apply extends_refl.
  - cbn [for_each] in H. destruct (body x acc) as [acc1| |] eqn:E; try discriminate H.
    bind_step. cbn [List.flat_map].
    apply (extends_trans _ _ (snd acc1)).
    + apply (extends_incl (ids x)); [intros k Hk; apply in_or_app; left; exact Hk|].
      apply (Hb x (or_introl eq_refl) acc acc1 E).
    + apply (extends_incl (List.flat_map ids l));
        [intros k Hk; apply in_or_app; right; exact Hk|].
      apply IH; [|exact H]. intros y Hy. apply Hb. right. exact Hy.
Qed.

Lemma parse_sub_extends (name key : string) (x : json) (acc acc' : Dict.dict * store) :
  small x -> parse_sub (traverse uid) name key x acc = Ok acc' ->
  extends (identities x) (snd acc) (snd acc').
Proof.
  intros Hx H. destruct acc as [props st]. unfold parse_sub in H.
  destruct (traverse uid x st) as [[prop st1]| |] eqn:E; try discriminate H. bind_step.
  pose proof (below x Hx st prop st1 E) as Hext.
  destruct (is_not_none prop).
  - injection H as <-. exact Hext.
  - destruct (py_getitem "id" x) as [i| |]; try discriminate H. bind_step.
    destruct (call_convert_id i) as [o| |]; try discriminate H. bind_step.
    injection H as <-. cbn [snd]. apply extends_append. exact Hext.
Qed.

Lemma parse_item_extends (name : string) (kv : string * json) (acc acc' : Dict.dict * store) :
  small (snd kv) ->
  (forall l, snd kv = JList l -> forall x, In x l -> small x) ->
  parse_item (traverse uid) name kv acc = Ok acc' ->
  extends (identities (snd kv)) (snd acc) (snd acc').
Proof.
  intros Hs Hl H. destruct kv as [k v]. cbn [snd] in *. unfold parse_item in H.
  destruct (String.eqb k "id"); [injection H as <-; apply extends_refl|].
  destruct v as [| | | | |l|t]; try (injection H as <-; apply extends_refl).
  - cbn [identities].
    apply (for_each_extends identities (parse_sub (traverse uid) name k) l); [|exact H].
    intros x Hx acc0 acc1. apply parse_sub_extends. apply (Hl l eq_refl x Hx).
  - apply (parse_sub_extends name k _ acc acc' Hs H).
Qed.

Lemma location_edge_extends (subj : json) (label : string) (target : json) (st st' : store) :
  (is_not_none target = true -> small target) ->
  location_edge (traverse uid) subj label target st = Ok st' ->
  extends (identities target) st st'.
Proof.
  intros Hs H. unfold location_edge in H.
  destruct (is_not_none target); [|injection H as <-; apply extends_refl].
  destruct (traverse uid target st) as [[r st1]| |] eqn:E; try discriminate H. bind_step.
  pose proof (below target (Hs eq_refl) st r st1 E) as Hext.
  destruct (py_getitem "id" subj) as [i| |]; try discriminate H. bind_step.
  destruct (call_convert_id i) as [nm| |]; try discriminate H. bind_step.
  destruct (py_getitem "id" target) as [i'| |]; try discriminate H. bind_step.
  destruct (call_convert_id i') as [o| |]; try discriminate H. bind_step.
  injection H as <-. apply extends_append. exact Hext.
Qed.

End Frame.

(** A visit writes objects only under the identities of the records it
    meets, and only adds connections. *)
Lemma traverse_extends (j : json) :
  forall st r st', traverse uid j st = Ok (r, st') -> extends (identities j) st st'.
Proof.
  induction j as [j IH] using depth_induction. intros st r st' H.
  assert (Hinline : forall b, py_contains "id" j = Ok b -> b = false -> st' = st).
  { intros b Hb ->. rewrite traverse_unfold in H. unfold traverse_body in H.
    rewrite Hb in H. bind_step. cbn [negb] in H. injection H as _ <-. reflexivity. }
  assert (Hfault : forall b, py_contains "id" j = Ok b -> b = true ->
            (forall d, j <> JDict d) -> False).
  { intros b Hb -> Hnd. rewrite traverse_unfold in H. unfold traverse_body in H.
    rewrite Hb in H. bind_step. cbn [negb] in H.
    destruct j; try discriminate H. apply (Hnd _ eq_refl). }
  destruct j as [| | | |s|l|d];
    try (rewrite traverse_unfold in H; discriminate H).
  - destruct (PyStr.is_infix "id" s) eqn:E.
    + destruct (Hfault true); cbn; rewrite ?E; try reflexivity. discriminate.
    + rewrite (Hinline false); cbn; rewrite ?E; try reflexivity. apply extends_refl.
  - destruct (existsb (fun e => match e with JStr s => String.eqb s "id" | _ => false end) l) eqn:E.
    + destruct (Hfault true); cbn [py_contains]; rewrite ?E; try reflexivity. discriminate.
    + rewrite (Hinline false); cbn [py_contains]; rewrite ?E; try reflexivity.
      apply extends_refl.
  - clear Hinline Hfault. destruct (Dict.has "id" d) eqn:Hid.
    2:{ rewrite traverse_inline in H by exact Hid. injection H as _ <-. apply extends_refl. }
    destruct (traverse_node_inv d st r st' Hid H)
      as (rawId & loc_info & props & st1 & st4 & Hget & Hloc & Hprops & H4 & H5 & _).
    set (small := fun x => (json_depth x < json_depth (JDict d))%nat).
    assert (Hname : In (convert_id rawId) (identities (JDict d))).
    { cbn [identities]. rewrite Hget. left. reflexivity. }
    assert (Htarget : forall key, key = "location_country" \/ key = "geoprecision" ->
              (is_not_none (Dict.get_or_none key loc_info) = true ->
               small (Dict.get_or_none key loc_info)) /\
              (forall k, In k (identities (Dict.get_or_none key loc_info)) ->
                         In k (identities (JDict d)))).
    { intros key Hkey. split.
      - intros Hsome. apply (location_target_depth d loc_info key Hloc Hkey Hsome).
      - intros k Hk. destruct (is_not_none (Dict.get_or_none key loc_info)) eqn:Hsome.
        + destruct (location_target_inside d loc_info key Hloc Hkey Hsome)
            as (la & key' & Hla & Hin).
          apply (identities_get _ _ _ Hla). apply (identities_get _ _ _ Hin). exact Hk.
        + destruct (Dict.get_or_none key loc_info); try discriminate Hsome. destruct Hk. }
    apply (extends_trans _ _ st1).
    { apply (extends_incl (List.flat_map (fun kv => identities (snd kv)) d)).
      - intros k Hk. cbn [identities]. apply in_or_app. right. exact Hk.
      - unfold parse_props_with in Hprops.
        apply (for_each_extends (fun kv : string * json => identities (snd kv))
                 (parse_item (traverse uid) (convert_id rawId)) d) in Hprops.
        + exact Hprops.
        + intros kv Hin acc0 acc1. apply (parse_item_extends small IH).
          * apply depth_in_dict. exact Hin.
          * intros l0 Hl x Hx. unfold small. apply depth_in_dict in Hin.
            rewrite Hl in Hin. apply depth_in_list in Hx. lia. }
    apply (extends_trans _ _ st4).
    2:{ apply (extends_incl (identities (Dict.get_or_none "geoprecision" loc_info)));
          [apply (Htarget "geoprecision"); right; reflexivity|].
        apply (location_edge_extends small IH _ _ _ _ _
                 (proj1 (Htarget "geoprecision" (or_intror eq_refl))) H5). }
    match type of H4 with
    | location_edge _ _ _ _ ?st3 = _ => apply (extends_trans _ _ st3)
    end.
    2:{ apply (extends_incl (identities (Dict.get_or_none "location_country" loc_info)));
          [apply (Htarget "location_country"); left; reflexivity|].
        apply (location_edge_extends small IH _ _ _ _ _
                 (proj1 (Htarget "location_country" (or_introl eq_refl))) H4). }
    cbv zeta. split.
    + intros k Hk. assert (Hne : convert_id rawId <> k) by (intros <-; apply Hk; exact Hname).
      destruct (is_not_none (Dict.get_or_none "geometry" loc_info));
        cbn [objects set_object]; rewrite ?lookup_alter_ne by exact Hne;
        apply lookup_insert_ne; exact Hne.
    + exists []. destruct (is_not_none (Dict.get_or_none "geometry" loc_info));
        cbn [connections set_object]; symmetry; apply app_nil_r.
Qed.

Lemma location_edge_frame (subj : json) (label : string) (target : json) (st st' : store) :
  location_edge (traverse uid) subj label target st = Ok st' ->
  extends (identities target) st st'.
Proof.
  apply (location_edge_extends (fun _ => True)); [|intros _; exact I].
  intros j _. apply traverse_extends.
Qed.


(** ** Missing types *)




(** ** The edges to location records *)

Lemma location_edge_with_id (d t : Dict.dict) (rawId label : string) (st : store)
    (r : json) (st1 : store) :
  Dict.get "id" d = Some (JStr rawId) ->
  Dict.has "id" t = true ->
  traverse uid (JDict t) st = Ok (r, st1) ->
  exists tid,
    Dict.get "id" t = Some (JStr tid) /\
    location_edge (traverse uid) (JDict d) label (JDict t) st =
      Ok (append_connection (convert_id rawId, label, convert_id tid) st1).
Proof.
  intros Hd Ht H.
  destruct (traverse_node_inv t st r st1 Ht H) as (tid & ? & ? & ? & ? & Hget & _).
  exists tid. split; [exact Hget|].
  unfold location_edge. cbn [is_not_none]. rewrite H. bind_step.
  cbn [py_getitem]. rewrite Hd, Hget. reflexivity.
Qed.

Lemma location_edge_without_id (d t : Dict.dict) (rawId label : string) (st : store) :
  Dict.get "id" d = Some (JStr rawId) ->
  Dict.has "id" t = false ->
  location_edge (traverse uid) (JDict d) label (JDict t) st = Fault KeyError.
Proof.
  intros Hd Ht. unfold location_edge. cbn [is_not_none].
  rewrite (traverse_inline t st Ht). bind_step. cbn [py_getitem]. rewrite Hd. bind_step.
  cbn [call_convert_id]. bind_step.
  unfold Dict.has in Ht. destruct (Dict.get "id" t); [discriminate Ht | reflexivity].
Qed.

(** C10, as the code has it: the edge to the country or the precision record
    of a location reads the [id] of that record unguarded.  When the record
    has an [id] and its own flattening returns (as it does on a well-formed
    record), the edge from the owner to it is appended after that flattening
    and the branch raises nothing; when it has no [id], the lookup raises
    [KeyError] and the visit of the owner ends with a fault. *)
Theorem location_edge_unguarded (d t : Dict.dict) (rawId : string) (st : store) :
  Dict.get "id" d = Some (JStr rawId) ->
  (Dict.has "id" t = true ->
     forall label,
       (forall r st1, traverse uid (JDict t) st = Ok (r, st1) ->
          exists tid, Dict.get "id" t = Some (JStr tid) /\
            location_edge (traverse uid) (JDict d) label (JDict t) st =
              Ok (append_connection (convert_id rawId, label, convert_id tid) st1)) /\
       (well_formed (JDict t) = true ->
          exists tid st1, Dict.get "id" t = Some (JStr tid) /\
            traverse uid (JDict t) st = Ok (JNull, st1) /\
            location_edge (traverse uid) (JDict d) label (JDict t) st =
              Ok (append_connection (convert_id rawId, label, convert_id tid) st1))) /\
  (Dict.has "id" t = false ->
     (forall label,
        location_edge (traverse uid) (JDict d) label (JDict t) st = Fault KeyError) /\
     (forall la key,
        Dict.get "locatedAt" d = Some (JDict la) ->
        key = "locationCountry" \/ key = "geoprecision" ->
        Dict.get key la = Some (JDict t) ->
        exists e, traverse uid (JDict d) st = Fault e)) /\
  (forall la key tid v st',
     Dict.get "locatedAt" d = Some (JDict la) ->
     key = "locationCountry" \/ key = "geoprecision" ->
     Dict.get key la = Some (JDict t) ->
     Dict.get "id" t = Some (JStr tid) ->
     traverse uid (JDict d) st = Ok (v, st') ->
     In (convert_id rawId, location_key_label key, convert_id tid) (connections st')).
Proof.
  intros Hd.
  assert (Hid : Dict.has "id" d = true) by (unfold Dict.has; rewrite Hd; reflexivity).
  split; [|split].
  - intros Ht label. split.
    + intros r st1 H. apply (location_edge_with_id d t rawId label st r st1 Hd Ht H).
    + intros Hwf. destruct (traverse_well_formed (JDict t) eq_refl Hwf st) as [st1 H].
      cbn [node_or_inline] in H. rewrite Ht in H.
      destruct (location_edge_with_id d t rawId label st _ st1 Hd Ht H) as (tid & Hget & He).
      exists tid, st1. repeat split; assumption.
  - intros Ht. split; [intros label; apply (location_edge_without_id d t rawId label st Hd Ht)|].
    intros la key Hla Hkey Hin.
    destruct (traverse uid (JDict d) st) as [[v st']|e|] eqn:H;
      [exfalso | exists e; reflexivity | destruct (traverse_answers _ _ H)].
    destruct (traverse_node_inv d st v st' Hid H)
      as (rawId' & loc_info & props & st1 & st4 & Hget' & Hloc & _ & H4 & H5 & _).
    rewrite Hd in Hget'. injection Hget' as <-.
    destruct (extract_location_info_fields d la Hla) as (info & Hinfo & _ & Elc & Egp).
    rewrite Hloc in Hinfo. injection Hinfo as <-.
    unfold Dict.get_or_none in Elc at 2, Egp at 2.
    destruct Hkey as [-> | ->].
    + rewrite Hin in Elc. rewrite Elc in H4.
      rewrite (location_edge_without_id d t rawId _ _ Hd Ht) in H4. discriminate H4.
    + rewrite Hin in Egp. rewrite Egp in H5.
      rewrite (location_edge_without_id d t rawId _ _ Hd Ht) in H5. discriminate H5.
  - intros la key tid v st' Hla Hkey Hin Ht H.
    assert (Htid : Dict.has "id" t = true) by (unfold Dict.has; rewrite Ht; reflexivity).
    destruct (traverse_node_inv d st v st' Hid H)
      as (rawId' & loc_info & props & st1 & st4 & Hget' & Hloc & _ & H4 & H5 & _).
    rewrite Hd in Hget'. injection Hget' as <-.
    destruct (extract_location_info_fields d la Hla) as (info & Hinfo & _ & Elc & Egp).
    rewrite Hloc in Hinfo. injection Hinfo as <-.
    unfold Dict.get_or_none in Elc at 2, Egp at 2.
    assert (Hedge : forall label s0 s1,
              location_edge (traverse uid) (JDict d) label (JDict t) s0 = Ok s1 ->
              In (convert_id rawId, label, convert_id tid) (connections s1)).
    { intros label s0 s1 He.
      destruct (traverse uid (JDict t) s0) as [[r s01]| |] eqn:E;
        try (unfold location_edge in He; cbn [is_not_none] in He; rewrite E in He;
             discriminate He).
      destruct (location_edge_with_id d t rawId label s0 r s01 Hd Htid E) as (tid' & Ht' & He').
      rewrite Ht in Ht'. injection Ht' as <-. rewrite He' in He. injection He as <-.
      cbn [append_connection connections]. apply in_or_app. right. left. reflexivity. }
    destruct Hkey as [-> | ->].
    + rewrite Hin in Elc. rewrite Elc in H4. apply Hedge in H4.
      apply location_edge_frame in H5. destruct H5 as [_ [new ->]].
      apply in_or_app. left. exact H4.
    + rewrite Hin in Egp. rewrite Egp in H5. apply Hedge in H5. exact H5.
Qed.

End Engine.

(** ** Runs on concrete records *)

(** C1, as stated, fails: a record with [id] is not always answered with
    [None]; the visit of this one ends with [KeyError]. *)
Lemma traverse_faults_on_node_record :
  Dict.has "id" orphan_country_record = true /\
  traverse "janes" (JDict orphan_country_record) empty_store = Fault KeyError /\
  ~ (forall (uid : string) (d : Dict.dict) (st : store),
       (exists st', traverse uid (JDict d) st = Ok (JNull, st')) <->
       Dict.has "id" d = true).
Proof.
  assert (H : traverse "janes" (JDict orphan_country_record) empty_store = Fault KeyError)
    by (vm_compute; reflexivity).
  split; [reflexivity|]. split; [exact H|].
  intros Hall. destruct (Hall "janes" orphan_country_record empty_store) as [_ Hback].
  destruct (Hback eq_refl) as [st' Hst']. rewrite H in Hst'. discriminate Hst'.
Qed.

Lemma traverse_inline_or_node_witness :
  (exists st', traverse "janes" example_equipment empty_store = Ok (JNull, st')) /\
  traverse "janes" (JDict [("label", JStr "Org")]) empty_store
    = Ok (JDict [("label", JStr "Org")], empty_store).
Proof.
  split.
  - apply (proj2 (proj2 (traverse_inline_or_node "janes" _ empty_store))); reflexivity.
  - apply (proj1 (traverse_inline_or_node "janes" [("label", JStr "Org")] empty_store)).
    reflexivity.
Defined.


Lemma location_edge_unguarded_witness :
  (exists st1,
     location_edge (traverse "janes") (JDict [("id", JStr "x/a")]) "location-country"
       (JDict [("id", JStr "x/c")]) empty_store
     = Ok (append_connection (convert_id "x/a", "location-country", convert_id "x/c") st1)) /\
  location_edge (traverse "janes") (JDict [("id", JStr "x/a")]) "location-country"
    (JDict [("label", JStr "X")]) empty_store = Fault KeyError.
Proof.
  split.
  - destruct (location_edge_unguarded "janes" [("id", JStr "x/a")] [("id", JStr "x/c")]
                "x/a" empty_store eq_refl) as (Hwith & _ & _).
    destruct (proj2 (Hwith eq_refl "location-country") eq_refl) as (tid & st1 & Hget & _ & He).
    injection Hget as <-. exists st1. exact He.
  - destruct (location_edge_unguarded "janes" [("id", JStr "x/a")] [("label", JStr "X")]
                "x/a" empty_store eq_refl) as (_ & Hwithout & _).
    apply (proj1 (Hwithout eq_refl)).
Defined.


(** C10, as stated, fails: that the record named by the location has an
    [id] does not make the branch free of faults.  The precision record of
    the location of this one has no [id], so that its own flattening ends with
    [KeyError], and with it the branch and the visit of the owner. *)
Lemma location_edge_faults_on_nested_orphan :
  Dict.has "id" orphan_precision_record = true /\
  location_edge (traverse "janes") (JDict [("id", JStr "x/a")]) "location-country"
    (JDict orphan_precision_record) empty_store = Fault KeyError /\
  traverse "janes"
    (JDict [ ("id", JStr "x/a");
             ("locatedAt", JDict [ ("locationCountry", JDict orphan_precision_record) ]) ])
    empty_store = Fault KeyError /\
  ~ (forall (uid : string) (d t : Dict.dict) (rawId label : string) (st : store),
       Dict.get "id" d = Some (JStr rawId) ->
       Dict.has "id" t = true ->
       exists st', location_edge (traverse uid) (JDict d) label (JDict t) st = Ok st').
Proof.
  assert (H : location_edge (traverse "janes") (JDict [("id", JStr "x/a")])
                "location-country" (JDict orphan_precision_record) empty_store
              = Fault KeyError) by (vm_compute; reflexivity).
  split; [reflexivity|]. split; [exact H|]. split; [vm_compute; reflexivity|].
  intros Hall.
  destruct (Hall "janes" [("id", JStr "x/a")] orphan_precision_record "x/a"
              "location-country" empty_store eq_refl eq_refl) as [st' Hst'].
  rewrite H in Hst'. discriminate Hst'.
Qed.

(** C2: flattening the example record into empty accumulators gives the two
    objects of [.../Equipment/123] and [.../Organization/9] and the one
    connection from the first to the second, labelled [part-of]. *)
Theorem flatten_example_equipment (uid : string) :
  traverse uid example_equipment empty_store =
    Ok (JNull,
        Store
          (<[ id_equipment_123 :=
                Object (JStr "Tank X") "military" "Entity" id_equipment_123
                  (JStr "https://x/equipment/Equipment/123") "equipment"
                  [ ("type", JStr "https://x/ontologies/equipment/Equipment");
                    ("label", JStr "Tank X") ] uid None ]>
             (<[ id_organization_9 :=
                   Object (JStr "Org") "military" "Entity" id_organization_9
                     (JStr "https://x/organization/Organization/9") "*"
                     [ ("label", JStr "Org") ] uid None ]> ∅))
          [ (id_equipment_123, "part-of", id_organization_9) ])
  /\ id_equipment_123 = "janes-Equipment-123-78cb116d"
  /\ id_organization_9 = "janes-Organization-9-80f449e0"
  /\ (forall st', traverse uid example_equipment empty_store = Ok (JNull, st') ->
        size (objects st') = 2%nat /\
        dom (objects st') = {[ id_equipment_123; id_organization_9 ]} /\
        List.length (connections st') = 1%nat).
Proof.
  assert (H123 : id_equipment_123 = "janes-Equipment-123-78cb116d") by (vm_compute; reflexivity).
  assert (H9 : id_organization_9 = "janes-Organization-9-80f449e0") by (vm_compute; reflexivity).
  assert (Hrun : traverse uid example_equipment empty_store =
    Ok (JNull,
        Store
          (<[ id_equipment_123 :=
                Object (JStr "Tank X") "military" "Entity" id_equipment_123
                  (JStr "https://x/equipment/Equipment/123") "equipment"
                  [ ("type", JStr "https://x/ontologies/equipment/Equipment");
                    ("label", JStr "Tank X") ] uid None ]>
             (<[ id_organization_9 :=
                   Object (JStr "Org") "military" "Entity" id_organization_9
                     (JStr "https://x/organization/Organization/9") "*"
                     [ ("label", JStr "Org") ] uid None ]> ∅))
          [ (id_equipment_123, "part-of", id_organization_9) ])).
  { vm_compute. reflexivity. }
  split; [exact Hrun|]. split; [exact H123|]. split; [exact H9|].
  intros st' Hst'. rewrite Hrun in Hst'. injection Hst' as <-.
  cbn [objects connections]. rewrite H123, H9.
  split; [|split; [|reflexivity]].
  - rewrite map_size_insert_None, map_size_insert_None, map_size_empty; [reflexivity| |].
    + apply lookup_empty.
    + rewrite lookup_insert_ne by discriminate. apply lookup_empty.
  - rewrite !dom_insert_L, dom_empty_L. set_solver.
Qed.

Lemma flatten_example_equipment_witness :
  size (objects (Store (<[ id_equipment_123 :=
                Object (JStr "Tank X") "military" "Entity" id_equipment_123
                  (JStr "https://x/equipment/Equipment/123") "equipment"
                  [ ("type", JStr "https://x/ontologies/equipment/Equipment");
                    ("label", JStr "Tank X") ] "janes" None ]>
             (<[ id_organization_9 :=
                   Object (JStr "Org") "military" "Entity" id_organization_9
                     (JStr "https://x/organization/Organization/9") "*"
                     [ ("label", JStr "Org") ] "janes" None ]> ∅))
          [ (id_equipment_123, "part-of", id_organization_9) ])) = 2%nat.
Proof.
  destruct (flatten_example_equipment "janes") as (Hrun & _ & _ & Hcount).
  apply (Hcount _ Hrun).
Defined.

(** ** The assembler *)

Section Assembler.

(** The statements after [exit()] would hand over the connections that are
    no self-loops, each with the objects stored for its two ends. *)
Lemma conn_objects_filters (objs : gmap string object) (conns : list connection)
    (l : list (object * string * object)) :
  conn_objects objs conns = Ok l ->
  Forall2 (fun c t => objs !! fst (fst c) = Some (fst (fst t)) /\
                      snd (fst c) = snd (fst t) /\
                      objs !! snd c = Some (snd t))
          (List.filter (fun c => negb (is_self_loop c)) conns) l.
Proof.
  revert l. induction conns as [|[[sub predicate] obj] rest IH]; intros l H.
  - injection H as <-. constructor.
  - cbn [conn_objects] in H. cbn [List.filter].
    change (is_self_loop (sub, predicate, obj)) with (String.eqb sub obj).
    destruct (negb (String.eqb sub obj)); [|apply IH; exact H].
    destruct (objs !! sub) as [s|] eqn:Es; [|discriminate H]. bind_step.
    destruct (objs !! obj) as [o|] eqn:Eo; [|discriminate H]. bind_step.
    destruct (conn_objects objs rest) as [tl| |]; try discriminate H. bind_step.
    injection H as <-. constructor; [|apply IH; reflexivity].
    cbn [fst snd]. repeat split; assumption || reflexivity.
Qed.

(** [main] asks for nothing but the registration of the predicates. *)
Lemma main_only_registers (uid : string)
    (equip installations inventory military_groups organizations units : list json) :
  let run := main uid equip installations inventory military_groups organizations units in
  (fst run = [] /\ snd run <> Exited) \/
  (exists st,
     traverse_collections uid equip installations inventory military_groups organizations units
       = Ok st /\
     run = ([AddPredicates "JanesOntology" (unique_predicates (connections st))], Exited)).
Proof.
  unfold main, traverse_collections.
  match goal with
  | |- context [match ?t with Ok _ => _ | Fault _ => _ | OutOfFuel => _ end] =>
      destruct t as [st|e|]
  end; cbn [fst snd].
  - right. exists st. split; reflexivity.
  - left. split; [reflexivity | discriminate].
  - left. split; [reflexivity | discriminate].
Qed.

Lemma write_loop_writes (fuel i j : nat) (l : list (object * string * object)) :
  forall ev, In ev (write_loop fuel i j l) -> is_registration ev = false.
Proof.
  revert i j. induction fuel as [|fuel IH]; intros i j ev Hin; [destruct Hin|].
  cbn [write_loop] in Hin.
  destruct ((j <=? List.length l)%nat && negb (i =? j)%nat); [|destruct Hin].
  destruct Hin as [<- | Hin]; [reflexivity|]. apply (IH _ _ ev Hin).
Qed.

(** The statements after the registration register nothing. *)
Lemma persist_never_registers (st : store) :
  forall ev, In ev (fst (persist st)) -> is_registration ev = false.
Proof.
  intros ev Hin. unfold persist in Hin.
  assert (Hsaves : forall ev0,
            In ev0 (List.map (fun kv : string * object => Save (snd kv))
                      (map_to_list (objects st))) -> is_registration ev0 = false).
  { intros ev0 H0. apply in_map_iff in H0 as (kv & <- & _). reflexivity. }
  destruct (conn_objects (objects st) (connections st)) as [l| |]; cbn [fst] in Hin.
  - apply in_app_or in Hin as [Hin | Hin]; [apply Hsaves; exact Hin|].
    apply (write_loop_writes _ _ _ _ ev Hin).
  - apply Hsaves. exact Hin.
  - apply Hsaves. exact Hin.
Qed.

(** What follows [exit()] is cut off. *)
Lemma exit_cuts (rest : list event * ending) : and_then exit rest = exit.
Proof. reflexivity. Qed.

(** C8 fails on the code: the traversal keeps a self-loop in [connections],
    and the statements after [exit()] would hand over the connections that are
    no self-loops; but [main] calls [exit()] once the predicates are
    registered, so that nothing is handed over: no [AddConnections] (and no
    [Save]) is requested, whatever the input. *)
Theorem main_exits_before_persisting :
  (exists st,
     traverse "janes" self_part_record empty_store = Ok (JNull, st) /\
     connections st = [ (convert_id "x/a", "part-of", convert_id "x/a") ] /\
     List.filter is_write (fst (persist st)) = []) /\
  (exists st o1 o2,
     traverse_collections "janes" [example_equipment] [] [] [] [] [] = Ok st /\
     connections st = [ (id_equipment_123, "part-of", id_organization_9) ] /\
     List.filter (fun c => negb (is_self_loop c)) (connections st) = connections st /\
     List.filter is_write (fst (persist st)) = [AddConnections [(o1, "part-of", o2)] true] /\
     name o1 = id_equipment_123 /\ name o2 = id_organization_9) /\
  main "janes" [example_equipment] [] [] [] [] []
    = ([AddPredicates "JanesOntology" ["part-of"]], Exited) /\
  (forall uid equip installations inventory military_groups organizations units,
     forallb is_registration
       (fst (main uid equip installations inventory military_groups organizations units))
     = true).
Proof.
  split; [|split; [|split]].
  - eexists. split; [vm_compute; reflexivity|]. split; vm_compute; reflexivity.
  - eexists. eexists. eexists. split; [vm_compute; reflexivity|].
    split; [vm_compute; reflexivity|]. split; [vm_compute; reflexivity|].
    split; [vm_compute; reflexivity|]. split; vm_compute; reflexivity.
  - vm_compute. reflexivity.
  - intros uid e i v m o u.
    destruct (main_only_registers uid e i v m o u) as [[-> _] | (st & _ & ->)]; reflexivity.
Qed.

(** C9: the registered predicates are the distinct labels of the
    connections, each once, whatever the order of the connections.  Whenever
    the six loops return, [main] registers exactly the distinct labels of the
    connections they have gathered, and this is its first request: no request
    that saves an object or writes a connection comes before a registration.
    The statements that save objects and write connections come after it in
    the script (and after [exit()]), and register nothing themselves. *)
Theorem unique_predicates_registered :
  (forall conns : list connection,
     NoDup (unique_predicates conns) /\
     (forall p, In p (unique_predicates conns) <-> exists s o, In (s, p, o) conns)) /\
  (forall conns conns' : list connection,
     Permutation conns conns' -> unique_predicates conns = unique_predicates conns') /\
  (forall a b c d e f : string,
     Permutation
       (unique_predicates [ (a, "located-at", b); (c, "located-at", d); (e, "part-of", f) ])
       [ "located-at"; "part-of" ]) /\
  (forall uid equip installations inventory military_groups organizations units st,
     traverse_collections uid equip installations inventory military_groups organizations
       units = Ok st ->
     main uid equip installations inventory military_groups organizations units
     = ([AddPredicates "JanesOntology" (unique_predicates (connections st))], Exited)) /\
  (forall uid equip installations inventory military_groups organizations units pre ev post,
     fst (main uid equip installations inventory military_groups organizations units)
     = pre ++ ev :: post ->
     is_registration ev = false ->
     exists t ps, In (AddPredicates t ps) pre) /\
  (forall (st : store) (ps : list string),
     let script := and_then ([AddPredicates "JanesOntology" ps], Returned) (persist st) in
     exists rest,
       fst script = AddPredicates "JanesOntology" ps :: rest /\
       forallb (fun ev => negb (is_registration ev)) rest = true).
Proof.
  split; [|split; [|split; [|split; [|split]]]].
  - intros conns. unfold unique_predicates. split; [apply NoDup_elements|].
    intros p. rewrite <- list_elem_of_In, elem_of_elements, elem_of_list_to_set,
      list_elem_of_In, in_map_iff.
    split.
    + intros ([[s p'] o] & Hp & Hin). cbn in Hp. subst p'. exists s, o. exact Hin.
    + intros (s & o & Hin). exists (s, p, o). split; [reflexivity | exact Hin].
  - intros conns conns' Hperm. unfold unique_predicates. f_equal.
    apply list_to_set_perm_L. apply Permutation_map. exact Hperm.
  - intros a b c d e f. unfold unique_predicates. cbn [List.map fst snd].
    apply NoDup_Permutation.
    + apply NoDup_elements.
    + constructor; [|constructor; [|constructor]].
      * intros Hin. apply list_elem_of_In in Hin. destruct Hin as [H|[]]. discriminate H.
      * intros Hin. apply list_elem_of_In in Hin. destruct Hin.
    + intros x. rewrite elem_of_elements, elem_of_list_to_set.
      rewrite !list_elem_of_In. cbn [In]. tauto.
  - intros uid e i v m o u st Hst.
    destruct (main_only_registers uid e i v m o u) as [[H _] | (st0 & Hst0 & H)].
    + unfold main in H. unfold traverse_collections in Hst. rewrite Hst in H.
      discriminate H.
    + rewrite Hst in Hst0. injection Hst0 as <-. exact H.
  - intros uid e i v m o u pre ev post Hrun Hev. exfalso.
    assert (Hin : In ev (fst (main uid e i v m o u))).
    { rewrite Hrun. apply in_or_app. right. left. reflexivity. }
    destruct (main_only_registers uid e i v m o u) as [[H _] | (st0 & _ & H)].
    + rewrite H in Hin. destruct Hin.
    + rewrite H in Hin. destruct Hin as [<- | []]. discriminate Hev.
  - intros st ps script. exists (fst (persist st)). split; [reflexivity|].
    apply forallb_forall. intros ev Hin.
    rewrite (persist_never_registers st ev Hin). reflexivity.
Qed.

Lemma unique_predicates_registered_witness :
  unique_predicates [ ("a", "located-at", "b"); ("c", "part-of", "d") ]
  = unique_predicates [ ("c", "part-of", "d"); ("a", "located-at", "b") ] /\
  In "part-of" (unique_predicates [ ("a", "located-at", "b"); ("c", "part-of", "d") ]) /\
  (exists st,
     traverse_collections "janes" [example_equipment] [] [] [] [] [] = Ok st /\
     main "janes" [example_equipment] [] [] [] [] []
     = ([AddPredicates "JanesOntology" (unique_predicates (connections st))], Exited)).
Proof.
  destruct unique_predicates_registered as (Hset & Hperm & _ & Hmain & _ & _).
  split; [|split].
  - apply Hperm. apply perm_swap.
  - apply (proj2 (proj2 (Hset [ ("a", "located-at", "b"); ("c", "part-of", "d") ]) "part-of")).
    exists "c", "d". right. left. reflexivity.
  - destruct (traverse_well_formed "janes" example_equipment eq_refl eq_refl empty_store)
      as [st Hst].
    assert (Hrun : traverse_collections "janes" [example_equipment] [] [] [] [] [] = Ok st).
    { unfold traverse_collections, traverse_all. cbn [for_each]. rewrite Hst. reflexivity. }
    exists st. split; [exact Hrun|].
    apply (Hmain "janes" [example_equipment] [] [] [] [] [] st Hrun).
Defined.

End Assembler.

(** * Further properties *)

(** ** Names and type labels *)

Section Names.

Import PyStr.

Lemma char_cases (c : ascii) :
  (Ascii.eqb c (char_upper c) = true -> is_upper_letter (char_lower c) = false) /\
  (Ascii.eqb c (char_upper c) = false ->
     is_upper_letter c = false /\ is_lower_letter c = true) /\
  (Ascii.eqb c "-" = false -> Ascii.eqb "-" (char_upper c) = false) /\
  (is_lower_letter c = true ->
     Ascii.eqb c "-" = false /\ Ascii.eqb c (char_upper c) = false /\
     Ascii.eqb (char_upper c) "-" = false /\
     Ascii.eqb (char_upper c) (char_upper (char_upper c)) = true /\
     char_lower (char_upper c) = c) /\
  (is_upper_letter c = false -> char_lower c = c).
Proof.
  destruct c as [[] [] [] [] [] [] [] []]; vm_compute;
    repeat match goal with |- _ /\ _ => split end;
    intros H; try discriminate H;
    repeat match goal with |- _ /\ _ => split end; reflexivity.
Qed.

Lemma no_upper_convert_chars (s : string) (i : nat) : no_upper (convert_chars i s) = true.
Proof.
  unfold no_upper. revert i. induction s as [|c r IH]; intros i; [reflexivity|].
  cbn [convert_chars]. destruct (char_cases c) as (Hup & Hlow & _).
  destruct (Ascii.eqb c (char_upper c)).
  - destruct (0 <? i)%nat; rewrite ?app_cons, ?app_nil_l; cbn [forallb_str];
      rewrite (Hup eq_refl), IH; reflexivity.
  - cbn [forallb_str]. destruct (Hlow eq_refl) as [-> _]. rewrite IH. reflexivity.
Qed.

(** [convert_predicate_name] never leaves an uppercase letter in its result. *)
Theorem convert_predicate_name_no_upper (p : string) :
  no_upper (convert_predicate_name p) = true.
Proof. apply no_upper_convert_chars. Qed.

Lemma no_hyphen_unconvert_chars (s : string) (to_upper : bool) :
  contains_char "-" (unconvert_chars to_upper s) = false.
Proof.
  unfold contains_char. revert to_upper. induction s as [|c r IH]; intros to_upper;
    [reflexivity|].
  cbn [unconvert_chars]. destruct (Ascii.eqb c "-") eqn:E; [apply IH|].
  cbn [existsb_str]. rewrite IH, orb_false_r.
  destruct to_upper.
  - destruct (char_cases c) as (_ & _ & H & _). apply H. exact E.
  - rewrite Ascii.eqb_sym. exact E.
Qed.

(** [unconvert_predicate_name] removes every hyphen. *)
Theorem unconvert_predicate_name_no_hyphen (p : string) :
  contains_char "-" (unconvert_predicate_name p) = false.
Proof. apply no_hyphen_unconvert_chars. Qed.

Lemma convert_unconvert_inner (s : string) :
  (hyphen_tail s = true ->
   forall i, (0 < i)%nat -> convert_chars i (unconvert_chars false s) = s) /\
  (forall d r, s = String d r -> is_lower_letter d = true -> hyphen_tail r = true ->
   forall i, (0 < i)%nat -> convert_chars i (unconvert_chars true s) = String "-" s).
Proof.
  induction s as [|c r [IHfalse IHtrue]]; [split; [reflexivity | discriminate]|].
  assert (Hflag : forall d r0, String c r = String d r0 -> is_lower_letter d = true ->
            hyphen_tail r0 = true ->
            forall i, (0 < i)%nat ->
              convert_chars i (unconvert_chars true (String c r)) = String "-" (String c r)).
  { intros d r0 [= <- <-] Hd Hr i Hi.
    destruct (char_cases c) as (_ & _ & _ & Hlow & _).
    destruct (Hlow Hd) as (Hdash & _ & _ & Hupper & Hback).
    cbn [unconvert_chars]. rewrite Hdash. cbn [convert_chars]. rewrite Hupper.
    apply Nat.ltb_lt in Hi. rewrite Hi, Hback, app_cons, app_nil_l.
    rewrite (IHfalse Hr) by lia. reflexivity. }
  split; [|exact Hflag].
  intros Ht i Hi. cbn [hyphen_tail] in Ht. cbn [unconvert_chars].
  destruct (Ascii.eqb c "-") eqn:E.
  - apply Ascii.eqb_eq in E. subst c.
    destruct r as [|d r']; [discriminate Ht|].
    apply andb_prop in Ht as [Hd Hr'].
    apply (IHtrue d r' eq_refl Hd Hr' i Hi).
  - apply andb_prop in Ht as [Hc Hr].
    destruct (char_cases c) as (_ & _ & _ & Hlow & _).
    destruct (Hlow Hc) as (_ & Hne & _).
    cbn [convert_chars]. rewrite Hne. f_equal. apply IHfalse; [exact Hr | lia].
Qed.

(** On a hyphenated name [convert_predicate_name] undoes
    [unconvert_predicate_name]. *)
Theorem convert_unconvert_roundtrip (s : string) :
  hyphen_name s = true ->
  convert_predicate_name (unconvert_predicate_name s) = s.
Proof.
  destruct s as [|c r]; [reflexivity|]. intros H. cbn [hyphen_name] in H.
  apply andb_prop in H as [Hc Hr].
  destruct (char_cases c) as (_ & _ & _ & Hlow & _).
  destruct (Hlow Hc) as (Hdash & Hne & _).
  unfold convert_predicate_name, unconvert_predicate_name.
  cbn [unconvert_chars]. rewrite Hdash. cbn [convert_chars]. rewrite Hne. f_equal.
  apply (proj1 (convert_unconvert_inner r) Hr). lia.
Qed.

Lemma convert_unconvert_roundtrip_witness :
  convert_predicate_name (unconvert_predicate_name "located-at") = "located-at".
Proof. apply (convert_unconvert_roundtrip "located-at"). reflexivity. Defined.

Lemma lower_no_upper (s : string) : no_upper s = true -> lower s = s.
Proof.
  unfold no_upper. induction s as [|c r IH]; intros H; [reflexivity|].
  cbn [forallb_str] in H. apply andb_prop in H as [Hc Hr].
  cbn [lower]. rewrite (IH Hr).
  destruct (char_cases c) as (_ & _ & _ & _ & Hlow).
  rewrite Hlow; [reflexivity|]. destruct (is_upper_letter c); [discriminate Hc | reflexivity].
Qed.

Lemma ascii_only_drop (n : nat) (s : string) :
  ascii_only s = true -> ascii_only (drop_str n s) = true.
Proof.
  unfold ascii_only. revert s. induction n as [|n IH]; intros s H; [destruct s; exact H|].
  destruct s as [|c r]; [exact H|]. cbn [drop_str]. apply IH.
  cbn [forallb_str] in H. apply andb_prop in H as [_ H]. exact H.
Qed.

Lemma ascii_only_char_lower (c : ascii) :
  match c with Ascii _ _ _ _ _ _ _ b7 => negb b7 end = true ->
  match char_lower c with Ascii _ _ _ _ _ _ _ b7 => negb b7 end = true.
Proof.
  destruct c as [[] [] [] [] [] [] [] []]; intros H; try discriminate H; reflexivity.
Qed.

Lemma ascii_only_convert_chars (s : string) (i : nat) :
  ascii_only s = true -> ascii_only (convert_chars i s) = true.
Proof.
  unfold ascii_only. revert i. induction s as [|c r IH]; intros i H; [reflexivity|].
  cbn [forallb_str] in H. apply andb_prop in H as [Hc Hr].
  cbn [convert_chars]. destruct (Ascii.eqb c (char_upper c)).
  - destruct (0 <? i)%nat; rewrite ?app_cons, ?app_nil_l; cbn [forallb_str];
      rewrite (ascii_only_char_lower c Hc), (IH _ Hr); reflexivity.
  - cbn [forallb_str]. rewrite Hc, (IH _ Hr). reflexivity.
Qed.

(** On a type URI of ASCII characters the type label is the normalised
    final segment of the URI: the closing [lower()] of [convert_type] changes
    nothing there, and the label has no uppercase letter.  (Beyond ASCII
    [str.lower] maps characters that [convert_predicate_name] leaves as they
    are.) *)
Theorem convert_type_final_segment (id : string) :
  ascii_only id = true ->
  convert_type id = convert_predicate_name (local_id id) /\
  no_upper (convert_type id) = true /\
  ascii_only (convert_type id) = true.
Proof.
  intros Hascii.
  assert (Hname : forall p, no_upper (convert_predicate_name p) = true).
  { intros p. apply no_upper_convert_chars. }
  unfold convert_type. rewrite os_path_split_spec.
  rewrite (lower_no_upper _ (Hname (local_id id))).
  split; [reflexivity|]. split; [apply Hname|].
  apply ascii_only_convert_chars. rewrite <- drop_cut_local_id.
  apply ascii_only_drop. exact Hascii.
Qed.

End Names.

Lemma convert_type_final_segment_witness :
  convert_type "https://data.janes.com/ontologies/equipment/EquipmentFamily"
  = "equipment-family".
Proof.
  destruct (convert_type_final_segment
              "https://data.janes.com/ontologies/equipment/EquipmentFamily" eq_refl)
    as (H & _ & _).
  rewrite H. reflexivity.
Defined.

(** ** Locations and classes *)

Section LocationsAndClasses.

(** The result of [extract_location_info] has no other keys than
    [geometry], [location_country] and [geoprecision] and holds no [None];
    the two references are those of the location, handed on as they are. *)
Theorem extract_location_info_entries (obj info : Dict.dict) :
  extract_location_info obj = Ok info ->
  (forall k v, In (k, v) info ->
     In k ["geometry"; "location_country"; "geoprecision"] /\ is_not_none v = true) /\
  (forall la, Dict.get "locatedAt" obj = Some (JDict la) ->
     Dict.get_or_none "location_country" info = Dict.get_or_none "locationCountry" la /\
     Dict.get_or_none "geoprecision" info = Dict.get_or_none "geoprecision" la).
Proof.
  intros H. split.
  - intros k v Hin. unfold extract_location_info in H.
    destruct (Dict.get "locatedAt" obj) as [la|]; [|injection H as <-; destruct Hin].
    destruct la as [| | | | | |la]; try discriminate H.
    cbn [py_get mbind result_bind] in H.
    match type of H with Ok ?x = _ => remember x as res eqn:Hres end.
    injection H as ->. rewrite Hres in Hin.
    apply filter_In in Hin as [Hin Hv]. split; [|exact Hv].
    cbn [In] in *. destruct Hin as [[= <- _] | [[= <- _] | [[= <- _] | []]]]; tauto.
  - intros la Hla.
    destruct (extract_location_info_fields obj la Hla) as (info' & Hinfo & _ & Hlc & Hgp).
    rewrite H in Hinfo. injection Hinfo as <-. split; assumption.
Qed.

Lemma extract_location_info_entries_witness :
  Dict.get_or_none "location_country"
    [("location_country", JDict [("id", JStr "x/c")])]
  = JDict [("id", JStr "x/c")].
Proof.
  destruct (extract_location_info_entries
              [("locatedAt", JDict [("locationCountry", JDict [("id", JStr "x/c")])])]
              [("location_country", JDict [("id", JStr "x/c")])] eq_refl) as [_ H].
  apply (proj1 (H _ eq_refl)).
Defined.

(** A [locatedAt] that holds anything but a mapping (a string, a number, a
    list, [None]) makes [extract_location_info] raise [AttributeError], and
    with it the visit of a record that has an [id]. *)
Theorem location_must_be_mapping (uid : string) (d : Dict.dict) (la : json) (st : store) :
  Dict.get "locatedAt" d = Some la ->
  is_dict la = false ->
  extract_location_info d = Fault AttributeError /\
  (forall rawId, Dict.get "id" d = Some (JStr rawId) ->
     traverse uid (JDict d) st = Fault AttributeError).
Proof.
  intros Hla Hnd.
  assert (Hext : extract_location_info d = Fault AttributeError).
  { apply (extract_location_info_not_mapping d la Hla). intros d' ->. discriminate Hnd. }
  split; [exact Hext|]. intros rawId Hid.
  rewrite traverse_unfold. unfold traverse_body. cbn [py_contains py_getitem].
  unfold Dict.has. rewrite Hid. bind_step. cbn [negb call_convert_id]. bind_step.
  destruct (type_of d). rewrite Hext. reflexivity.
Qed.

Lemma location_must_be_mapping_witness :
  traverse "janes" (JDict [("id", JStr "x/a"); ("locatedAt", JStr "Paris")]) empty_store
  = Fault AttributeError.
Proof.
  apply (proj2 (location_must_be_mapping "janes"
                  [("id", JStr "x/a"); ("locatedAt", JStr "Paris")]
                  (JStr "Paris") empty_store eq_refl eq_refl) "x/a" eq_refl).
Defined.

Lemma fold_insert_lookup (l : list (string * string)) (m : gmap string string)
    (k v : string) :
  List.fold_left (fun m kv => <[fst kv := snd kv]> m) l m !! k = Some v ->
  In (k, v) l \/ m !! k = Some v.
Proof.
  revert m. induction l as [|[k' v'] l IH]; intros m H; [right; exact H|].
  cbn [List.fold_left fst snd] in H. destruct (IH _ H) as [Hin | Hm].
  - left. right. exact Hin.
  - apply lookup_insert_Some in Hm as [[-> ->] | [_ Hm]].
    + left. left. reflexivity.
    + right. exact Hm.
Qed.

Lemma object_class_table :
  (forall t, In (object_class_of t) roles) /\
  (forall k v, In (k, v) type_class_items -> object_class_of k = v).
Proof.
  assert (Hitems : Forall (fun kv => object_class_of (fst kv) = snd kv /\ In (snd kv) roles)
                     type_class_items).
  { unfold type_class_items.
    repeat (apply List.Forall_cons;
            [split; [vm_compute; reflexivity | unfold roles; cbn [In snd]; tauto]|]).
    apply List.Forall_nil. }
  rewrite Forall_forall in Hitems. split.
  - intros t. unfold object_class_of.
    destruct (type_class_map !! t) as [c|] eqn:E; [|left; reflexivity].
    apply fold_insert_lookup in E as [Hin | Hempty]; [|rewrite lookup_empty in Hempty; discriminate].
    apply list_elem_of_In in Hin. apply (Hitems (t, c) Hin).
  - intros k v Hin. apply list_elem_of_In in Hin. apply (Hitems (k, v) Hin).
Qed.

(** The class of an object is always one of [Entity], [Property] and
    [Concept], and each URI of the table gets the class written beside it
    (the URI listed twice has the same class both times). *)
Theorem object_class_of_roles :
  (forall t, In (object_class_of t) roles) /\
  (forall k v, In (k, v) type_class_items -> object_class_of k = v).
Proof. exact object_class_table. Qed.

End LocationsAndClasses.

(** ** Writing the connections *)

Section Writing.

Lemma write_loop_batches (l : list (object * string * object)) (fuel : nat) :
  forall i,
    (i <= List.length l)%nat -> (List.length l - i < fuel)%nat ->
    let evs := write_loop fuel i (Nat.min (i + 100) (List.length l)) l in
    batches evs = List.skipn i l /\
    Forall (fun ev => exists b, ev = AddConnections b true /\
                        (1 <= List.length b <= 100)%nat) evs /\
    List.length evs = ((List.length l - i + 99) / 100)%nat.
Proof.
  induction fuel as [|fuel IH]; intros i Hi Hfuel; [lia|].
  cbn zeta. cbn [write_loop].
  remember (Nat.min (i + 100) (List.length l)) as j eqn:Ej.
  assert (Hj : (j <= List.length l)%nat) by lia.
  apply Nat.leb_le in Hj as Hjb. rewrite Hjb. cbn [andb].
  destruct (Nat.eqb_spec i j) as [Heq | Hne]; cbn [negb].
  - assert (Hlen : i = List.length l) by lia. rewrite Hlen.
    rewrite List.skipn_all. replace (List.length l - List.length l + 99)%nat with 99%nat by lia.
    split; [reflexivity|]. split; [constructor | reflexivity].
  - assert (Hlt : (i < j)%nat) by lia.
    destruct (IH j Hj ltac:(lia)) as (Hb & Hall & Hlen). cbn zeta in Hb, Hall, Hlen.
    split; [|split].
    + cbn [batches List.flat_map].
      fold (batches (write_loop fuel j (Nat.min (j + 100) (List.length l)) l)).
      rewrite Hb. replace (List.skipn j l) with (List.skipn (j - i) (List.skipn i l)).
      * apply List.firstn_skipn.
      * rewrite List.skipn_skipn. f_equal. lia.
    + constructor; [|exact Hall]. eexists. split; [reflexivity|].
      rewrite List.length_firstn, List.length_skipn. lia.
    + cbn [List.length]. rewrite Hlen.
      destruct (Nat.le_gt_cases (i + 100) (List.length l)) as [Hfull | Hlast].
      * assert (Hj' : j = (i + 100)%nat) by lia. rewrite Hj'.
        replace (List.length l - i + 99)%nat
          with (1 * 100 + (List.length l - (i + 100) + 99))%nat by lia.
        rewrite Nat.div_add_l by discriminate. lia.
      * assert (Hj' : j = List.length l) by lia. rewrite Hj'.
        replace (List.length l - List.length l + 99)%nat with 99%nat by lia.
        change (99 / 100)%nat with 0%nat.
        apply (Nat.div_unique _ 100 1 (List.length l - i - 1)); lia.
Qed.

(** [write_connections] hands over every connection once and in order, in
    batches of 1 to 100 connections ([len/100] rounded up of them): none at
    all for an empty list. *)
Theorem write_connections_batches (l : list (object * string * object)) :
  batches (write_connections l) = l /\
  Forall (fun ev => exists b, ev = AddConnections b true /\
                      (1 <= List.length b <= 100)%nat) (write_connections l) /\
  List.length (write_connections l) = ((List.length l + 99) / 100)%nat.
Proof.
  unfold write_connections.
  destruct (write_loop_batches l (S (List.length l)) 0 ltac:(lia) ltac:(lia))
    as (Hb & Hall & Hlen).
  cbn zeta in Hb, Hall, Hlen. rewrite Nat.sub_0_r in Hlen.
  split; [exact Hb|]. split; [exact Hall | exact Hlen].
Qed.

End Writing.

(** ** Values that are no records, and the budget of the recursion *)

Section Values.

Variable uid : string.

Lemma py_contains_list (l : list json) :
  py_contains "id" (JList l) = Ok (existsb is_id_string l).
Proof. reflexivity. Qed.

Lemma traverse_inline_value (v : json) (st : store) :
  inline_value v = true -> traverse uid v st = Ok (v, st).
Proof.
  intros H. rewrite traverse_unfold. unfold traverse_body.
  destruct v as [| | | |s|l|d]; try discriminate H; cbn [inline_value] in H.
  - cbn [py_contains]. bind_step. rewrite H. reflexivity.
  - rewrite py_contains_list. bind_step. rewrite H. reflexivity.
  - cbn [py_contains]. bind_step. rewrite H. reflexivity.
Qed.

Lemma traverse_rejected_value (v : json) (st : store) :
  rejected_value v = true -> traverse uid v st = Fault TypeError.
Proof.
  intros H. rewrite traverse_unfold. unfold traverse_body.
  destruct v as [| | | |s|l|d]; try discriminate H; try reflexivity;
    cbn [rejected_value] in H.
  - cbn [py_contains]. bind_step. rewrite H. reflexivity.
  - rewrite py_contains_list. bind_step. rewrite H. reflexivity.
Qed.

(** What [traverse] does with a value that is not a record: [None], a
    boolean or a number raises [TypeError]; a string is returned as it is
    unless [id] occurs in it, and then [TypeError] is raised; a list is
    returned as it is unless the string [id] is one of its elements. *)
Theorem traverse_non_record (v : json) (st : store) :
  is_dict v = false ->
  traverse uid v st = if rejected_value v then Fault TypeError else Ok (v, st).
Proof.
  intros Hnd. destruct (rejected_value v) eqn:E.
  - apply traverse_rejected_value. exact E.
  - apply traverse_inline_value.
    destruct v; try discriminate E; try discriminate Hnd; cbn in *; rewrite E; reflexivity.
Qed.

(** The value that a visit returns tells an inline value from a node. *)
Lemma traverse_result_kind (e : json) (st : store) (r : json) (st' : store) :
  traverse uid e st = Ok (r, st') -> r = if inline_value e then e else JNull.
Proof.
  intros H. destruct (inline_value e) eqn:E.
  - rewrite (traverse_inline_value e st E) in H. injection H as <- _. reflexivity.
  - destruct e as [| | | |s|l|d];
      try (rewrite traverse_rejected_value in H by reflexivity; discriminate H).
    + rewrite traverse_rejected_value in H; [discriminate H|].
      cbn in *. destruct (PyStr.is_infix "id" s); [reflexivity | discriminate E].
    + rewrite traverse_rejected_value in H; [discriminate H|].
      cbn in *. destruct (existsb is_id_string l); [reflexivity | discriminate E].
    + cbn in E. apply (traverse_node_returns_none uid d st r st'); [|exact H].
      destruct (Dict.has "id" d); [reflexivity | discriminate E].
Qed.

Lemma for_each_split {A B} (body : A -> B -> result B) (l : list A) (x : A) :
  In x l -> forall acc acc', for_each body l acc = Ok acc' ->
  exists l1 l2 a a',
    l = l1 ++ x :: l2 /\ for_each body l1 acc = Ok a /\
    body x a = Ok a' /\ for_each body l2 a' = Ok acc'.
Proof.
  induction l as [|y l IH]; intros Hin acc acc' H; [destruct Hin|].
  cbn [for_each] in H. destruct (body y acc) as [acc1| |] eqn:E; try discriminate H.
  bind_step. destruct Hin as [-> | Hin].
  - exists [], l, acc, acc1. repeat split; assumption || reflexivity.
  - destruct (IH Hin acc1 acc' H) as (l1 & l2 & a & a' & -> & H1 & Hx & H2).
    exists (y :: l1), l2, a, a'. split; [reflexivity|]. split; [|split; assumption].
    cbn [for_each]. rewrite E. exact H1.
Qed.

(** A list with an element that [traverse] rejects cannot be flattened: the
    visit of a record with [id] that has such a list under a key other than
    [id] ends with a fault. *)
Theorem traverse_rejects_list_element (d : Dict.dict) (k : string) (l : list json)
    (e : json) (st : store) :
  Dict.has "id" d = true ->
  In (k, JList l) d -> k <> "id" ->
  In e l -> rejected_value e = true ->
  exists ex, traverse uid (JDict d) st = Fault ex.
Proof.
  intros Hid Hitem Hk He Hrej.
  destruct (traverse uid (JDict d) st) as [[v st']|ex|] eqn:H;
    [exfalso | exists ex; reflexivity | destruct (traverse_answers _ _ _ H)].
  destruct (traverse_node_inv uid d st v st' Hid H)
    as (rawId & loc_info & props & st1 & st4 & _ & _ & Hprops & _).
  unfold parse_props_with in Hprops.
  destruct (for_each_split _ d (k, JList l) Hitem _ _ Hprops)
    as (_ & _ & a & a' & _ & _ & Hbody & _).
  unfold parse_item in Hbody. apply String.eqb_neq in Hk. rewrite Hk in Hbody.
  destruct (for_each_split _ l e He _ _ Hbody) as (_ & _ & [p0 s0] & b' & _ & _ & Hsub & _).
  unfold parse_sub in Hsub. rewrite (traverse_rejected_value e s0 Hrej) in Hsub.
  discriminate Hsub.
Qed.

(** The recursion of [traverse] ends on every value: a budget of one call
    more than the depth of nesting is never used up, and any larger budget
    gives the same answer. *)
Theorem traverse_recursion_bounded (j : json) (st : store) (fuel : nat) :
  (json_depth j < fuel)%nat ->
  traverse_fuel uid fuel j st = traverse uid j st /\
  traverse_fuel uid fuel j st <> OutOfFuel.
Proof.
  intros H. rewrite (traverse_fuel_stable uid fuel j st H).
  split; [reflexivity | apply traverse_answers].
Qed.

End Values.

Lemma traverse_non_record_witness :
  traverse "janes" (JStr "Madrid") empty_store = Fault TypeError.
Proof. apply (traverse_non_record "janes" (JStr "Madrid") empty_store eq_refl). Defined.

Lemma traverse_rejects_list_element_witness :
  exists ex,
    traverse "janes" (JDict [("id", JStr "x/a"); ("sizes", JList [JInt 1; JInt 2])])
      empty_store = Fault ex.
Proof.
  apply (traverse_rejects_list_element "janes"
           [("id", JStr "x/a"); ("sizes", JList [JInt 1; JInt 2])]
           "sizes" [JInt 1; JInt 2] (JInt 1) empty_store eq_refl).
  - right. left. reflexivity.
  - discriminate.
  - left. reflexivity.
  - reflexivity.
Defined.

Lemma traverse_recursion_bounded_witness :
  traverse_fuel "janes" 7 example_equipment empty_store
  = traverse "janes" example_equipment empty_store.
Proof.
  apply (traverse_recursion_bounded "janes" example_equipment empty_store 7).
  cbn. lia.
Defined.


(** ** The properties of a record *)

Section Properties.

Variable uid : string.

Lemma get_set_eq (k : string) (v : json) (p : Dict.dict) :
  Dict.get k (Dict.set k v p) = Some v.
Proof.
  induction p as [|[k' v'] p IH]; cbn [Dict.set Dict.get].
  - rewrite String.eqb_refl. reflexivity.
  - destruct (String.eqb k k') eqn:E; cbn [Dict.get]; rewrite E; [reflexivity | exact IH].
Qed.

Lemma get_set_ne (k k' : string) (v : json) (p : Dict.dict) :
  k <> k' -> Dict.get k (Dict.set k' v p) = Dict.get k p.
Proof.
  intros Hne. apply String.eqb_neq in Hne.
  induction p as [|[k0 v0] p IH]; cbn [Dict.set Dict.get].
  - rewrite Hne. reflexivity.
  - destruct (String.eqb k' k0) eqn:E; cbn [Dict.get].
    + apply String.eqb_eq in E. subst k0. rewrite Hne. reflexivity.
    + rewrite IH. reflexivity.
Qed.

(** One nested value changes the properties under its own key only. *)
Lemma parse_sub_other (trav : traversal) (name key : string) (x : json)
    (acc acc' : Dict.dict * store) (k : string) :
  parse_sub trav name key x acc = Ok acc' -> k <> key ->
  Dict.get k (fst acc') = Dict.get k (fst acc).
Proof.
  intros H Hk. destruct acc as [p st]. unfold parse_sub in H.
  destruct (trav x st) as [[prop st1]| |]; try discriminate H. bind_step.
  destruct (is_not_none prop).
  - injection H as <-. cbn [fst]. apply get_set_ne. exact Hk.
  - destruct (py_getitem "id" x) as [i| |]; try discriminate H. bind_step.
    destruct (call_convert_id i) as [o| |]; try discriminate H. bind_step.
    injection H as <-. reflexivity.
Qed.

Lemma for_each_sub_other (trav : traversal) (name key : string) (l : list json) (k : string) :
  k <> key -> forall acc acc',
  for_each (parse_sub trav name key) l acc = Ok acc' ->
  Dict.get k (fst acc') = Dict.get k (fst acc).
Proof.
  intros Hk. induction l as [|x l IH]; intros acc acc' H.
  - injection H as <-. reflexivity.
  - cbn [for_each] in H.
    destruct (parse_sub trav name key x acc) as [acc1| |] eqn:E; try discriminate H.
    bind_step. rewrite (IH _ _ H). apply (parse_sub_other _ _ _ _ _ _ _ E Hk).
Qed.

Lemma parse_item_other (trav : traversal) (name : string) (kv : string * json)
    (acc acc' : Dict.dict * store) (k : string) :
  parse_item trav name kv acc = Ok acc' -> k <> fst kv \/ fst kv = "id" ->
  Dict.get k (fst acc') = Dict.get k (fst acc).
Proof.
  intros H Hk. destruct kv as [key v]. cbn [fst] in Hk. unfold parse_item in H.
  destruct (String.eqb key "id") eqn:E.
  - injection H as <-. reflexivity.
  - destruct Hk as [Hk | Hk]; [|apply String.eqb_neq in E; contradiction].
    destruct v as [| | | | |l|t];
      try (injection H as <-; cbn [fst]; apply get_set_ne; exact Hk).
    + apply (for_each_sub_other _ _ _ _ _ Hk _ _ H).
    + apply (parse_sub_other _ _ _ _ _ _ _ H Hk).
Qed.

Lemma parse_items_other (trav : traversal) (name : string) (d : Dict.dict) (k : string) :
  ~ In k (List.map fst d) \/ k = "id" -> forall acc acc',
  for_each (parse_item trav name) d acc = Ok acc' ->
  Dict.get k (fst acc') = Dict.get k (fst acc).
Proof.
  induction d as [|kv d IH]; intros Hk acc acc' H.
  - injection H as <-. reflexivity.
  - cbn [for_each] in H.
    destruct (parse_item trav name kv acc) as [acc1| |] eqn:E; try discriminate H.
    bind_step. rewrite (IH ltac:(cbn [List.map In] in Hk; tauto) _ _ H).
    apply (parse_item_other _ _ _ _ _ _ E).
    destruct Hk as [Hk | ->].
    + left. intros ->. apply Hk. left. reflexivity.
    + destruct (String.eqb_spec (fst kv) "id"); [right; assumption | left; congruence].
Qed.

(** The properties of a record never have the key [id], and their keys are
    keys of the record. *)
Theorem parse_props_keys (name : string) (d : Dict.dict) (st : store)
    (props : Dict.dict) (st' : store) :
  parse_props uid name d st = Ok (props, st') ->
  Dict.get "id" props = None /\
  (forall k, Dict.has k props = true -> In k (List.map fst d)).
Proof.
  intros H. rewrite parse_props_unfold in H. unfold parse_props_with in H. split.
  - apply (parse_items_other _ _ _ "id" (or_intror eq_refl) _ _ H).
  - intros k Hk. destruct (in_dec string_dec k (List.map fst d)) as [Hin | Hnot];
      [exact Hin | exfalso].
    pose proof (parse_items_other _ _ _ k (or_introl Hnot) _ _ H) as Hget.
    cbn [fst] in Hget. unfold Dict.has in Hk. rewrite Hget in Hk. discriminate Hk.
Qed.

Lemma parse_sub_props (name key : string) (e : json) (p : Dict.dict) (st : store)
    (acc' : Dict.dict * store) :
  parse_sub (traverse uid) name key e (p, st) = Ok acc' ->
  fst acc' = if inline_value e then Dict.set key e p else p.
Proof.
  intros H. unfold parse_sub in H.
  destruct (traverse uid e st) as [[prop st1]| |] eqn:E; try discriminate H. bind_step.
  apply traverse_result_kind in E. subst prop.
  destruct (inline_value e) eqn:Ei.
  - assert (Hnn : is_not_none e = true) by (destruct e; try discriminate Ei; reflexivity).
    rewrite Hnn in H. injection H as <-. reflexivity.
  - cbn [is_not_none] in H.
    destruct (py_getitem "id" e) as [i| |]; try discriminate H. bind_step.
    destruct (call_convert_id i) as [o| |]; try discriminate H. bind_step.
    injection H as <-. reflexivity.
Qed.

Lemma for_each_sub_props (name key : string) (l : list json) :
  forall p st acc',
  for_each (parse_sub (traverse uid) name key) l (p, st) = Ok acc' ->
  Dict.get key (fst acc') = last_inline l (Dict.get key p).
Proof.
  induction l as [|e l IH]; intros p st acc' H.
  - injection H as <-. reflexivity.
  - cbn [for_each] in H.
    destruct (parse_sub (traverse uid) name key e (p, st)) as [[p1 st1]| |] eqn:E;
      try discriminate H.
    bind_step. rewrite (IH _ _ _ H). cbn [last_inline List.fold_left].
    apply parse_sub_props in E. cbn [fst] in E. subst p1.
    destruct (inline_value e); [rewrite get_set_eq|]; reflexivity.
Qed.

Lemma parse_item_props (name key : string) (v : json) (p : Dict.dict) (st : store)
    (acc' : Dict.dict * store) :
  key <> "id" ->
  parse_item (traverse uid) name (key, v) (p, st) = Ok acc' ->
  Dict.get key (fst acc') = property_of v (Dict.get key p).
Proof.
  intros Hk H. unfold parse_item in H. apply String.eqb_neq in Hk. rewrite Hk in H.
  destruct v as [| | | | |l|t];
    try (injection H as <-; cbn [fst property_of]; apply get_set_eq).
  - apply (for_each_sub_props _ _ _ _ _ _ H).
  - apply parse_sub_props in H. rewrite H. cbn [property_of inline_value].
    destruct (Dict.has "id" t); cbn [negb]; [reflexivity | apply get_set_eq].
Qed.

Lemma parse_items_props (name : string) (d : Dict.dict) (k : string) (v : json) :
  List.NoDup (List.map fst d) -> In (k, v) d -> k <> "id" ->
  forall p st acc',
  for_each (parse_item (traverse uid) name) d (p, st) = Ok acc' ->
  Dict.get k (fst acc') = property_of v (Dict.get k p).
Proof.
  induction d as [|[k0 v0] d IH]; intros Hnd Hin Hk p st acc' H; [destruct Hin|].
  cbn [for_each] in H.
  destruct (parse_item (traverse uid) name (k0, v0) (p, st)) as [[p1 st1]| |] eqn:E;
    try discriminate H.
  bind_step. cbn [List.map fst] in Hnd. inversion Hnd as [|? ? Hnotin Hnd']; subst.
  destruct Hin as [[= -> ->] | Hin].
  - rewrite (parse_items_other _ _ _ k (or_introl Hnotin) _ _ H). cbn [fst].
    apply (parse_item_props _ _ _ _ _ _ Hk E).
  - rewrite (IH Hnd' Hin Hk _ _ _ H). f_equal.
    apply (parse_item_other _ _ _ _ _ k E). left. cbn [fst]. intros ->.
    apply Hnotin. apply (in_map fst d (k0, v) Hin).
Qed.

(** The value that the properties hold under a key of the record (the keys
    being distinct, as in a Python dictionary): a scalar as it is; a nested
    record without [id] as it is; nothing for a nested record with [id]; for a
    list, its last inline element only, and nothing if it has none. *)
Theorem parse_props_values (name : string) (d : Dict.dict) (st : store)
    (props : Dict.dict) (st' : store) (k : string) (v : json) :
  List.NoDup (List.map fst d) ->
  parse_props uid name d st = Ok (props, st') ->
  In (k, v) d -> k <> "id" ->
  Dict.get k props = property_of v None.
Proof.
  intros Hnd H Hin Hk. rewrite parse_props_unfold in H. unfold parse_props_with in H.
  apply (parse_items_props name d k v Hnd Hin Hk _ _ _ H).
Qed.

End Properties.

Lemma parse_props_keys_witness :
  Dict.get "id" [("label", JStr "Org")] = None.
Proof.
  apply (proj1 (parse_props_keys "janes" "n" [("id", JStr "x/9"); ("label", JStr "Org")]
                  empty_store [("label", JStr "Org")] empty_store eq_refl)).
Defined.

Lemma parse_props_values_witness :
  Dict.get "alias" [("alias", JDict [("v", JStr "b")])] = Some (JDict [("v", JStr "b")]).
Proof.
  apply (parse_props_values "janes" "n"
           [("id", JStr "x/1");
            ("alias", JList [JDict [("v", JStr "a")]; JDict [("v", JStr "b")]])]
           empty_store [("alias", JDict [("v", JStr "b")])] empty_store "alias"
           (JList [JDict [("v", JStr "a")]; JDict [("v", JStr "b")]])).
  - repeat constructor; cbn; intuition discriminate.
  - reflexivity.
  - right. left. reflexivity.
  - discriminate.
Defined.

(** ** The object and the connections of a record *)

Section Nodes.

Variable uid : string.

Lemma parse_sub_grows (name key : string) (x : json) (acc acc' : Dict.dict * store) :
  parse_sub (traverse uid) name key x acc = Ok acc' ->
  exists new, connections (snd acc') = connections (snd acc) ++ new.
Proof.
  intros H.
  apply (parse_sub_extends uid (fun _ => True) (fun j _ => traverse_extends uid j)
           name key x acc acc' I) in H.
  apply H.
Qed.

Lemma parse_subs_grow (name key : string) (l : list json) (acc acc' : Dict.dict * store) :
  for_each (parse_sub (traverse uid) name key) l acc = Ok acc' ->
  exists new, connections (snd acc') = connections (snd acc) ++ new.
Proof.
  intros H.
  apply (for_each_extends identities (parse_sub (traverse uid) name key) l) in H; [apply H|].
  intros x _ a a'.
  apply (parse_sub_extends uid (fun _ => True) (fun j _ => traverse_extends uid j)
           name key x a a' I).
Qed.

Lemma parse_items_grow (name : string) (d : Dict.dict) (acc acc' : Dict.dict * store) :
  for_each (parse_item (traverse uid) name) d acc = Ok acc' ->
  exists new, connections (snd acc') = connections (snd acc) ++ new.
Proof.
  intros H.
  apply (for_each_extends (fun kv : string * json => identities (snd kv))
           (parse_item (traverse uid) name) d) in H; [apply H|].
  intros kv _ a a'.
  apply (parse_item_extends uid (fun _ => True) (fun j _ => traverse_extends uid j)
           name kv a a' I).
  intros; exact I.
Qed.

Lemma grows_In (c : connection) (l new : list connection) : In c l -> In c (l ++ new).
Proof. intros H. apply in_or_app. left. exact H. Qed.

(** The edge of one nested record with [id]. *)
Lemma parse_sub_edge (name key : string) (t : Dict.dict) (tid : string)
    (acc acc' : Dict.dict * store) :
  Dict.get "id" t = Some (JStr tid) ->
  parse_sub (traverse uid) name key (JDict t) acc = Ok acc' ->
  In (name, convert_predicate_name key, convert_id tid) (connections (snd acc')).
Proof.
  intros Ht H. destruct acc as [p st]. unfold parse_sub in H.
  destruct (traverse uid (JDict t) st) as [[prop st1]| |] eqn:E; try discriminate H.
  bind_step.
  assert (Hid : Dict.has "id" t = true) by (unfold Dict.has; rewrite Ht; reflexivity).
  rewrite (traverse_node_returns_none uid t st prop st1 Hid E) in H.
  cbn [is_not_none py_getitem] in H. rewrite Ht in H. bind_step.
  cbn [call_convert_id] in H. bind_step. injection H as <-.
  cbn [snd append_connection connections]. apply in_or_app. right. left. reflexivity.
Qed.

(** Every record with [id] nested under a key of a record, directly or as an
    element of a list, gives a connection from the owner to it, labelled with
    the normalised key. *)
Theorem traverse_emits_edges (d : Dict.dict) (rawId k : string) (v : json)
    (t : Dict.dict) (tid : string) (st : store) (r : json) (st' : store) :
  Dict.get "id" d = Some (JStr rawId) ->
  In (k, v) d -> k <> "id" ->
  v = JDict t \/ (exists l, v = JList l /\ In (JDict t) l) ->
  Dict.get "id" t = Some (JStr tid) ->
  traverse uid (JDict d) st = Ok (r, st') ->
  In (convert_id rawId, convert_predicate_name k, convert_id tid) (connections st').
Proof.
  intros Hd Hitem Hk Hv Ht H.
  assert (Hid : Dict.has "id" d = true) by (unfold Dict.has; rewrite Hd; reflexivity).
  destruct (traverse_node_inv uid d st r st' Hid H)
    as (rawId' & loc_info & props & st1 & st4 & Hget & _ & Hprops & H4 & H5 & _).
  rewrite Hd in Hget. injection Hget as <-.
  apply location_edge_frame in H4, H5.
  destruct H4 as [_ [new4 Hc4]], H5 as [_ [new5 Hc5]].
  rewrite Hc5, Hc4. apply grows_In, grows_In.
  assert (Hst1 : In (convert_id rawId, convert_predicate_name k, convert_id tid)
                   (connections st1)).
  { unfold parse_props_with in Hprops.
    destruct (for_each_split _ d (k, v) Hitem _ _ Hprops)
      as (_ & d2 & a & a' & _ & _ & Hbody & Hrest).
    apply parse_items_grow in Hrest. cbn [snd] in Hrest.
    destruct Hrest as [new ->]. apply grows_In.
    unfold parse_item in Hbody. apply String.eqb_neq in Hk. rewrite Hk in Hbody.
    destruct Hv as [-> | (l & -> & Hin)].
    - apply (parse_sub_edge _ _ _ _ _ _ Ht Hbody).
    - destruct (for_each_split _ l (JDict t) Hin _ _ Hbody)
        as (_ & l2 & b & b' & _ & _ & Hsub & Hrest').
      apply parse_subs_grow in Hrest'. destruct Hrest' as [new' ->]. apply grows_In.
      apply (parse_sub_edge _ _ _ _ _ _ Ht Hsub). }
  cbv zeta. destruct (is_not_none (Dict.get_or_none "geometry" loc_info));
    cbn [connections set_object]; exact Hst1.
Qed.


End Nodes.

Lemma traverse_emits_edges_witness :
  exists st',
    traverse "janes" example_equipment empty_store = Ok (JNull, st') /\
    In (id_equipment_123, "part-of", id_organization_9) (connections st').
Proof.
  pose (t := [("id", JStr "https://x/organization/Organization/9"); ("label", JStr "Org")]).
  pose (d := [("id", JStr "https://x/equipment/Equipment/123");
              ("type", JStr "https://x/ontologies/equipment/Equipment");
              ("label", JStr "Tank X"); ("partOf", JDict t)]).
  destruct (traverse_well_formed "janes" (JDict d) eq_refl eq_refl empty_store)
    as [st' Hst'].
  exists st'. split; [exact Hst'|].
  apply (traverse_emits_edges "janes" d "https://x/equipment/Equipment/123" "partOf"
           (JDict t) t "https://x/organization/Organization/9" empty_store JNull st' eq_refl).
  - right. right. right. left. reflexivity.
  - discriminate.
  - left. reflexivity.
  - reflexivity.
  - exact Hst'.
Defined.


(** ** A record that cannot be flattened *)

Section FailFast.

Variable uid : string.

Lemma for_each_app {A B} (body : A -> B -> result B) (l1 l2 : list A) (acc : B) :
  for_each body (l1 ++ l2) acc = (acc' ← for_each body l1 acc; for_each body l2 acc').
Proof.
  revert acc. induction l1 as [|x l1 IH]; intros acc; [reflexivity|].
  cbn [for_each app]. destruct (body x acc) as [a| |]; bind_step; [apply IH | | ]; reflexivity.
Qed.

(** The six loops of [main] are one pass over the six collections in turn,
    on the same accumulators. *)
Lemma traverse_collections_concat
    (equip installations inventory military_groups organizations units : list json) :
  traverse_collections uid equip installations inventory military_groups organizations units
  = traverse_all uid
      (equip ++ installations ++ inventory ++ military_groups ++ organizations ++ units)
      empty_store.
Proof.
  unfold traverse_collections, traverse_all.
  rewrite for_each_app. destruct (for_each _ equip empty_store) as [a1| |]; bind_step;
    [|reflexivity|reflexivity].
  rewrite for_each_app. destruct (for_each _ installations a1) as [a2| |]; bind_step;
    [|reflexivity|reflexivity].
  rewrite for_each_app. destruct (for_each _ inventory a2) as [a3| |]; bind_step;
    [|reflexivity|reflexivity].
  rewrite for_each_app. destruct (for_each _ military_groups a3) as [a4| |]; bind_step;
    [|reflexivity|reflexivity].
  rewrite for_each_app. reflexivity.
Qed.

Lemma for_each_faults {A B} (body : A -> B -> result B) (l : list A) (x : A) :
  In x l ->
  (forall acc, exists e, body x acc = Fault e) ->
  (forall y acc, body y acc <> OutOfFuel) ->
  forall acc, exists e, for_each body l acc = Fault e.
Proof.
  intros Hin Hx Htotal. induction l as [|y l IH]; intros acc; [destruct Hin|].
  cbn [for_each]. destruct Hin as [-> | Hin].
  - destruct (Hx acc) as [e ->]. exists e. reflexivity.
  - pose proof (Htotal y acc) as Hy.
    destruct (body y acc) as [a|e|]; bind_step; [apply (IH Hin) | exists e; reflexivity|].
    destruct (Hy eq_refl).
Qed.

(** One record that cannot be flattened, in any of the six collections,
    ends the run with its exception (or that of an earlier record) before
    anything is registered or saved. *)
Theorem main_fails_fast
    (equip installations inventory military_groups organizations units : list json)
    (x : json) :
  In x (equip ++ installations ++ inventory ++ military_groups ++ organizations ++ units) ->
  (forall st, exists e, traverse uid x st = Fault e) ->
  exists e,
    main uid equip installations inventory military_groups organizations units
    = ([], Raised e).
Proof.
  intros Hin Hx.
  assert (Hrun : exists e,
            traverse_collections uid equip installations inventory military_groups
              organizations units = Fault e).
  { rewrite traverse_collections_concat. unfold traverse_all.
    apply (for_each_faults _ _ x Hin).
    - intros st. destruct (Hx st) as [e ->]. exists e. reflexivity.
    - intros y st. pose proof (traverse_answers uid y st) as Hy.
      destruct (traverse uid y st) as [[? ?]| |]; bind_step;
        [discriminate | discriminate | congruence]. }
  destruct Hrun as [e He]. exists e.
  unfold main. unfold traverse_collections in He. rewrite He. reflexivity.
Qed.

End FailFast.

Lemma main_fails_fast_witness :
  exists e, main "janes" [example_equipment] [] [JInt 7] [] [] [] = ([], Raised e).
Proof.
  apply (main_fails_fast "janes" [example_equipment] [] [JInt 7] [] [] [] (JInt 7)).
  - right. left. reflexivity.
  - intros st. exists TypeError. apply traverse_rejected_value. reflexivity.
Defined.

(** ** The writes of a visit *)

Section Logs.

Variable uid : string.

Lemma apply_writes_app (ws1 ws2 : list write) (st : store) :
  apply_writes (ws1 ++ ws2) st = apply_writes ws2 (apply_writes ws1 st).
Proof. apply List.fold_left_app. Qed.

Lemma written_keys_app (ws1 ws2 : list write) :
  written_keys (ws1 ++ ws2) = written_keys ws1 ++ written_keys ws2.
Proof. apply List.flat_map_app. Qed.

Lemma merge_empty (st : store) : merge st empty_store = st.
Proof.
  destruct st as [o c]. unfold merge. cbn [objects connections empty_store].
  rewrite (left_id_L ∅ (∪)), app_nil_r. reflexivity.
Qed.

Lemma apply_write_merge (st delta : store) (w : write) :
  apply_write (merge st delta) w = merge st (apply_write delta w).
Proof.
  destruct w as [k o|c]; unfold merge, apply_write, set_object, append_connection;
    cbn [objects connections].
  - rewrite insert_union_l. reflexivity.
  - rewrite <- app_assoc. reflexivity.
Qed.

(** The writes of a log add to any store what they add to the empty one. *)
Lemma apply_writes_merge (ws : list write) (st : store) :
  apply_writes ws st = merge st (apply_writes ws empty_store).
Proof.
  induction ws as [|w ws IH] using rev_ind.
  - cbn. symmetry. apply merge_empty.
  - rewrite !apply_writes_app. cbn [apply_writes List.fold_left].
    fold (apply_writes ws st). fold (apply_writes ws empty_store).
    rewrite IH. apply apply_write_merge.
Qed.

Lemma lookup_apply_writes (ws : list write) (st : store) (k : string) (o : object) :
  objects (apply_writes ws st) !! k = Some o ->
  In (WObj k o) ws \/ objects st !! k = Some o.
Proof.
  induction ws as [|w ws IH] using rev_ind; [right; assumption|].
  rewrite apply_writes_app. cbn [apply_writes List.fold_left].
  destruct w as [k' o'|c]; cbn [apply_write set_object append_connection objects].
  - intros H. apply lookup_insert_Some in H as [[-> ->] | [_ H]].
    + left. apply in_or_app. right. left. reflexivity.
    + destruct (IH H) as [Hin | Hst]; [left; apply in_or_app; left; exact Hin | right; exact Hst].
  - intros H. destruct (IH H) as [Hin | Hst];
      [left; apply in_or_app; left; exact Hin | right; exact Hst].
Qed.

Lemma stored_apply_writes (ws : list write) (st : store) (k : string) :
  In k (written_keys ws) \/ is_Some (objects st !! k) ->
  is_Some (objects (apply_writes ws st) !! k).
Proof.
  induction ws as [|w ws IH] using rev_ind.
  - intros [[] | H]. exact H.
  - rewrite apply_writes_app, written_keys_app. cbn [apply_writes List.fold_left].
    intros H. destruct w as [k' o'|c]; cbn [apply_write set_object append_connection objects].
    + apply lookup_insert_is_Some. destruct (decide (k' = k)) as [-> | Hne]; [left; reflexivity|].
      right. split; [exact Hne|]. apply IH.
      destruct H as [H | H]; [|right; exact H].
      apply in_app_or in H as [H | H]; [left; exact H|].
      cbn in H. destruct H as [-> | []]. contradiction.
    + apply IH. destruct H as [H | H]; [|right; exact H].
      apply in_app_or in H as [H | []]. left. exact H.
Qed.

Lemma connections_apply_writes (ws : list write) (st : store) :
  connections (apply_writes ws st) = connections st ++ written_connections ws.
Proof.
  induction ws as [|w ws IH] using rev_ind; [symmetry; apply app_nil_r|].
  rewrite apply_writes_app. cbn [apply_writes List.fold_left].
  unfold written_connections. rewrite List.flat_map_app. fold (written_connections ws).
  destruct w as [k o|c]; cbn [apply_write set_object append_connection connections List.flat_map];
    rewrite IH, ?app_nil_r; [reflexivity | symmetry; apply app_assoc].
Qed.

Lemma good_write_mono (pend pend' : option string) (ids ids' keys keys' : list string)
    (w : write) :
  (forall k, In k ids -> In k ids') ->
  (forall k, In k keys -> In k keys') ->
  (forall s, pend = Some s -> pend' = Some s \/ In s keys') ->
  good_write uid pend ids keys w -> good_write uid pend' ids' keys' w.
Proof.
  intros Hids Hkeys Hpend. destruct w as [k o|[[s p] o]]; cbn [good_write].
  - intros [Hb Hin]. split; [exact Hb | apply Hids; exact Hin].
  - intros (Hl & Ho & Hs). split; [exact Hl|]. split; [apply Hkeys; exact Ho|].
    destruct Hs as [Hs | Hs]; [left; apply Hkeys; exact Hs|].
    destruct (Hpend s Hs) as [H | H]; [right; exact H | left; exact H].
Qed.

Lemma good_writes_mono (pend pend' : option string) (ids ids' keys keys' : list string)
    (ws : list write) :
  (forall k, In k ids -> In k ids') ->
  (forall k, In k keys -> In k keys') ->
  (forall s, pend = Some s -> pend' = Some s \/ In s keys') ->
  List.Forall (good_write uid pend ids keys) ws ->
  List.Forall (good_write uid pend' ids' keys') ws.
Proof.
  intros Hids Hkeys Hpend H. induction H as [|w ws Hw _ IH]; constructor; [|exact IH].
  apply (good_write_mono pend pend' ids ids' keys keys' w Hids Hkeys Hpend Hw).
Qed.

Lemma good_log_nil (pend : option string) (ids : list string) : good_log uid pend ids [].
Proof. constructor. Qed.

Lemma good_log_app (pend : option string) (ids1 ids2 : list string) (ws1 ws2 : list write) :
  good_log uid pend ids1 ws1 -> good_log uid pend ids2 ws2 ->
  good_log uid pend (ids1 ++ ids2) (ws1 ++ ws2).
Proof.
  unfold good_log. intros H1 H2. rewrite written_keys_app. apply List.Forall_app. split.
  - apply (good_writes_mono pend pend ids1 _ (written_keys ws1) _ ws1); auto.
    + intros k Hk. apply in_or_app. left. exact Hk.
    + intros k Hk. apply in_or_app. left. exact Hk.
  - apply (good_writes_mono pend pend ids2 _ (written_keys ws2) _ ws2); auto.
    + intros k Hk. apply in_or_app. right. exact Hk.
    + intros k Hk. apply in_or_app. right. exact Hk.
Qed.

Lemma good_log_weaken (pend pend' : option string) (ids ids' : list string) (ws : list write) :
  (forall k, In k ids -> In k ids') ->
  (forall s, pend = Some s -> pend' = Some s \/ In s (written_keys ws)) ->
  good_log uid pend ids ws -> good_log uid pend' ids' ws.
Proof.
  intros Hids Hpend. apply good_writes_mono; auto.
Qed.

(** A connection added at the end of a log. *)
Lemma good_log_connection (pend : option string) (ids : list string) (ws : list write)
    (s p o : string) :
  good_log uid pend ids ws ->
  built_label p -> In o (written_keys ws) -> (In s (written_keys ws) \/ pend = Some s) ->
  good_log uid pend ids (ws ++ [WConn (s, p, o)]).
Proof.
  unfold good_log. intros H Hl Ho Hs. rewrite written_keys_app. cbn [written_keys List.flat_map].
  rewrite !app_nil_r. apply List.Forall_app. split; [exact H|].
  constructor; [|constructor]. cbn [good_write]. auto.
Qed.

End Logs.

Section Uniform.

Variable uid : string.

Lemma extract_location_info_answers (d : Dict.dict) : extract_location_info d <> OutOfFuel.
Proof.
  unfold extract_location_info. destruct (Dict.get "locatedAt" d) as [[]|]; discriminate.
Qed.

Lemma alter_after_insert (f : object -> object) (k : string) (o : object)
    (m : gmap string object) :
  alter f k (<[k := o]> m) = <[k := f o]> (<[k := o]> m).
Proof.
  apply map_eq. intros i. destruct (decide (k = i)) as [<- | Hne].
  - rewrite lookup_alter_eq, !lookup_insert_eq. reflexivity.
  - rewrite lookup_alter_ne, !lookup_insert_ne by exact Hne. reflexivity.
Qed.

(** The visit of a record with a string [id], step by step. *)
Lemma traverse_node_eq (d : Dict.dict) (rawId : string) (st : store) :
  Dict.get "id" d = Some (JStr rawId) ->
  traverse uid (JDict d) st =
    (loc_info ← extract_location_info d;
     '(props, st1) ← parse_props_with (traverse uid) (convert_id rawId) d st;
     st4 ← location_edge (traverse uid) (JDict d) "location-country"
             (Dict.get_or_none "location_country" loc_info)
             (apply_writes (node_writes uid d rawId props loc_info) st1);
     st5 ← location_edge (traverse uid) (JDict d) "geoprecision"
             (Dict.get_or_none "geoprecision" loc_info) st4;
     Ok (JNull, st5)).
Proof.
  intros Hd. rewrite traverse_unfold. unfold traverse_body.
  cbn [py_contains py_getitem]. unfold Dict.has. rewrite Hd. bind_step.
  cbn [negb call_convert_id]. bind_step.
  destruct (type_of d) as [_type janesType] eqn:Ety.
  destruct (extract_location_info d) as [loc_info| |]; try reflexivity. bind_step.
  destruct (parse_props_with (traverse uid) (convert_id rawId) d st) as [[props st1]| |];
    try reflexivity.
  bind_step.
  assert (Hst : (if is_not_none (Dict.get_or_none "geometry" loc_info)
                 then Store (alter (with_geometry (Dict.get_or_none "geometry" loc_info))
                               (convert_id rawId)
                               (objects (set_object (convert_id rawId)
                                  (Object (match Dict.get "label" d with
                                           | Some l => l
                                           | None => JStr (convert_id rawId)
                                           end)
                                     "military" (object_class_of _type) (convert_id rawId)
                                     (JStr rawId) janesType props uid None) st1)))
                        (connections (set_object (convert_id rawId)
                                  (Object (match Dict.get "label" d with
                                           | Some l => l
                                           | None => JStr (convert_id rawId)
                                           end)
                                     "military" (object_class_of _type) (convert_id rawId)
                                     (JStr rawId) janesType props uid None) st1))
                 else set_object (convert_id rawId)
                        (Object (match Dict.get "label" d with
                                 | Some l => l
                                 | None => JStr (convert_id rawId)
                                 end)
                           "military" (object_class_of _type) (convert_id rawId)
                           (JStr rawId) janesType props uid None) st1)
                = apply_writes (node_writes uid d rawId props loc_info) st1).
  { unfold node_writes, node_object. rewrite Ety. cbn [fst snd].
    destruct (is_not_none (Dict.get_or_none "geometry" loc_info));
      cbn [apply_writes List.fold_left apply_write]; [|reflexivity].
    unfold set_object. cbn [objects connections]. rewrite alter_after_insert. reflexivity. }
  cbv zeta. rewrite Hst. reflexivity.
Qed.

Lemma inline_not_none (v : json) : inline_value v = true -> is_not_none v = true.
Proof. destruct v; try discriminate; reflexivity. Qed.

Section Below.

Variable small : json -> Prop.

Hypothesis below :
  forall j, small j ->
    uniform (traverse uid j)
      (fun r ws => r = (if inline_value j then j else JNull) /\ value_log uid j ws).

Lemma parse_sub_uniform (name key : string) (x : json) (p : Dict.dict) :
  small x ->
  uniform (fun st => parse_sub (traverse uid) name key x (p, st))
          (fun _ ws => good_log uid (Some name) (identities x) ws).
Proof.
  intros Hx.
  destruct (below x Hx) as [[e He] | (r & ws & [Hr (Hlog & _ & Hnode)] & Hok)].
  { left. exists e. intros st. unfold parse_sub. rewrite He. reflexivity. }
  assert (Hweak : good_log uid (Some name) (identities x) ws).
  { apply (good_log_weaken uid None (Some name) (identities x) (identities x) ws);
      [auto | discriminate | exact Hlog]. }
  destruct (inline_value x) eqn:Ei.
  { right. exists (Dict.set key x p), ws. split; [exact Hweak|].
    intros st. unfold parse_sub. rewrite Hok. bind_step. subst r.
    rewrite (inline_not_none x Ei). reflexivity. }
  subst r. destruct (py_getitem "id" x) as [sid|e|] eqn:Eg;
    [| | destruct (py_getitem_answers _ _ Eg)].
  2:{ left. exists e. intros st. unfold parse_sub. rewrite Hok. bind_step.
      cbn [is_not_none]. rewrite Eg. reflexivity. }
  destruct (call_convert_id sid) as [obj_name|e|] eqn:Ec;
    [| | destruct (call_convert_id_answers _ Ec)].
  2:{ left. exists e. intros st. unfold parse_sub. rewrite Hok. bind_step.
      cbn [is_not_none]. rewrite Eg. bind_step. rewrite Ec. reflexivity. }
  right. exists p, (ws ++ [WConn (name, convert_predicate_name key, obj_name)]). split.
  - apply good_log_connection;
      [exact Hweak | right; right; eexists; reflexivity | | right; reflexivity].
    destruct x as [| | | | | |d]; try discriminate Eg. cbn [py_getitem] in Eg.
    destruct (Dict.get "id" d) as [i|] eqn:Ed; [|discriminate Eg]. injection Eg as ->.
    destruct sid as [| | | |rawId| |]; try discriminate Ec. injection Ec as <-.
    apply (Hnode d rawId eq_refl Ed).
  - intros st. unfold parse_sub. rewrite Hok. bind_step. cbn [is_not_none].
    rewrite Eg. bind_step. rewrite Ec. bind_step. rewrite apply_writes_app. reflexivity.
Qed.

Lemma for_each_uniform {A} (body : A -> Dict.dict * store -> result (Dict.dict * store))
    (ids : A -> list string) (pend : option string) (l : list A) :
  (forall x, In x l -> forall p,
     uniform (fun st => body x (p, st)) (fun _ ws => good_log uid pend (ids x) ws)) ->
  forall p,
    uniform (fun st => for_each body l (p, st))
            (fun _ ws => good_log uid pend (List.flat_map ids l) ws).
Proof.
  induction l as [|x l IH]; intros Hb p.
  { right. exists p, []. split; [apply good_log_nil | reflexivity]. }
  destruct (Hb x (or_introl eq_refl) p) as [[e He] | (p1 & ws1 & Hlog1 & Hok1)].
  { left. exists e. intros st. cbn [for_each]. rewrite He. reflexivity. }
  destruct (IH (fun y Hy => Hb y (or_intror Hy)) p1) as [[e He] | (p2 & ws2 & Hlog2 & Hok2)].
  { left. exists e. intros st. cbn [for_each]. rewrite Hok1. bind_step. apply He. }
  right. exists p2, (ws1 ++ ws2). split.
  - cbn [List.flat_map]. apply good_log_app; assumption.
  - intros st. cbn [for_each]. rewrite Hok1. bind_step. rewrite Hok2, apply_writes_app.
    reflexivity.
Qed.

Lemma parse_item_uniform (name : string) (kv : string * json) (p : Dict.dict) :
  small (snd kv) ->
  (forall l, snd kv = JList l -> forall x, In x l -> small x) ->
  uniform (fun st => parse_item (traverse uid) name kv (p, st))
          (fun _ ws => good_log uid (Some name) (identities (snd kv)) ws).
Proof.
  intros Hs Hl. destruct kv as [k v]. cbn [snd] in *. unfold parse_item.
  destruct (String.eqb k "id").
  { right. exists p, []. split; [apply good_log_nil | reflexivity]. }
  destruct v as [| | | | |l|t];
    try (right; eexists; exists []; split;
         [apply good_log_nil
         | intros st; cbn [fst snd apply_writes List.fold_left]; reflexivity]).
  - cbn [identities].
    apply (for_each_uniform (parse_sub (traverse uid) name k) identities (Some name) l).
    intros x Hx p0. apply parse_sub_uniform. apply (Hl l eq_refl x Hx).
  - apply parse_sub_uniform. exact Hs.
Qed.

Lemma location_edge_uniform (d : Dict.dict) (rawId label : string) (target : json) :
  Dict.get "id" d = Some (JStr rawId) ->
  built_label label ->
  (is_not_none target = true -> small target) ->
  uniform_store (fun st => location_edge (traverse uid) (JDict d) label target st)
    (fun ws => good_log uid (Some (convert_id rawId)) (identities target) ws).
Proof.
  intros Hd Hlabel Hs. unfold location_edge.
  destruct (is_not_none target) eqn:En.
  2:{ right. exists []. split; [apply good_log_nil | reflexivity]. }
  destruct (below target (Hs eq_refl)) as [[e He] | (r & ws & [Hr (Hlog & _ & Hnode)] & Hok)].
  { left. exists e. intros st. rewrite He. reflexivity. }
  assert (Hsub : py_getitem "id" (JDict d) = Ok (JStr rawId)).
  { cbn [py_getitem]. rewrite Hd. reflexivity. }
  assert (Hname : call_convert_id (JStr rawId) = Ok (convert_id rawId)) by reflexivity.
  assert (Hweak : good_log uid (Some (convert_id rawId)) (identities target) ws).
  { apply (good_log_weaken uid None _ (identities target) (identities target) ws);
      [auto | discriminate | exact Hlog]. }
  destruct (py_getitem "id" target) as [sid|e|] eqn:Eg;
    [| | destruct (py_getitem_answers _ _ Eg)].
  2:{ left. exists e. intros st. rewrite Hok. bind_step. rewrite Hsub.
      bind_step. rewrite Hname. bind_step. reflexivity. }
  destruct (call_convert_id sid) as [obj_name|e|] eqn:Ec;
    [| | destruct (call_convert_id_answers _ Ec)].
  2:{ left. exists e. intros st. rewrite Hok. bind_step. rewrite Hsub.
      bind_step. rewrite Hname. bind_step. rewrite Ec. reflexivity. }
  right. exists (ws ++ [WConn (convert_id rawId, label, obj_name)]). split.
  - apply good_log_connection; [exact Hweak | exact Hlabel | | right; reflexivity].
    destruct target as [| | | | | |t]; try discriminate Eg. cbn [py_getitem] in Eg.
    destruct (Dict.get "id" t) as [i|] eqn:Et; [|discriminate Eg]. injection Eg as ->.
    destruct sid as [| | | |tid| |]; try discriminate Ec. injection Ec as <-.
    apply (Hnode t tid eq_refl Et).
  - intros st. rewrite Hok. bind_step. rewrite Hsub. bind_step.
    rewrite Hname. bind_step. rewrite Ec. bind_step.
    rewrite apply_writes_app. reflexivity.
Qed.

End Below.

Lemma location_refs_in_record (d loc_info : Dict.dict) (key : string) :
  extract_location_info d = Ok loc_info ->
  key = "location_country" \/ key = "geoprecision" ->
  forall k, In k (identities (Dict.get_or_none key loc_info)) -> In k (identities (JDict d)).
Proof.
  intros Hloc Hkey k Hk.
  destruct (is_not_none (Dict.get_or_none key loc_info)) eqn:Hsome.
  - destruct (location_target_inside d loc_info key Hloc Hkey Hsome)
      as (la & key' & Hla & Hin).
    apply (identities_get _ _ _ Hla). apply (identities_get _ _ _ Hin). exact Hk.
  - destruct (Dict.get_or_none key loc_info); try discriminate Hsome. destruct Hk.
Qed.

Lemma node_object_built (d : Dict.dict) (rawId : string) (props : Dict.dict) :
  Dict.get "id" props = None ->
  built_object uid (convert_id rawId) (node_object uid d rawId props).
Proof.
  intros Hp. unfold built_object, node_object. cbn.
  repeat split; try reflexivity; try exact Hp.
  - exists rawId. split; reflexivity.
  - apply object_class_table.
Qed.

Lemma node_writes_good (d : Dict.dict) (rawId : string) (props loc_info : Dict.dict) :
  Dict.get "id" props = None ->
  good_log uid (Some (convert_id rawId)) [convert_id rawId]
    (node_writes uid d rawId props loc_info).
Proof.
  intros Hp. pose proof (node_object_built d rawId props Hp) as Hb.
  assert (Hg : forall geom,
             built_object uid (convert_id rawId)
               (with_geometry geom (node_object uid d rawId props))).
  { intros geom. destruct Hb as (H1 & H2 & H3 & H4 & H5 & H6).
    unfold built_object, with_geometry. cbn [name domain project xid object_class item].
    repeat split; assumption. }
  unfold good_log, node_writes.
  destruct (is_not_none (Dict.get_or_none "geometry" loc_info)).
  - apply List.Forall_cons; [split; [exact Hb | left; reflexivity]|].
    apply List.Forall_cons; [split; [apply Hg | left; reflexivity]|].
    apply List.Forall_nil.
  - apply List.Forall_cons; [split; [exact Hb | left; reflexivity]|].
    apply List.Forall_nil.
Qed.

(** Every visit does the same to every store, with a log as described. *)
Lemma traverse_uniform (j : json) :
  uniform (traverse uid j)
    (fun r ws => r = (if inline_value j then j else JNull) /\ value_log uid j ws).
Proof.
  induction j as [j IH] using depth_induction.
  destruct (inline_value j) eqn:Ei.
  { right. exists j, []. split.
    - split; [reflexivity|]. split; [apply good_log_nil|]. split; [reflexivity|].
      intros d rawId -> Hd. cbn in Ei. unfold Dict.has in Ei. rewrite Hd in Ei.
      discriminate Ei.
    - intros st. apply traverse_inline_value. exact Ei. }
  destruct (rejected_value j) eqn:Er.
  { left. exists TypeError. intros st. apply traverse_rejected_value. exact Er. }
  destruct j as [| | | |s|l|d]; try discriminate Er.
  { cbn in Ei, Er. rewrite Er in Ei. discriminate Ei. }
  { cbn in Ei, Er. rewrite Er in Ei. discriminate Ei. }
  cbn [inline_value] in Ei. unfold Dict.has in Ei.
  destruct (Dict.get "id" d) as [xid|] eqn:Hd; [|discriminate Ei]. clear Ei Er.
  destruct xid as [| | | |rawId| |];
    try (left; exists TypeError; intros st; rewrite traverse_unfold; unfold traverse_body;
         cbn [py_contains py_getitem]; unfold Dict.has; rewrite Hd; reflexivity).
  destruct (extract_location_info d) as [loc_info|e|] eqn:Eloc;
    [| | destruct (extract_location_info_answers _ Eloc)].
  2:{ left. exists e. intros st. rewrite (traverse_node_eq d rawId st Hd), Eloc. reflexivity. }
  set (small := fun x => (json_depth x < json_depth (JDict d))%nat).
  assert (Hprops :
    uniform (fun st => parse_props_with (traverse uid) (convert_id rawId) d st)
      (fun _ ws => good_log uid (Some (convert_id rawId))
                     (List.flat_map (fun kv => identities (snd kv)) d) ws)).
  { unfold parse_props_with.
    apply (for_each_uniform (parse_item (traverse uid) (convert_id rawId))
             (fun kv => identities (snd kv)) (Some (convert_id rawId)) d).
    intros kv Hin p. apply (parse_item_uniform small IH).
    - apply depth_in_dict. exact Hin.
    - intros l0 Hl x Hx. unfold small. apply depth_in_dict in Hin. rewrite Hl in Hin.
      apply depth_in_list in Hx. lia. }
  destruct Hprops as [[e He] | (props & wsp & Hlogp & Hokp)].
  { left. exists e. intros st. rewrite (traverse_node_eq d rawId st Hd), Eloc. bind_step.
    rewrite He. reflexivity. }
  destruct (location_edge_uniform small IH d rawId "location-country"
              (Dict.get_or_none "location_country" loc_info) Hd
              (or_introl eq_refl)
              (fun Hsome => location_target_depth d loc_info "location_country" Eloc
                              (or_introl eq_refl) Hsome))
    as [[e He] | (ws4 & Hlog4 & Hok4)].
  { left. exists e. intros st. rewrite (traverse_node_eq d rawId st Hd), Eloc. bind_step.
    rewrite Hokp. bind_step. rewrite He. reflexivity. }
  destruct (location_edge_uniform small IH d rawId "geoprecision"
              (Dict.get_or_none "geoprecision" loc_info) Hd
              (or_intror (or_introl eq_refl))
              (fun Hsome => location_target_depth d loc_info "geoprecision" Eloc
                              (or_intror eq_refl) Hsome))
    as [[e He] | (ws5 & Hlog5 & Hok5)].
  { left. exists e. intros st. rewrite (traverse_node_eq d rawId st Hd), Eloc. bind_step.
    rewrite Hokp. bind_step. rewrite Hok4. bind_step. rewrite He. reflexivity. }
  assert (Hnoid : Dict.get "id" props = None).
  { pose proof (Hokp empty_store) as H0. unfold parse_props_with in H0.
    apply (parse_items_other _ _ _ "id" (or_intror eq_refl) _ _ H0). }
  right. exists JNull, (wsp ++ node_writes uid d rawId props loc_info ++ ws4 ++ ws5). split.
  - split; [reflexivity|].
    assert (Hkey : In (convert_id rawId)
                     (written_keys (wsp ++ node_writes uid d rawId props loc_info ++ ws4 ++ ws5))).
    { rewrite !written_keys_app. apply in_or_app. right. apply in_or_app. left.
      unfold node_writes. left. reflexivity. }
    split; [|split].
    + pose proof (good_log_app uid _ _ _ _ _ Hlogp
                    (good_log_app uid _ _ _ _ _ (node_writes_good d rawId props loc_info Hnoid)
                       (good_log_app uid _ _ _ _ _ Hlog4 Hlog5))) as Hall.
      revert Hall. apply good_log_weaken.
      * intros k Hk. cbn [identities]. rewrite Hd.
        apply in_app_or in Hk as [Hk | Hk]; [apply in_or_app; right; exact Hk|].
        apply in_app_or in Hk as [Hk | Hk]; [apply in_or_app; left; exact Hk|].
        assert (Hin : In k (identities (JDict d))).
        { apply in_app_or in Hk as [Hk | Hk].
          - apply (location_refs_in_record d loc_info "location_country" Eloc
                     (or_introl eq_refl) k Hk).
          - apply (location_refs_in_record d loc_info "geoprecision" Eloc
                     (or_intror eq_refl) k Hk). }
        cbn [identities] in Hin. rewrite Hd in Hin. exact Hin.
      * intros s0 [= <-]. right. exact Hkey.
    + intros Hinl. cbn [inline_value] in Hinl. unfold Dict.has in Hinl. rewrite Hd in Hinl.
      discriminate Hinl.
    + intros d' rawId' [= <-] Hd'. rewrite Hd in Hd'. injection Hd' as <-. exact Hkey.
  - intros st. rewrite (traverse_node_eq d rawId st Hd), Eloc. bind_step.
    rewrite Hokp. bind_step. rewrite Hok4. bind_step. rewrite Hok5. bind_step.
    rewrite !apply_writes_app. reflexivity.
Qed.

End Uniform.

(** ** The accumulators are only written *)

Section Accumulators.

Variable uid : string.

Lemma In_written_connections (c : connection) (ws : list write) :
  In c (written_connections ws) -> In (WConn c) ws.
Proof.
  unfold written_connections. intros H. apply in_flat_map in H as (w & Hw & Hc).
  destruct w as [k o|c']; [destruct Hc|]. destruct Hc as [<- | []]. exact Hw.
Qed.

Lemma store_ok_empty : store_ok uid empty_store.
Proof.
  split.
  - intros k o H. cbn [empty_store objects] in H. rewrite lookup_empty in H. discriminate H.
  - intros s p o [].
Qed.

Lemma store_ok_apply_writes (ids : list string) (ws : list write) (st : store) :
  good_log uid None ids ws -> store_ok uid st -> store_ok uid (apply_writes ws st).
Proof.
  intros Hlog [Hobj Hconn]. unfold good_log in Hlog. rewrite List.Forall_forall in Hlog. split.
  - intros k o H. destruct (lookup_apply_writes ws st k o H) as [Hin | Hst].
    + apply (Hlog _ Hin).
    + apply (Hobj k o Hst).
  - intros s p o H. rewrite connections_apply_writes in H. apply in_app_or in H as [H | H].
    + destruct (Hconn s p o H) as (Hl & Hs & Ho). split; [exact Hl|].
      split; apply stored_apply_writes; right; assumption.
    + apply In_written_connections in H. destruct (Hlog _ H) as (Hl & Ho & Hs).
      split; [exact Hl|]. split; apply stored_apply_writes; left.
      * destruct Hs as [Hs | Hs]; [exact Hs | discriminate Hs].
      * exact Ho.
Qed.

Lemma traverse_preserves (j r : json) (st st' : store) :
  store_ok uid st -> traverse uid j st = Ok (r, st') -> store_ok uid st'.
Proof.
  intros Hst H.
  destruct (traverse_uniform uid j) as [[e He] | (r0 & ws & [_ (Hlog & _)] & Hok)].
  - rewrite He in H. discriminate H.
  - rewrite Hok in H. injection H as <- <-.
    apply (store_ok_apply_writes (identities j) ws st Hlog Hst).
Qed.

Lemma traverse_all_preserves (coll : list json) (st st' : store) :
  store_ok uid st -> traverse_all uid coll st = Ok st' -> store_ok uid st'.
Proof.
  unfold traverse_all. revert st. induction coll as [|x coll IH]; intros st Hst H.
  - injection H as <-. exact Hst.
  - cbn [for_each] in H.
    destruct (traverse uid x st) as [[r st1]| |] eqn:Hx; bind_step; try discriminate H.
    apply (IH st1 (traverse_preserves x r st st1 Hst Hx) H).
Qed.

Lemma traverse_collections_ok
    (equip installations inventory military_groups organizations units : list json)
    (st : store) :
  traverse_collections uid equip installations inventory military_groups organizations units
    = Ok st ->
  store_ok uid st.
Proof.
  rewrite traverse_collections_concat. apply traverse_all_preserves. apply store_ok_empty.
Qed.

Lemma built_label_no_upper (p : string) : built_label p -> no_upper p = true.
Proof.
  intros [-> | [-> | [k ->]]]; [reflexivity | reflexivity|].
  apply no_upper_convert_chars.
Qed.

(** The comprehension of lines 313-320 on connections between stored
    objects. *)
Lemma conn_objects_stored (objs : gmap string object) (conns : list connection) :
  (forall k o, objs !! k = Some o -> name o = k) ->
  (forall s p o, In (s, p, o) conns -> is_Some (objs !! s) /\ is_Some (objs !! o)) ->
  exists l,
    conn_objects objs conns = Ok l /\
    List.map (fun t => (name (fst (fst t)), snd (fst t), name (snd t))) l
      = List.filter (fun c => negb (is_self_loop c)) conns.
Proof.
  intros Hname. induction conns as [|[[s p] o] conns IH]; intros Hin.
  { exists []. split; reflexivity. }
  destruct (IH (fun s' p' o' H => Hin s' p' o' (or_intror H))) as (l & Hl & Hmap).
  destruct (Hin s p o (or_introl eq_refl)) as [[so Hs] [oo Ho]].
  cbn [conn_objects List.filter]. unfold is_self_loop at 1. cbn [fst snd].
  destruct (String.eqb s o); cbn [negb].
  - exists l. split; assumption.
  - rewrite Hs, Ho, Hl. bind_step. exists ((so, p, oo) :: l). split; [reflexivity|].
    cbn [List.map fst snd]. rewrite (Hname s so Hs), (Hname o oo Ho), Hmap. reflexivity.
Qed.

(** The outcome of a visit and what it adds to the accumulators do not
    depend on what the accumulators hold: [objects] and [connections] are
    written and never read.  A visit of the same value raises the same
    exception from every state of the accumulators, or returns the same value
    and adds the same objects and connections. *)
Theorem traverse_accumulates (j : json) (st : store) :
  traverse uid j st =
    match traverse uid j empty_store with
    | Ok (r, delta) => Ok (r, merge st delta)
    | Fault e => Fault e
    | OutOfFuel => OutOfFuel
    end.
Proof.
  destruct (traverse_uniform uid j) as [[e He] | (r & ws & _ & Hok)].
  - rewrite !He. reflexivity.
  - rewrite (Hok st), (Hok empty_store). rewrite (apply_writes_merge ws st). reflexivity.
Qed.

(** A visit never removes what the accumulators hold: every stored name
    stays stored, and the connections are kept in order, the new ones after
    them. *)
Theorem traverse_only_adds (j r : json) (st st' : store) :
  traverse uid j st = Ok (r, st') ->
  (forall k, is_Some (objects st !! k) -> is_Some (objects st' !! k)) /\
  (exists new, connections st' = connections st ++ new) /\
  (List.length (connections st) <= List.length (connections st'))%nat.
Proof.
  intros H.
  destruct (traverse_uniform uid j) as [[e He] | (r0 & ws & _ & Hok)].
  { rewrite He in H. discriminate H. }
  rewrite Hok in H. injection H as <- <-. split; [|split].
  - intros k Hk. apply stored_apply_writes. right. exact Hk.
  - exists (written_connections ws). apply connections_apply_writes.
  - rewrite connections_apply_writes, List.length_app. lia.
Qed.

(** A second visit of the same value stores nothing new but appends the
    connections of the first visit once more: the list of connections is
    not deduplicated. *)
Theorem traverse_twice (j r : json) (st st1 : store) :
  traverse uid j st = Ok (r, st1) ->
  exists new,
    connections st1 = connections st ++ new /\
    traverse uid j st1 = Ok (r, Store (objects st1) (connections st1 ++ new)).
Proof.
  intros H.
  destruct (traverse_uniform uid j) as [[e He] | (r0 & ws & _ & Hok)].
  { rewrite He in H. discriminate H. }
  rewrite Hok in H. injection H as <- <-.
  exists (written_connections ws). split; [apply connections_apply_writes|].
  rewrite (Hok (apply_writes ws st)). f_equal. f_equal.
  rewrite (apply_writes_merge ws (apply_writes ws st)).
  rewrite (apply_writes_merge ws st) at 1 2.
  unfold merge. cbn [objects connections].
  rewrite (assoc_L (∪)), (idemp_L (∪)).
  rewrite (connections_apply_writes ws empty_store). cbn [empty_store connections app].
  rewrite (apply_writes_merge ws st). unfold merge. cbn [objects connections].
  rewrite (connections_apply_writes ws empty_store). cbn [empty_store connections app].
  reflexivity.
Qed.

(** Accumulators in which every object is stored under its own name and
    is one that a visit builds (domain [military], the project, an [xid] that
    hashes to its name, a class of the table, no property [id]), and in which
    every connection has a label of a visit and joins two stored objects, are
    left so by every visit that returns. *)
Theorem traverse_keeps_store_ok (j r : json) (st st' : store) :
  store_ok uid st -> traverse uid j st = Ok (r, st') -> store_ok uid st'.
Proof. apply traverse_preserves. Qed.

(** When the six loops of [main] have run through, every connection joins
    two stored objects: the comprehension of lines 313-320 raises no
    [KeyError], it yields the connections whose subject and object differ, in
    order, and the statements after [exit()] would run to the end. *)
Theorem persist_runs_through
    (equip installations inventory military_groups organizations units : list json)
    (st : store) :
  traverse_collections uid equip installations inventory military_groups organizations units
    = Ok st ->
  exists l,
    conn_objects (objects st) (connections st) = Ok l /\
    List.map (fun t => (name (fst (fst t)), snd (fst t), name (snd t))) l
      = List.filter (fun c => negb (is_self_loop c)) (connections st) /\
    snd (persist st) = Returned /\
    batches (fst (persist st)) = l.
Proof.
  intros H. destruct (traverse_collections_ok _ _ _ _ _ _ st H) as [Hobj Hconn].
  destruct (conn_objects_stored (objects st) (connections st)) as (l & Hl & Hmap).
  - intros k o Hk. apply (Hobj k o Hk).
  - intros s p o Hin. destruct (Hconn s p o Hin) as (_ & Hs & Ho). split; assumption.
  - exists l. split; [exact Hl|]. split; [exact Hmap|].
    unfold persist. rewrite Hl. cbn [fst snd]. split; [reflexivity|].
    unfold batches. rewrite List.flat_map_app.
    fold (batches (write_connections l)). unfold write_connections.
    destruct (write_loop_batches l (S (List.length l)) 0 ltac:(lia) ltac:(lia))
      as (Hb & _ & _).
    cbn zeta in Hb. rewrite Hb. cbn [List.skipn].
    assert (Hsaves : forall kvs : list (string * object),
              List.flat_map
                (fun ev => match ev with AddConnections b _ => b | _ => [] end)
                (List.map (fun kv => Save (snd kv)) kvs) = []).
    { induction kvs as [|kv kvs IH]; [reflexivity | exact IH]. }
    rewrite Hsaves. reflexivity.
Qed.

(** The predicate names that [main] registers have no uppercase letter. *)
Theorem main_registers_lowercase
    (equip installations inventory military_groups organizations units : list json)
    (trait : string) (ps : list string) :
  In (AddPredicates trait ps)
     (fst (main uid equip installations inventory military_groups organizations units)) ->
  trait = "JanesOntology" /\ List.NoDup ps /\
  List.Forall (fun p => no_upper p = true) ps.
Proof.
  unfold main.
  destruct (traverse_collections uid equip installations inventory military_groups
              organizations units) as [st| |] eqn:Ht;
    unfold traverse_collections in Ht; rewrite Ht; cbn [fst];
    [| intros [] | intros []].
  fold (traverse_collections uid equip installations inventory military_groups
          organizations units) in Ht.
  cbv zeta. unfold and_then, exit. cbn [fst snd app]. intros [Hev | []].
  injection Hev as <- <-. split; [reflexivity|]. split.
  - unfold unique_predicates. apply NoDup_ListNoDup. apply NoDup_elements.
  - apply List.Forall_forall. intros p Hp. apply built_label_no_upper.
    unfold unique_predicates in Hp. apply list_elem_of_In in Hp.
    apply elem_of_elements in Hp. apply elem_of_list_to_set in Hp.
    apply list_elem_of_In in Hp. apply in_map_iff in Hp as ([[s q] o] & <- & Hin).
    destruct (traverse_collections_ok _ _ _ _ _ _ st Ht) as [_ Hconn].
    apply (Hconn s q o Hin).
Qed.

End Accumulators.

Lemma traverse_only_adds_witness :
  exists st' new,
    traverse "janes" example_equipment
      (append_connection ("a", "part-of", "b") empty_store) = Ok (JNull, st') /\
    connections st' = ("a", "part-of", "b") :: new.
Proof.
  pose (st0 := append_connection ("a", "part-of", "b") empty_store).
  destruct (traverse_well_formed "janes" example_equipment eq_refl eq_refl st0) as [st' Hst'].
  destruct (traverse_only_adds "janes" example_equipment JNull st0 st' Hst')
    as (_ & [new Hnew] & _).
  exists st', new. split; [exact Hst' | exact Hnew].
Defined.

Lemma traverse_twice_witness :
  exists st1 new,
    traverse "janes" example_equipment empty_store = Ok (JNull, st1) /\
    traverse "janes" example_equipment st1
      = Ok (JNull, Store (objects st1) (connections st1 ++ new)).
Proof.
  destruct (traverse_well_formed "janes" example_equipment eq_refl eq_refl empty_store)
    as [st1 Hst1].
  destruct (traverse_twice "janes" example_equipment JNull empty_store st1 Hst1)
    as (new & _ & Hnew).
  exists st1, new. split; [exact Hst1 | exact Hnew].
Defined.

Lemma traverse_keeps_store_ok_witness :
  exists st',
    traverse "janes" example_equipment empty_store = Ok (JNull, st') /\
    store_ok "janes" st'.
Proof.
  destruct (traverse_well_formed "janes" example_equipment eq_refl eq_refl empty_store)
    as [st' Hst'].
  exists st'. split; [exact Hst'|].
  apply (traverse_keeps_store_ok "janes" example_equipment JNull empty_store st'
           (store_ok_empty "janes") Hst').
Defined.

Lemma persist_runs_through_witness :
  exists st,
    traverse_collections "janes" [example_equipment] [] [] [] [] [] = Ok st /\
    snd (persist st) = Returned.
Proof.
  destruct (traverse_well_formed "janes" example_equipment eq_refl eq_refl empty_store)
    as [st Hst].
  assert (Hrun : traverse_collections "janes" [example_equipment] [] [] [] [] [] = Ok st).
  { unfold traverse_collections, traverse_all. cbn [for_each]. rewrite Hst. reflexivity. }
  destruct (persist_runs_through "janes" [example_equipment] [] [] [] [] [] st Hrun)
    as (l & _ & _ & Hend & _).
  exists st. split; [exact Hrun | exact Hend].
Defined.

Lemma main_registers_lowercase_witness :
  "JanesOntology" = "JanesOntology" /\ List.NoDup ["part-of"] /\
  List.Forall (fun p => no_upper p = true) ["part-of"].
Proof.
  apply (main_registers_lowercase "janes" [example_equipment] [] [] [] [] []
           "JanesOntology" ["part-of"]).
  assert (H : fst (main "janes" [example_equipment] [] [] [] [] [])
              = [AddPredicates "JanesOntology" ["part-of"]]) by (vm_compute; reflexivity).
  rewrite H. left. reflexivity.
Defined.
